(** * pqdict: an indexed priority queue (binary heap + position index)

    Shallow embedding of [src/pqdict.py] and proofs about it.

    Python objects are modelled as follows.
    - A [PQDictEntry] object is a reference [entry]: its address [oid], its
      [dkey] and its class ([MinPQDEntry] or [MaxPQDEntry]).  The source
      assigns [dkey] once, in the constructor, and never changes the class of
      an object, so both travel with the reference.  The mutable field [pkey]
      lives in the object [store], indexed by address, so that two references
      to one object see each other's writes.
    - [self.heap] is a Python list of entry references, [self.nodefinder] a
      Python dict from dkeys to heap positions.  Every [PQDict] builds its own
      list and dict ([__init__], [__copy__]); they are fields of [pqdict].
    - Methods run in the monad [M]: they read and write the pair of the store
      and [self], and end in a value or in a raised exception.  A raised
      exception keeps the writes made before it, as in Python.
    - Dkeys are of any countable type [K], priorities are integers, heap
      positions are natural numbers; [parent_pos], which the source lets be
      -1, is an integer where it can be.  Entry classes of the caller's own
      ([custompq]) and keyword arguments of the constructor are left out. *)

From stdpp Require Import gmap strings list fin_maps sorting.
From Stdlib Require Import ZArith Lia ZifyNat.

Open Scope Z_scope.
Open Scope nat_scope.

(** The two concrete entry classes of the source. *)
Inductive entry_class := MinPQDEntry | MaxPQDEntry.

Inductive exn := KeyError | IndexError.

(** [OutOfFuel] is not a Python outcome: the two [while] loops are written
    with a fuel argument, and [fuel_enough_swim], [fuel_enough_sink],
    [fuel_enough_call] and [fuel_enough_init] show that the fuel the methods
    pass never runs out. *)
Inductive outcome (A : Type) :=
  | Ret (a : A)
  | Raise (e : exn)
  | OutOfFuel.
Arguments Ret {A} a.
Arguments Raise {A} e.
Arguments OutOfFuel {A}.

Global Instance exn_eq_dec : EqDecision exn.
Proof. solve_decision. Defined.

Global Instance entry_class_eq_dec : EqDecision entry_class.
Proof. solve_decision. Defined.

(** A method body over a state [S]: it ends in a value or an exception and
    leaves a state behind in either case. *)
Definition Eff (S A : Type) : Type := S → outcome A * S.

Definition ret {S A} (a : A) : Eff S A := λ w, (Ret a, w).

Definition bind {S A B} (m : Eff S A) (k : A → Eff S B) : Eff S B := λ w,
  match m w with
  | (Ret a, w') => k a w'
  | (Raise e, w') => (Raise e, w')
  | (OutOfFuel, w') => (OutOfFuel, w')
  end.

Definition raise {S A} (e : exn) : Eff S A := λ w, (Raise e, w).

Definition out_of_fuel {S A} : Eff S A := λ w, (OutOfFuel, w).

(** [try: m  except caught: handler  else: k]. *)
Definition try_except_else {S A B} (m : Eff S A) (caught : exn)
    (handler : Eff S B) (k : A → Eff S B) : Eff S B := λ w,
  match m w with
  | (Ret a, w') => k a w'
  | (Raise e, w') => if decide (e = caught) then handler w' else (Raise e, w')
  | (OutOfFuel, w') => (OutOfFuel, w')
  end.

Notation "'let!' x ':=' m 'in' k" := (bind m (λ x, k))
  (at level 10, x name, m at level 100, k at level 200).

(** The object store: the [pkey] field of every entry object, by address. *)
Abbreviation store := (list Z).

Section pqdict.
Context `{Countable K}.

Record entry := Entry { oid : nat; dkey : K; cls : entry_class }.

Record pqdict := PQDict {
  heap : list entry;
  nodefinder : gmap K nat;
  create_entry : entry_class
}.

Definition world : Type := store * pqdict.

Definition M (A : Type) : Type := Eff world A.

(** ** Entry objects *)

(** [entry.pkey] *)
Definition pkey_of (σ : store) (e : entry) : Z := default 0%Z (σ !! oid e).

Definition get_pkey (e : entry) : M Z := λ w, (Ret (pkey_of w.1 e), w).

(** [entry.pkey = v] *)
Definition set_pkey (e : entry) (v : Z) : M unit := λ w,
  (Ret tt, (<[oid e := v]> w.1, w.2)).

(** [MinPQDEntry.__lt__] and [MaxPQDEntry.__lt__]: [a < b] calls the method
    of the class of [a]. *)
Definition entry_lt (σ : store) (a b : entry) : bool :=
  match cls a with
  | MinPQDEntry => (pkey_of σ a <? pkey_of σ b)%Z
  | MaxPQDEntry => (pkey_of σ a >? pkey_of σ b)%Z
  end.

Definition lt_ (a b : entry) : M bool := λ w, (Ret (entry_lt w.1 a b), w).

(** [a is b] *)
Definition is_ (a b : entry) : bool := bool_decide (oid a = oid b).

(** [self.create_entry(dkey, pkey)]: a new object. *)
Definition new_entry (k : K) (v : Z) : M entry := λ w,
  (Ret (Entry (length w.1) k (create_entry w.2)), (w.1 ++ [v], w.2)).

(** ** The list [self.heap] and the dict [self.nodefinder] *)

Definition set_heap (h : list entry) (q : pqdict) : pqdict :=
  PQDict h (nodefinder q) (create_entry q).

Definition set_finder (f : gmap K nat) (q : pqdict) : pqdict :=
  PQDict (heap q) f (create_entry q).

(** [len(heap)] *)
Definition heap_len : M nat := λ w, (Ret (length (heap w.2)), w).

(** [heap[i]] for [i >= 0] *)
Definition heap_get (i : nat) : M entry := λ w,
  match heap w.2 !! i with
  | Some e => (Ret e, w)
  | None => (Raise IndexError, w)
  end.

(** [heap[i] = e] for [i >= 0] *)
Definition heap_set (i : nat) (e : entry) : M unit := λ w,
  if decide (i < length (heap w.2))
  then (Ret tt, (w.1, set_heap (<[i := e]> (heap w.2)) w.2))
  else (Raise IndexError, w).

(** [heap.append(e)] *)
Definition heap_append (e : entry) : M unit := λ w,
  (Ret tt, (w.1, set_heap (heap w.2 ++ [e]) w.2)).

(** [heap.pop(-1)] *)
Definition heap_pop_last : M entry := λ w,
  match last (heap w.2) with
  | Some e => (Ret e, (w.1, set_heap (removelast (heap w.2)) w.2))
  | None => (Raise IndexError, w)
  end.

(** [finder[k]] *)
Definition finder_get (k : K) : M nat := λ w,
  match nodefinder w.2 !! k with
  | Some p => (Ret p, w)
  | None => (Raise KeyError, w)
  end.

(** [finder[k] = p] *)
Definition finder_set (k : K) (p : nat) : M unit := λ w,
  (Ret tt, (w.1, set_finder (<[k := p]> (nodefinder w.2)) w.2)).

(** [finder.pop(k)] *)
Definition finder_pop (k : K) : M nat := λ w,
  match nodefinder w.2 !! k with
  | Some p => (Ret p, (w.1, set_finder (delete k (nodefinder w.2)) w.2))
  | None => (Raise KeyError, w)
  end.

(** [k in self.nodefinder] *)
Definition finder_mem (k : K) : M bool := λ w,
  (Ret (bool_decide (is_Some (nodefinder w.2 !! k))), w).

(** ** [_swim] and [_sink] *)

(** The [while pos > top] loop of [_swim]; returns the final [pos]. *)
Fixpoint swim_loop (fuel : nat) (entry0 : entry) (pos top : nat) : M nat :=
  if decide (top < pos) then
    match fuel with
    | 0 => out_of_fuel
    | S fuel =>
        let parent_pos := Nat.shiftr (pos - 1) 1 in
        let! parent_entry := heap_get parent_pos in
        let! b := lt_ entry0 parent_entry in
        if b then
          let! _ := heap_set pos parent_entry in
          let! _ := finder_set (dkey parent_entry) pos in
          swim_loop fuel entry0 parent_pos top
        else ret pos
    end
  else ret pos.

Definition _swim (pos top : nat) : M unit :=
  let! entry0 := heap_get pos in
  let! pos := swim_loop pos entry0 pos top in
  let! _ := heap_set pos entry0 in
  finder_set (dkey entry0) pos.

(** The choice of the child to compare with or to pull up:
    [right_pos = child_pos + 1;
     if right_pos < len(heap) and not heap[child_pos] < heap[right_pos]:
         child_pos = right_pos]. *)
Definition pick_child (child_pos : nat) : M nat :=
  let right_pos := child_pos + 1 in
  let! n := heap_len in
  if decide (right_pos < n) then
    let! l := heap_get child_pos in
    let! r := heap_get right_pos in
    let! b := lt_ l r in
    if negb b then ret right_pos else ret child_pos
  else ret child_pos.

(** The [while child_pos < len(heap)] loop of [_sink]; returns the final
    [pos]. *)
Fixpoint sink_loop (fuel : nat) (pos child_pos : nat) : M nat :=
  let! n := heap_len in
  if decide (child_pos < n) then
    match fuel with
    | 0 => out_of_fuel
    | S fuel =>
        let! child_pos := pick_child child_pos in
        let! child_entry := heap_get child_pos in
        let! _ := heap_set pos child_entry in
        let! _ := finder_set (dkey child_entry) pos in
        sink_loop fuel child_pos (2 * child_pos + 1)
    end
  else ret pos.

Definition _sink (top : nat) : M unit :=
  let pos := top in
  let! entry0 := heap_get pos in
  let! n := heap_len in
  let! pos := sink_loop n pos (2 * pos + 1) in
  let! _ := heap_set pos entry0 in
  let! _ := finder_set (dkey entry0) pos in
  _swim pos top.

(** [_heapify]: [for pos in reversed(range(n//2)): self._sink(pos)]. *)
Fixpoint for_each (l : list nat) (body : nat → M unit) : M unit :=
  match l with
  | [] => ret tt
  | pos :: l => let! _ := body pos in for_each l body
  end.

Definition _heapify : M unit :=
  let! n := heap_len in
  for_each (reverse (seq 0 (n / 2))) _sink.

(** ** The public methods *)

(** The repair that follows a change at [pos]; the source has this block
    three times, in [__setitem__], [__delitem__] and [pop].  [parent_pos] is
    a Python int and is -1 for [pos = 0]; [and] does not evaluate
    [heap[parent_pos]] unless [parent_pos > 0]. *)
Definition reposition (pos : nat) : M unit :=
  let parent_pos := Z.shiftr (Z.of_nat pos - 1) 1 in
  let child_pos := 2 * pos + 1 in
  let! up :=
    (if decide (0 < parent_pos)%Z then
       let! a := heap_get pos in
       let! b := heap_get (Z.to_nat parent_pos) in
       lt_ a b
     else ret false) in
  if up then _swim pos 0
  else
    let! n := heap_len in
    if decide (child_pos < n) then
      let! child_pos := pick_child child_pos in
      let! c := heap_get child_pos in
      let! a := heap_get pos in
      let! down := lt_ c a in
      if down then _sink pos else ret tt
    else ret tt.

Definition __setitem__ (k : K) (v : Z) : M unit :=
  try_except_else (finder_get k) KeyError
    (let! n := heap_len in
     let! e := new_entry k v in
     let! _ := heap_append e in
     let! _ := finder_set k n in
     _swim n 0)
    (λ pos,
     let! e := heap_get pos in
     let! _ := set_pkey e v in
     reposition pos).

Definition __delitem__ (k : K) : M unit :=
  try_except_else (finder_pop k) KeyError
    (raise KeyError)
    (λ pos,
     let! entry0 := heap_get pos in
     let! last0 := heap_pop_last in
     if negb (is_ entry0 last0) then
       let! _ := heap_set pos last0 in
       let! _ := finder_set (dkey last0) pos in
       reposition pos
     else ret tt).

(** [pop(dkey, default)]; [default = None] is the source's [__marker]. *)
Definition pop (k : K) (default : option Z) : M Z :=
  try_except_else (finder_pop k) KeyError
    (match default with
     | None => raise KeyError
     | Some d => ret d
     end)
    (λ pos,
     let! delentry := heap_get pos in
     let! last0 := heap_pop_last in
     let! _ :=
       (if negb (is_ delentry last0) then
          let! _ := heap_set pos last0 in
          let! _ := finder_set (dkey last0) pos in
          reposition pos
        else ret tt) in
     get_pkey delentry).

Definition popitem : M (K * Z) :=
  try_except_else heap_pop_last IndexError
    (raise KeyError)
    (λ last0,
     let! n := heap_len in
     let! entry0 :=
       (if decide (0 < n) then
          let! entry0 := heap_get 0 in
          let! _ := heap_set 0 last0 in
          let! _ := finder_set (dkey last0) 0 in
          let! _ := _sink 0 in
          ret entry0
        else ret last0) in
     let! _ := finder_pop (dkey entry0) in
     let! v := get_pkey entry0 in
     ret (dkey entry0, v)).

Definition additem (k : K) (v : Z) : M unit :=
  let! present := finder_mem k in
  if present then raise KeyError else __setitem__ k v.

Definition updateitem (k : K) (v : Z) : M unit :=
  let! present := finder_mem k in
  if negb present then raise KeyError else __setitem__ k v.

Definition peek : M (K * Z) :=
  try_except_else (heap_get 0) IndexError
    (raise KeyError)
    (λ entry0, let! v := get_pkey entry0 in ret (dkey entry0, v)).

Definition __getitem__ (k : K) : M Z :=
  let! pos := finder_get k in
  let! e := heap_get pos in
  get_pkey e.

Definition __len__ : M nat := λ w, (Ret (size (nodefinder w.2)), w).

Definition __contains__ (k : K) : M bool := finder_mem k.

(** [__init__] with one positional argument, a sequence of pairs. *)
Fixpoint init_loop (items : list (K * Z)) (pos : nat) : M unit :=
  match items with
  | [] => ret tt
  | (k, v) :: items =>
      let! e := new_entry k v in
      let! _ := heap_append e in
      let! _ := finder_set k pos in
      init_loop items (pos + 1)
  end.

Definition __init__ (items : list (K * Z)) : M unit :=
  let! _ := (λ w, (Ret tt, (w.1, PQDict [] ∅ (create_entry w.2)))) in
  let! _ := init_loop items 0 in
  _heapify.

(** [PQDict.minpq(seq)], [PQDict.maxpq(seq)] and [PQDict(seq)]: the new
    object and the store after the call. *)
Definition construct (c : entry_class) (items : list (K * Z)) (σ : store)
    : outcome unit * world :=
  __init__ items (σ, PQDict [] ∅ c).

Definition minpq := construct MinPQDEntry.
Definition maxpq := construct MaxPQDEntry.

(** [copy(entry)] for every entry of a list. *)
Fixpoint copy_entries (σ : store) (h : list entry) : store * list entry :=
  match h with
  | [] => (σ, [])
  | e :: h =>
      let e' := Entry (length σ) (dkey e) (cls e) in
      let '(σ', h') := copy_entries (σ ++ [pkey_of σ e]) h in
      (σ', e' :: h')
  end.

(** [__copy__]: [self.__class__()] is a [PQDict] with the class attribute
    [create_entry = MinPQDEntry]; the method returns the new object. *)
Definition __copy__ (w : world) : store * pqdict :=
  let '(σ', h') := copy_entries w.1 (heap w.2) in
  (σ', PQDict h' (nodefinder w.2) MinPQDEntry).

(** ** Predicates used to state the properties *)

(** [picked σ h child_pos ch ce]: [ch], holding [ce], is the position that
    the child choice of [_sink] selects among [child_pos] and
    [child_pos + 1]. *)
Definition picked (σ : store) (h : list entry) (child_pos ch : nat)
    (ce : entry) : Prop :=
  (ch = child_pos ∧ h !! child_pos = Some ce
   ∧ ∀ r, h !! (child_pos + 1) = Some r → entry_lt σ ce r = true)
  ∨ (ch = child_pos + 1 ∧ h !! (child_pos + 1) = Some ce
     ∧ ∃ l, h !! child_pos = Some l ∧ entry_lt σ l ce = false).


(** I2 for a heap array and a position index: every position is indexed
    under the dkey it holds, and every indexed dkey sits where the index
    says.  I1 (no dkey twice) follows, see [index_ok_inj]. *)
Definition index_fwd (h : list entry) (f : gmap K nat) : Prop :=
  ∀ p e, h !! p = Some e → f !! dkey e = Some p.

Definition index_bwd (h : list entry) (f : gmap K nat) : Prop :=
  ∀ k p, f !! k = Some p → ∃ e, h !! p = Some e ∧ dkey e = k.

Definition index_ok (h : list entry) (f : gmap K nat) : Prop :=
  index_fwd h f ∧ index_bwd h f.

(** The index [f'] differs from [f] at most at dkeys held by [h]. *)
Definition index_frame (h : list entry) (f f' : gmap K nat) : Prop :=
  ∀ k, k ∉ dkey <$> h → f' !! k = f !! k.

(** A state as the methods leave it: I1 and I2 hold, the heap holds every
    entry object once, and every reference points into the store. *)
Definition wf (w : world) : Prop :=
  index_ok (heap w.2) (nodefinder w.2)
  ∧ NoDup (oid <$> heap w.2)
  ∧ (∀ e, e ∈ heap w.2 → oid e < length w.1).

(** The positions of the subtree rooted at [top]. *)
Inductive in_subtree (top : nat) : nat → Prop :=
  | in_subtree_top : in_subtree top top
  | in_subtree_child p :
      0 < p → in_subtree top ((p - 1) / 2) → in_subtree top p.

(** I3 within the subtree rooted at [top]: no entry below [top] ranks
    higher than ([<]) its parent. *)
Definition heap_ordered (σ : store) (top : nat) (h : list entry) : Prop :=
  ∀ p a b,
    in_subtree top p → p ≠ top →
    h !! p = Some a → h !! ((p - 1) / 2) = Some b →
    entry_lt σ a b = false.

(** All entries are of one class. *)
Definition uniform (c : entry_class) (h : list entry) : Prop :=
  ∀ e, e ∈ h → cls e = c.

(** The (dkey, pkey) pairs held by a heap array, in array order. *)
Definition contents (σ : store) (h : list entry) : list (K * Z) :=
  (λ e, (dkey e, pkey_of σ e)) <$> h.


(** The rank of a priority under a class, smaller ranks first: [a < b]
    for [a] of class [c] compares the ranks of the two priorities. *)
Definition rank (c : entry_class) (v : Z) : Z :=
  match c with
  | MinPQDEntry => v
  | MaxPQDEntry => (- v)%Z
  end.

(** The precondition of [_sink(top)]: heap order among the strict
    descendants of [top]. *)
Definition below_ordered (σ : store) (top : nat) (h : list entry) : Prop :=
  ∀ p a b,
    in_subtree top p → p ≠ top → (p - 1) / 2 ≠ top →
    h !! p = Some a → h !! ((p - 1) / 2) = Some b →
    entry_lt σ a b = false.

(** The invariant of the loop of [_swim], on the heap with the travelling
    entry at [pos]: the subtree of [top] is ordered except, perhaps, between
    [pos] and its parent, and the children of [pos] do not rank higher than
    the parent of [pos]. *)
Definition swim_inv (σ : store) (c : entry_class) (top : nat)
    (h : list entry) (pos : nat) : Prop :=
  in_subtree top pos
  ∧ uniform c h
  ∧ (∀ p a b,
        in_subtree top p → p ≠ top → p ≠ pos →
        h !! p = Some a → h !! ((p - 1) / 2) = Some b →
        entry_lt σ a b = false)
  ∧ (pos ≠ top →
     ∀ ch a b,
        ch = 2 * pos + 1 ∨ ch = 2 * pos + 2 →
        h !! ch = Some a → h !! ((pos - 1) / 2) = Some b →
        entry_lt σ a b = false).

(** The invariant of the loop of [_sink]: as [swim_inv], but nothing is
    known yet between [pos] and its children. *)
Definition sink_inv (σ : store) (c : entry_class) (top : nat)
    (h : list entry) (pos : nat) : Prop :=
  in_subtree top pos
  ∧ uniform c h
  ∧ (∀ p a b,
        in_subtree top p → p ≠ top → p ≠ pos → (p - 1) / 2 ≠ pos →
        h !! p = Some a → h !! ((p - 1) / 2) = Some b →
        entry_lt σ a b = false)
  ∧ (pos ≠ top →
     ∀ ch a b,
        ch = 2 * pos + 1 ∨ ch = 2 * pos + 2 →
        h !! ch = Some a → h !! ((pos - 1) / 2) = Some b →
        entry_lt σ a b = false).


(** What [_swim] and [_sink] keep while they work below [top]: the entries,
    the index (I2, forward part, and no change at dkeys not in the heap), and
    every position outside the subtree of [top]. *)
Definition kept (top : nat) (h : list entry) (f : gmap K nat)
    (hv : list entry) (fv : gmap K nat) : Prop :=
  hv ≡ₚ h ∧ index_fwd hv fv ∧ index_frame h f fv
  ∧ ∀ i, ¬ in_subtree top i → hv !! i = h !! i.


(** ** Sequences of calls *)

(** [for dkey, pkey in items: pq[dkey] = pkey] *)
Fixpoint setitems (items : list (K * Z)) : M unit :=
  match items with
  | [] => ret tt
  | (k, v) :: items => let! _ := __setitem__ k v in setitems items
  end.

(** [[pq.popitem() for _ in range(n)]] *)
Fixpoint popitems (n : nat) : M (list (K * Z)) :=
  match n with
  | 0 => ret []
  | S n =>
      let! x := popitem in
      let! xs := popitems n in
      ret (x :: xs)
  end.

(** I1 to I4 and valid references, for a queue of class [c]. *)
Definition heap_state (σ : store) (c : entry_class) (h : list entry)
    (f : gmap K nat) : Prop :=
  index_ok h f
  ∧ (∀ e, e ∈ h → oid e < length σ)
  ∧ uniform c h
  ∧ heap_ordered σ 0 h.

Definition by_rank (c : entry_class) (x y : Z) : Prop :=
  (rank c x ≤ rank c y)%Z.


(** The priority that [__getitem__] finds for a dkey, if it finds one. *)
Definition priority_of (w : world) (k : K) : option Z :=
  p ← nodefinder w.2 !! k;
  e ← heap w.2 !! p;
  Some (pkey_of w.1 e).

(** The calls of the public interface that change a queue. *)
Inductive call :=
  | SetPriority (k : K) (v : Z)
  | AddItem (k : K) (v : Z)
  | UpdateItem (k : K) (v : Z)
  | DeleteItem (k : K)
  | Pop
  | PopKey (k : K) (default : option Z).

Definition run_call (c : call) : M unit :=
  match c with
  | SetPriority k v => __setitem__ k v
  | AddItem k v => additem k v
  | UpdateItem k v => updateitem k v
  | DeleteItem k => __delitem__ k
  | Pop => let! _ := popitem in ret tt
  | PopKey k default => let! _ := pop k default in ret tt
  end.

(** A caller makes the calls one after the other and goes on after a call
    that raised. *)
Fixpoint run_calls (cs : list call) (w : world) : world :=
  match cs with
  | [] => w
  | c :: cs => run_calls cs (run_call c w).2
  end.

(** The priority that a call supplies for [k], when it is a call that
    assigns a priority to [k]. *)
Definition supplies (k : K) (c : call) : option Z :=
  match c with
  | SetPriority k' v | AddItem k' v | UpdateItem k' v =>
      if decide (k' = k) then Some v else None
  | _ => None
  end.

(** The priority supplied for [k] by the most recent successful
    setPriority/addItem/updateItem among the calls [cs] made from [w] on;
    [last] is the one supplied before them. *)
Fixpoint supplied (k : K) (cs : list call) (w : world) (last : option Z)
    : option Z :=
  match cs with
  | [] => last
  | c :: cs =>
      let r := run_call c w in
      supplied k cs r.2
        (match r.1, supplies k c with
         | Ret _, Some v => Some v
         | _, _ => last
         end)
  end.


(** ** Two queues that hold the same pairs in the same array order *)

(** Two entry objects with the same dkey, class and priority, each priority
    read in its own store. *)
Definition esim (σ1 σ2 : store) (a b : entry) : Prop :=
  dkey a = dkey b ∧ cls a = cls b ∧ pkey_of σ1 a = pkey_of σ2 b.

Definition wsim (σ1 σ2 : store) (w1 w2 : world) : Prop :=
  w1.1 = σ1 ∧ w2.1 = σ2
  ∧ Forall2 (esim σ1 σ2) (heap w1.2) (heap w2.2)
  ∧ nodefinder w1.2 = nodefinder w2.2.

Inductive osim {A} (R : A → A → Prop) : outcome A → outcome A → Prop :=
  | osim_Ret a b : R a b → osim R (Ret a) (Ret b)
  | osim_Raise e : osim R (Raise e) (Raise e)
  | osim_OutOfFuel : osim R OutOfFuel OutOfFuel.

(** Two method bodies that, from similar states, end alike in similar
    states. *)
Definition msim (σ1 σ2 : store) {A} (R : A → A → Prop) (m1 m2 : M A) : Prop :=
  ∀ w1 w2, wsim σ1 σ2 w1 w2 →
    osim R (m1 w1).1 (m2 w2).1 ∧ wsim σ1 σ2 (m1 w1).2 (m2 w2).2.

(** What a caller can observe of a queue without changing it, and the
    results of popping it any number of times. *)
Definition same_view (w1 w2 : world) : Prop :=
  (__len__ w1).1 = (__len__ w2).1
  ∧ (∀ k, (__contains__ k w1).1 = (__contains__ k w2).1)
  ∧ (∀ k, (__getitem__ k w1).1 = (__getitem__ k w2).1)
  ∧ (peek w1).1 = (peek w2).1
  ∧ (∀ n, (popitems n w1).1 = (popitems n w2).1).

(** What a call on one queue leaves alone: the store grows, the objects
    that the queue does not hold keep their priority, and the queue holds
    afterwards only objects that it held or that are new. *)
Definition frames (w w' : world) : Prop :=
  length w.1 ≤ length w'.1
  ∧ (∀ o, o < length w.1 → o ∉ oid <$> heap w.2 → w'.1 !! o = w.1 !! o)
  ∧ (∀ e, e ∈ heap w'.2 → e ∈ heap w.2 ∨ length w.1 ≤ oid e).

(** Two queues in one store, and calls made on the one or the other. *)
Inductive side := Original | Clone.

Definition run_side (s : side) (cl : call) (st : store * pqdict * pqdict)
    : store * pqdict * pqdict :=
  let '(σ, q, c) := st in
  match s with
  | Original => let w' := (run_call cl (σ, q)).2 in (w'.1, w'.2, c)
  | Clone => let w' := (run_call cl (σ, c)).2 in (w'.1, q, w'.2)
  end.

Fixpoint run_sides (cs : list (side * call)) (st : store * pqdict * pqdict)
    : store * pqdict * pqdict :=
  match cs with
  | [] => st
  | (s, cl) :: cs => run_sides cs (run_side s cl st)
  end.

(** Two well-formed queues in one store that share no entry object. *)
Definition apart (σ : store) (q c : pqdict) : Prop :=
  wf (σ, q) ∧ wf (σ, c)
  ∧ ∀ a b, a ∈ heap q → b ∈ heap c → oid a ≠ oid b.


(** A method body that never exhausts the fuel given to its loops. *)
Definition terminates {A} (m : M A) : Prop := ∀ w, (m w).1 ≠ OutOfFuel.


(** ** More of the interface *)

(** [__iter__]: the dkeys that the generator yields when it is run to its
    end, [for entry in self.heap: yield entry.dkey]. *)
Definition __iter__ (w : world) : list K := dkey <$> heap w.2.

(** [fromfunction(iterable, pkeygen)]:
    [cls((dkey, pkeygen(dkey)) for dkey in iterable)]; [cls(...)] is a
    [PQDict] with the class attribute [create_entry = MinPQDEntry]. *)
Definition fromfunction (iterable : list K) (pkeygen : K → Z) (σ : store)
    : outcome unit * world :=
  construct MinPQDEntry ((λ k, (k, pkeygen k)) <$> iterable) σ.

(** A queue as the methods should leave it: I1 and I2 with every object held
    once ([wf]), entries of the class of the queue, and I3 (hence I4). *)
Definition good (w : world) : Prop :=
  wf w
  ∧ uniform (create_entry w.2) (heap w.2)
  ∧ heap_ordered w.1 0 (heap w.2).

(** Heap order on every edge whose parent is at position [k] or later; the
    invariant of [_heapify]. *)
Definition ordered_from (σ : store) (k : nat) (h : list entry) : Prop :=
  ∀ p a b,
    0 < p → k ≤ (p - 1) / 2 →
    h !! p = Some a → h !! ((p - 1) / 2) = Some b →
    entry_lt σ a b = false.

(** The calls that never assign a priority to a dkey that is present. *)
Definition no_update (cl : call) : bool :=
  match cl with
  | AddItem _ _ | DeleteItem _ | Pop | PopKey _ _ => true
  | SetPriority _ _ | UpdateItem _ _ => false
  end.

End pqdict.

(** ** Queues with string dkeys, for the scenarios of the specification *)

Definition fresh (c : entry_class) : world (K:=string) := ([], PQDict [] ∅ c).

(** Scenario B: insert x:5 and y:9, then updateItem(x, 20). *)
Definition scenario_B : list (call (K:=string)) :=
  [SetPriority "x"%string 5%Z; SetPriority "y"%string 9%Z;
   UpdateItem "x"%string 20%Z].

(** Scenario B with the two pairs given to the constructor. *)
Definition scenario_B_constructed : outcome (string * Z) :=
  (bind (updateitem "x"%string 20%Z) (λ _, peek)
     (maxpq [("x"%string, 5%Z); ("y"%string, 9%Z)] []).2).1.

(** Scenario E: the pairs given to the constructor. *)
Definition scenario_E : list (string * Z) :=
  [("k"%string, 1%Z); ("k"%string, 2%Z)].

(** Scenario A. *)
Definition scenario_A : list (string * Z) :=
  [("a"%string, 3%Z); ("b"%string, 1%Z); ("c"%string, 2%Z)].

(** A queue after some calls, one of which raises. *)
Definition some_calls : list (call (K:=string)) :=
  [AddItem "a"%string 3%Z; AddItem "b"%string 1%Z; AddItem "a"%string 8%Z;
   UpdateItem "a"%string 7%Z; SetPriority "c"%string 2%Z;
   DeleteItem "b"%string; SetPriority "b"%string 4%Z].

Definition some_queue : world (K:=string) :=
  run_calls some_calls (fresh MinPQDEntry).

(** A heap of three entries that is not in heap order at the root. *)
Definition three_store : store := [5%Z; 1%Z; 2%Z].

Definition three_heap : list (entry (K:=string)) :=
  [Entry 0 "a"%string MinPQDEntry; Entry 1 "b"%string MinPQDEntry;
   Entry 2 "c"%string MinPQDEntry].

Definition three_index : gmap string nat :=
  <["c"%string:=2]> (<["b"%string:=1]> (<["a"%string:=0]> ∅)).


(** A queue built by calls that assign no priority to a present dkey. *)
Definition added_calls : list (call (K:=string)) :=
  [AddItem "a"%string 3%Z; AddItem "b"%string 1%Z; AddItem "c"%string 2%Z;
   AddItem "d"%string 5%Z; DeleteItem "b"%string; AddItem "e"%string 0%Z;
   AddItem "g"%string 9%Z].

Definition added_queue : world (K:=string) :=
  run_calls added_calls (fresh MinPQDEntry).

(** A store under which [three_heap] is in heap order but for its last
    entry. *)
Definition swim_store : store := [1%Z; 2%Z; 0%Z].

(** A priority function for [fromfunction]. *)
Definition key_length (k : string) : Z := Z.of_nat (String.length k).

Definition some_keys : list string :=
  ["a"%string; "bb"%string; "ccc"%string].

(** * Proofs *)

Section proofs.
Context `{Countable K}.
Implicit Types (σ : store) (h hv : list (entry (K:=K))) (f : gmap K nat)
  (e : entry (K:=K)) (q : pqdict (K:=K)) (w : world (K:=K)).

#[local] Ltac Zify.zify_post_hook ::= Z.to_euclidean_division_equations.

#[local] Arguments Nat.div : simpl never.
#[local] Arguments Nat.mul : simpl never.
#[local] Arguments Nat.modulo : simpl never.

Lemma shiftr_1 n : Nat.shiftr n 1 = n / 2.
Proof. rewrite Nat.shiftr_div_pow2. reflexivity. Qed.

(** ** Running the primitives *)

Lemma heap_get_Some σ h f c i e :
  h !! i = Some e →
  heap_get i (σ, PQDict h f c) = (Ret e, (σ, PQDict h f c)).
Proof. intros Hi. unfold heap_get. simpl. by rewrite Hi. Qed.

Lemma heap_get_None σ h f c i :
  length h ≤ i →
  heap_get i (σ, PQDict h f c) = (Raise IndexError, (σ, PQDict h f c)).
Proof.
  intros Hi. unfold heap_get. simpl. by rewrite (lookup_ge_None_2 h i Hi).
Qed.

Lemma heap_set_lt σ h f c i e :
  i < length h →
  heap_set i e (σ, PQDict h f c) = (Ret tt, (σ, PQDict (<[i:=e]> h) f c)).
Proof. intros Hi. unfold heap_set. simpl. by rewrite decide_True. Qed.

Lemma bind_Ret {S A B} (m : Eff S A) (k : A → Eff S B) (s s' : S) a :
  m s = (Ret a, s') → bind m k s = k a s'.
Proof. intros Hm. unfold bind. by rewrite Hm. Qed.

(** ** The loop of [_swim] *)

Lemma swim_loop_0 e0 pos top :
  swim_loop 0 e0 pos top =
  if decide (top < pos) then out_of_fuel else ret pos.
Proof. reflexivity. Qed.

Lemma swim_loop_S fuel e0 pos top :
  swim_loop (S fuel) e0 pos top =
  if decide (top < pos) then
    let! parent_entry := heap_get ((pos - 1) / 2) in
    let! b := lt_ e0 parent_entry in
    if b then
      let! _ := heap_set pos parent_entry in
      let! _ := finder_set (dkey parent_entry) pos in
      swim_loop fuel e0 ((pos - 1) / 2) top
    else ret pos
  else ret pos.
Proof. cbn [swim_loop]. by rewrite shiftr_1. Qed.

Lemma swim_loop_inv (I : list entry → gmap K nat → nat → Prop) σ c e0 top :
  (∀ h f pos pe,
      I h f pos → top < pos → pos < length h →
      h !! ((pos - 1) / 2) = Some pe → entry_lt σ e0 pe = true →
      I (<[pos:=pe]> h) (<[dkey pe:=pos]> f) ((pos - 1) / 2)) →
  ∀ fuel h f pos,
    pos ≤ fuel → pos < length h → I h f pos →
    ∃ p h' f',
      swim_loop fuel e0 pos top (σ, PQDict h f c) = (Ret p, (σ, PQDict h' f' c))
      ∧ I h' f' p ∧ length h' = length h ∧ p ≤ pos
      ∧ (top < p → ∃ pe, h' !! ((p - 1) / 2) = Some pe
                         ∧ entry_lt σ e0 pe = false).
Proof.
  intros Hstep. induction fuel as [|fuel IH]; intros h f pos Hfuel Hlen HI.
  - rewrite swim_loop_0, decide_False by lia.
    exists pos, h, f. split_and!; [done..|lia|lia].
  - rewrite swim_loop_S. destruct (decide (top < pos)) as [Hlt|Hge].
    + assert ((pos - 1) / 2 < pos) as Hpp.
      { apply Nat.Div0.div_lt_upper_bound; lia. }
      destruct (lookup_lt_is_Some_2 h ((pos - 1) / 2)) as [pe Hpe]; [lia|].
      rewrite (bind_Ret _ _ _ _ _ (heap_get_Some σ h f c _ _ Hpe)).
      unfold bind at 1, lt_. simpl.
      destruct (entry_lt σ e0 pe) eqn:Hb.
      * rewrite (bind_Ret _ _ _ _ _ (heap_set_lt σ h f c pos pe Hlen)).
        unfold bind at 1, finder_set, set_finder. simpl.
        destruct (IH (<[pos:=pe]> h) (<[dkey pe:=pos]> f) ((pos - 1) / 2))
          as (p & h' & f' & Hrun & HI' & Hl & Hp & Hstop).
        { lia. }
        { rewrite length_insert. lia. }
        { by apply Hstep. }
        exists p, h', f'. rewrite Hrun. rewrite length_insert in Hl.
        split_and!; [done..|lia|done].
      * exists pos, h, f. split_and!; [done..|lia|].
        intros _. by exists pe.
    + exists pos, h, f. split_and!; [done..|lia|lia].
Qed.

(** ** The loop of [_sink] *)

Lemma pick_child_run σ h f c cp :
  cp < length h →
  ∃ ch ce,
    pick_child cp (σ, PQDict h f c) = (Ret ch, (σ, PQDict h f c))
    ∧ picked σ h cp ch ce.
Proof.
  intros Hcp. unfold pick_child, bind at 1, heap_len. simpl.
  destruct (lookup_lt_is_Some_2 h cp Hcp) as [l Hl].
  destruct (decide (cp + 1 < length h)) as [Hr|Hr].
  - destruct (lookup_lt_is_Some_2 h (cp + 1) Hr) as [r Hr'].
    rewrite (bind_Ret _ _ _ _ _ (heap_get_Some σ h f c _ _ Hl)).
    rewrite (bind_Ret _ _ _ _ _ (heap_get_Some σ h f c _ _ Hr')).
    unfold bind, lt_. simpl.
    destruct (entry_lt σ l r) eqn:Hb; simpl.
    + exists cp, l. split; [done|]. left. split_and!; [done..|].
      intros r0 Hr0. congruence.
    + exists (cp + 1), r. split; [done|]. right. split_and!; [done..|].
      by exists l.
  - exists cp, l. split; [done|]. left. split_and!; [done..|].
    intros r Hr'. apply lookup_lt_Some in Hr'. lia.
Qed.

Lemma picked_range σ h cp ch ce :
  picked σ h cp ch ce → h !! ch = Some ce ∧ cp ≤ ch ≤ cp + 1.
Proof. intros [(-> & ? & _)|(-> & ? & _)]; split; (done || lia). Qed.

Lemma sink_loop_0 pos child_pos :
  sink_loop (K:=K) 0 pos child_pos =
  let! n := heap_len in
  if decide (child_pos < n) then out_of_fuel else ret pos.
Proof. reflexivity. Qed.

Lemma sink_loop_S fuel pos child_pos :
  sink_loop (K:=K) (S fuel) pos child_pos =
  let! n := heap_len in
  if decide (child_pos < n) then
    let! child_pos := pick_child child_pos in
    let! child_entry := heap_get child_pos in
    let! _ := heap_set pos child_entry in
    let! _ := finder_set (dkey child_entry) pos in
    sink_loop fuel child_pos (2 * child_pos + 1)
  else ret pos.
Proof. reflexivity. Qed.

Lemma sink_loop_inv (I : list entry → gmap K nat → nat → Prop) σ c :
  (∀ h f pos ch ce,
      I h f pos → pos < length h → picked σ h (2 * pos + 1) ch ce →
      I (<[pos:=ce]> h) (<[dkey ce:=pos]> f) ch) →
  ∀ fuel h f pos,
    length h ≤ fuel + pos → pos < length h → I h f pos →
    ∃ p h' f',
      sink_loop fuel pos (2 * pos + 1) (σ, PQDict h f c)
      = (Ret p, (σ, PQDict h' f' c))
      ∧ I h' f' p ∧ length h' = length h ∧ pos ≤ p < length h
      ∧ length h ≤ 2 * p + 1.
Proof.
  intros Hstep. induction fuel as [|fuel IH]; intros h f pos Hfuel Hlen HI.
  - lia.
  - rewrite sink_loop_S. unfold bind at 1, heap_len. simpl.
    destruct (decide (2 * pos + 1 < length h)) as [Hlt|Hge].
    + destruct (pick_child_run σ h f c _ Hlt) as (ch & ce & Hrun & Hpick).
      destruct (picked_range _ _ _ _ _ Hpick) as [Hce Hch].
      rewrite (bind_Ret _ _ _ _ _ Hrun).
      rewrite (bind_Ret _ _ _ _ _ (heap_get_Some σ h f c _ _ Hce)).
      rewrite (bind_Ret _ _ _ _ _ (heap_set_lt σ h f c pos ce Hlen)).
      unfold bind at 1, finder_set, set_finder. simpl.
      apply lookup_lt_Some in Hce.
      destruct (IH (<[pos:=ce]> h) (<[dkey ce:=pos]> f) ch)
        as (p & h' & f' & Hrun' & HI' & Hl & Hp & Hleaf).
      { rewrite length_insert. lia. }
      { rewrite length_insert. lia. }
      { by apply (Hstep h f pos ch ce). }
      rewrite length_insert in Hl, Hp, Hleaf.
      exists p, h', f'. split_and!; [done..|lia|lia|done].
    + exists pos, h, f. split_and!; [done..|lia|lia|lia].
Qed.

(** ** [_swim] and [_sink] on the heap with the travelling entry in place

    Both loops keep the travelling entry [e0] aside and leave a stale
    reference at its position [pos]; the rules below state their invariants
    on the heap and the index as they are once [e0] is written back at
    [pos].  On that view one iteration exchanges [e0] with its parent
    ([_swim]) or with the picked child ([_sink]). *)

Lemma insert_insert_insert f (a b : K) (x y z : nat) :
  <[a:=x]> (<[b:=y]> (<[a:=z]> f)) = <[a:=x]> (<[b:=y]> f).
Proof.
  apply map_eq. intros i.
  destruct (decide (i = a)) as [->|]; [by rewrite !lookup_insert_eq|].
  rewrite !(lookup_insert_ne _ a i) by done.
  destruct (decide (i = b)) as [->|]; [by rewrite !lookup_insert_eq|].
  rewrite !(lookup_insert_ne _ b i) by done.
  by rewrite lookup_insert_ne.
Qed.

Lemma parent_lt pos : 0 < pos → (pos - 1) / 2 < pos.
Proof. intros. apply Nat.Div0.div_lt_upper_bound; lia. Qed.

Lemma swim_rule (J : list entry → gmap K nat → nat → Prop) σ c top h f pos e0 :
  (∀ hv fv pos pe,
      J hv fv pos → top < pos →
      hv !! pos = Some e0 → hv !! ((pos - 1) / 2) = Some pe →
      entry_lt σ e0 pe = true →
      J (<[(pos - 1) / 2:=e0]> (<[pos:=pe]> hv))
        (<[dkey e0:=(pos - 1) / 2]> (<[dkey pe:=pos]> fv))
        ((pos - 1) / 2)) →
  h !! pos = Some e0 →
  J h (<[dkey e0:=pos]> f) pos →
  ∃ p h' f',
    _swim pos top (σ, PQDict h f c) = (Ret tt, (σ, PQDict h' f' c))
    ∧ J h' f' p ∧ h' !! p = Some e0 ∧ f' !! dkey e0 = Some p ∧ p ≤ pos
    ∧ (top < p → ∃ pe, h' !! ((p - 1) / 2) = Some pe
                       ∧ entry_lt σ e0 pe = false).
Proof.
  intros Hstep He0 HJ.
  assert (pos < length h) as Hpos by by eapply lookup_lt_Some.
  destruct (swim_loop_inv
    (λ h f pos, J (<[pos:=e0]> h) (<[dkey e0:=pos]> f) pos) σ c e0 top)
    with (fuel := pos) (h := h) (f := f) (pos := pos)
    as (p & h' & f' & Hrun & HJ' & Hl & Hp & Hstop).
  - clear dependent h f pos. intros h f pos pe HJ Htop Hpos Hpe Hlt.
    pose proof (parent_lt pos ltac:(lia)) as Hpp.
    specialize (Hstep (<[pos:=e0]> h) (<[dkey e0:=pos]> f) pos pe HJ Htop).
    rewrite list_lookup_insert_eq in Hstep by done.
    rewrite list_lookup_insert_ne in Hstep by lia.
    specialize (Hstep eq_refl Hpe Hlt).
    by rewrite list_insert_insert_eq, insert_insert_insert in Hstep.
  - done.
  - done.
  - by rewrite list_insert_id.
  - unfold _swim.
    rewrite (bind_Ret _ _ _ _ _ (heap_get_Some σ h f c _ _ He0)).
    rewrite (bind_Ret _ _ _ _ _ Hrun).
    rewrite (bind_Ret _ _ _ _ _ (heap_set_lt σ h' f' c p e0 ltac:(lia))).
    exists p, (<[p:=e0]> h'), (<[dkey e0:=p]> f').
    split_and!; [done|done| | |done|].
    + apply list_lookup_insert_eq. lia.
    + apply lookup_insert_eq.
    + intros Htop. destruct (Hstop Htop) as (pe & Hpe & Hlt).
      exists pe. split; [|done].
      pose proof (parent_lt p ltac:(lia)).
      rewrite list_lookup_insert_ne by lia. done.
Qed.

(** The part of [_sink] before the call of [_swim], as one run. *)
Lemma sink_down_rule (J : list entry → gmap K nat → nat → Prop) σ c h f top e0 :
  (∀ hv fv pos ch ce,
      J hv fv pos → hv !! pos = Some e0 →
      picked σ hv (2 * pos + 1) ch ce →
      J (<[ch:=e0]> (<[pos:=ce]> hv))
        (<[dkey e0:=ch]> (<[dkey ce:=pos]> fv)) ch) →
  h !! top = Some e0 →
  J h (<[dkey e0:=top]> f) top →
  ∃ p h' f',
    (∀ A (k : nat → M A),
       (let! n := heap_len in
        let! pos := sink_loop n top (2 * top + 1) in
        let! _ := heap_set pos e0 in
        let! _ := finder_set (dkey e0) pos in
        k pos) (σ, PQDict h f c)
       = k p (σ, PQDict h' f' c))
    ∧ J h' f' p ∧ h' !! p = Some e0 ∧ f' !! dkey e0 = Some p ∧ top ≤ p
    ∧ length h' ≤ 2 * p + 1.
Proof.
  intros Hstep He0 HJ.
  assert (top < length h) as Htop by by eapply lookup_lt_Some.
  destruct (sink_loop_inv
    (λ h f pos, J (<[pos:=e0]> h) (<[dkey e0:=pos]> f) pos) σ c)
    with (fuel := length h) (h := h) (f := f) (pos := top)
    as (p & h' & f' & Hrun & HJ' & Hl & Hp & Hleaf).
  - clear dependent h f top. intros h f pos ch ce HJ Hpos Hpick.
    destruct (picked_range _ _ _ _ _ Hpick) as [Hce Hch].
    assert (picked σ (<[pos:=e0]> h) (2 * pos + 1) ch ce) as Hpick'.
    { unfold picked in *.
      rewrite !(list_lookup_insert_ne h pos) by lia. done. }
    specialize (Hstep (<[pos:=e0]> h) (<[dkey e0:=pos]> f) pos ch ce HJ).
    rewrite list_lookup_insert_eq in Hstep by done.
    specialize (Hstep eq_refl Hpick').
    by rewrite list_insert_insert_eq, insert_insert_insert in Hstep.
  - lia.
  - done.
  - by rewrite list_insert_id.
  - exists p, (<[p:=e0]> h'), (<[dkey e0:=p]> f').
    split_and!; [|done| | |lia|].
    + intros A k. unfold bind at 1, heap_len. simpl.
      rewrite (bind_Ret _ _ _ _ _ Hrun).
      rewrite (bind_Ret _ _ _ _ _ (heap_set_lt σ h' f' c p e0 ltac:(lia))).
      unfold bind at 1, finder_set, set_finder. by simpl.
    + apply list_lookup_insert_eq. lia.
    + apply lookup_insert_eq.
    + rewrite length_insert. lia.
Qed.

Lemma sink_unfold top :
  _sink (K:=K) top =
  let! entry0 := heap_get top in
  let! n := heap_len in
  let! pos := sink_loop n top (2 * top + 1) in
  let! _ := heap_set pos entry0 in
  let! _ := finder_set (dkey entry0) pos in
  _swim pos top.
Proof. reflexivity. Qed.

Lemma sink_rule (J1 J2 : list entry → gmap K nat → nat → Prop) σ c h f top e0 :
  (∀ hv fv pos ch ce,
      J1 hv fv pos → hv !! pos = Some e0 →
      picked σ hv (2 * pos + 1) ch ce →
      J1 (<[ch:=e0]> (<[pos:=ce]> hv))
         (<[dkey e0:=ch]> (<[dkey ce:=pos]> fv)) ch) →
  (∀ hv fv p,
      J1 hv fv p → hv !! p = Some e0 → length hv ≤ 2 * p + 1 →
      J2 hv fv p) →
  (∀ hv fv pos pe,
      J2 hv fv pos → top < pos →
      hv !! pos = Some e0 → hv !! ((pos - 1) / 2) = Some pe →
      entry_lt σ e0 pe = true →
      J2 (<[(pos - 1) / 2:=e0]> (<[pos:=pe]> hv))
         (<[dkey e0:=(pos - 1) / 2]> (<[dkey pe:=pos]> fv))
         ((pos - 1) / 2)) →
  h !! top = Some e0 →
  J1 h (<[dkey e0:=top]> f) top →
  ∃ p h' f',
    _sink top (σ, PQDict h f c) = (Ret tt, (σ, PQDict h' f' c))
    ∧ J2 h' f' p ∧ h' !! p = Some e0 ∧ f' !! dkey e0 = Some p
    ∧ (top < p → ∃ pe, h' !! ((p - 1) / 2) = Some pe
                       ∧ entry_lt σ e0 pe = false).
Proof.
  intros Hdown Hleaf Hup He0 HJ.
  rewrite sink_unfold.
  rewrite (bind_Ret _ _ _ _ _ (heap_get_Some σ h f c _ _ He0)).
  destruct (sink_down_rule J1 σ c h f top e0 Hdown He0 HJ)
    as (p & h1 & f1 & Hrun & HJ1 & Hp & Hfp & Htop & Hlf).
  rewrite (Hrun _ (λ pos, _swim pos top)).
  destruct (swim_rule J2 σ c top h1 f1 p e0 Hup Hp)
    as (p' & h' & f' & Hrun' & HJ2 & Hp' & Hfp' & _ & Hstop).
  { rewrite insert_id by done. by apply Hleaf. }
  exists p', h', f'. done.
Qed.

(** ** Exchanging two positions *)

Lemma exchange_lookup h p x e0 y i :
  h !! p = Some e0 → h !! x = Some y →
  <[x:=e0]> (<[p:=y]> h) !! i =
  if decide (i = x) then Some e0
  else if decide (i = p) then Some y else h !! i.
Proof.
  intros Hp Hx.
  pose proof (lookup_lt_Some _ _ _ Hp). pose proof (lookup_lt_Some _ _ _ Hx).
  destruct (decide (i = x)) as [->|].
  { rewrite list_lookup_insert_eq; [done|]. by rewrite length_insert. }
  rewrite list_lookup_insert_ne by done.
  destruct (decide (i = p)) as [->|].
  { by rewrite list_lookup_insert_eq. }
  by rewrite list_lookup_insert_ne.
Qed.

Lemma exchange_perm h p x e0 y :
  h !! p = Some e0 → h !! x = Some y →
  <[x:=e0]> (<[p:=y]> h) ≡ₚ h.
Proof.
  intros Hp Hx. apply Permutation_inj. split.
  { by rewrite !length_insert. }
  exists (λ i, if decide (i = x) then p else if decide (i = p) then x else i).
  split.
  - intros i j Hij. repeat case_decide; congruence.
  - intros i. rewrite (exchange_lookup h p x e0 y i Hp Hx).
    repeat case_decide; subst; done.
Qed.

Lemma index_fwd_inj h f p1 p2 e1 e2 :
  index_fwd h f → h !! p1 = Some e1 → h !! p2 = Some e2 →
  dkey e1 = dkey e2 → p1 = p2.
Proof.
  intros Hfwd H1 H2 Hk.
  apply Hfwd in H1, H2. rewrite Hk in H1. congruence.
Qed.

Lemma exchange_index_fwd h f p x e0 y :
  index_fwd h f → h !! p = Some e0 → h !! x = Some y →
  index_fwd (<[x:=e0]> (<[p:=y]> h)) (<[dkey e0:=x]> (<[dkey y:=p]> f)).
Proof.
  intros Hok Hp Hx i e. rewrite (exchange_lookup h p x e0 y i Hp Hx).
  destruct (decide (i = x)) as [->|Hix].
  { intros [= <-]. apply lookup_insert_eq. }
  destruct (decide (i = p)) as [->|Hip].
  { intros [= <-].
    rewrite lookup_insert_ne; [apply lookup_insert_eq|].
    intros Hk. apply Hix. by eapply (index_fwd_inj h f p x e0 y). }
  intros Hi.
  rewrite !lookup_insert_ne; [by apply Hok| |].
  + intros Hk. apply Hix. symmetry. by eapply (index_fwd_inj h f x i y e).
  + intros Hk. apply Hip. symmetry. by eapply (index_fwd_inj h f p i e0 e).
Qed.

Lemma exchange_index_frame h hv f fv p x e0 y :
  hv ≡ₚ h → index_frame h f fv →
  hv !! p = Some e0 → hv !! x = Some y →
  index_frame h f (<[dkey e0:=x]> (<[dkey y:=p]> fv)).
Proof.
  intros Hperm Hfr Hp Hx k Hk.
  rewrite !lookup_insert_ne; [by apply Hfr| |].
  - intros <-. apply Hk. rewrite <- Hperm.
    apply list_elem_of_fmap. exists y. split; [done|].
    by eapply list_elem_of_lookup_2.
  - intros <-. apply Hk. rewrite <- Hperm.
    apply list_elem_of_fmap. exists e0. split; [done|].
    by eapply list_elem_of_lookup_2.
Qed.

Lemma index_ok_frame h f h' f' :
  index_ok h f → h' ≡ₚ h → index_fwd h' f' → index_frame h f f' →
  index_ok h' f'.
Proof.
  intros [Hfwd Hbwd] Hperm Hfwd' Hfr. split; [done|].
  intros k p Hk.
  destruct (decide (k ∈ dkey <$> h')) as [Hin|Hin].
  - apply list_elem_of_fmap in Hin as (e & -> & He).
    apply list_elem_of_lookup in He as [p' Hp'].
    pose proof (Hfwd' _ _ Hp') as Hk'. exists e. split; [|done]. congruence.
  - rewrite Hperm in Hin. rewrite (Hfr k Hin) in Hk.
    destruct (Hbwd k p Hk) as (e & He & <-).
    exfalso. apply Hin. apply list_elem_of_fmap. exists e. split; [done|].
    by eapply list_elem_of_lookup_2.
Qed.

(** ** [_swim] and [_sink] keep the entries and the index *)

Lemma swim_basic σ c h f pos top :
  pos < length h → index_fwd h f →
  ∃ h' f',
    _swim pos top (σ, PQDict h f c) = (Ret tt, (σ, PQDict h' f' c))
    ∧ h' ≡ₚ h ∧ index_fwd h' f' ∧ index_frame h f f'.
Proof.
  intros Hpos Hok.
  destruct (lookup_lt_is_Some_2 h pos Hpos) as [e0 He0].
  destruct (swim_rule
    (λ hv fv _, hv ≡ₚ h ∧ index_fwd hv fv ∧ index_frame h f fv)
    σ c top h f pos e0) as (p & h' & f' & Hrun & (Hp & Hi & Hfr) & _).
  - intros hv fv pos' pe (Hperm & Hi & Hfr) _ Hpos' Hpe _. split_and!.
    + by rewrite (exchange_perm hv pos' _ e0 pe Hpos' Hpe).
    + by apply exchange_index_fwd.
    + by eapply exchange_index_frame.
  - done.
  - rewrite insert_id by by apply Hok. done.
  - by exists h', f'.
Qed.

Lemma sink_basic σ c h f top :
  top < length h → index_fwd h f →
  ∃ h' f',
    _sink top (σ, PQDict h f c) = (Ret tt, (σ, PQDict h' f' c))
    ∧ h' ≡ₚ h ∧ index_fwd h' f' ∧ index_frame h f f'.
Proof.
  intros Hpos Hok.
  destruct (lookup_lt_is_Some_2 h top Hpos) as [e0 He0].
  pose (J := λ (hv : list entry) (fv : gmap K nat) (_ : nat),
               hv ≡ₚ h ∧ index_fwd hv fv ∧ index_frame h f fv).
  destruct (sink_rule J J σ c h f top e0)
    as (p & h' & f' & Hrun & (Hp & Hi & Hfr) & _).
  - intros hv fv pos ch ce (Hperm & Hi & Hfr) Hpos' Hpick.
    destruct (picked_range _ _ _ _ _ Hpick) as [Hce _]. split_and!.
    + by rewrite (exchange_perm hv pos _ e0 ce Hpos' Hce).
    + by apply exchange_index_fwd.
    + by eapply exchange_index_frame.
  - done.
  - intros hv fv pos' pe (Hperm & Hi & Hfr) _ Hpos' Hpe _. split_and!.
    + by rewrite (exchange_perm hv pos' _ e0 pe Hpos' Hpe).
    + by apply exchange_index_fwd.
    + by eapply exchange_index_frame.
  - done.
  - rewrite insert_id by by apply Hok. done.
  - by exists h', f'.
Qed.

(** ** The repair after a change at one position *)

Lemma reposition_cases σ h f c pos :
  pos < length h →
  let w := (σ, PQDict h f c) in
  reposition pos w = _swim pos 0 w
  ∨ reposition pos w = _sink pos w
  ∨ reposition pos w = (Ret tt, w).
Proof.
  intros Hpos w. unfold reposition.
  destruct (lookup_lt_is_Some_2 h pos Hpos) as [a Ha].
  assert (∃ up, ∀ A (k : bool → M A),
    (let! up :=
       (if decide (0 < Z.shiftr (Z.of_nat pos - 1) 1)%Z then
          let! a := heap_get pos in
          let! b := heap_get (Z.to_nat (Z.shiftr (Z.of_nat pos - 1) 1)) in
          lt_ a b
        else ret false) in k up) w = k up w) as [up Hup].
  { destruct (decide (0 < Z.shiftr (Z.of_nat pos - 1) 1)%Z) as [Hpp|Hpp].
    - rewrite Z.shiftr_div_pow2 in Hpp |- * by lia.
      change (2 ^ 1)%Z with 2%Z in *.
      destruct (lookup_lt_is_Some_2 h (Z.to_nat ((Z.of_nat pos - 1) / 2)))
        as [b Hb].
      { assert ((Z.of_nat pos - 1) / 2 < Z.of_nat pos)%Z; [|lia].
        apply Z.div_lt_upper_bound; lia. }
      exists (entry_lt σ a b). intros A k. unfold w.
      unfold bind, heap_get, lt_. simpl. rewrite Ha. simpl. by rewrite Hb.
    - exists false. done. }
  rewrite Hup. destruct up; [by left|]. right.
  match goal with |- ?l = _ ∨ _ => remember l as r eqn:Hr end.
  unfold bind at 1, heap_len in Hr. simpl in Hr.
  destruct (decide (2 * pos + 1 < length h)) as [Hc|Hc]; [|by right].
  destruct (pick_child_run σ h f c _ Hc) as (ch & ce & Hrun & Hpick).
  destruct (picked_range _ _ _ _ _ Hpick) as [Hce _].
  unfold w in Hr.
  rewrite (bind_Ret _ _ _ _ _ Hrun) in Hr.
  rewrite (bind_Ret _ _ _ _ _ (heap_get_Some σ h f c _ _ Hce)) in Hr.
  rewrite (bind_Ret _ _ _ _ _ (heap_get_Some σ h f c _ _ Ha)) in Hr.
  unfold bind at 1, lt_ in Hr. simpl in Hr.
  destruct (entry_lt σ ce a); [by left|by right].
Qed.

Lemma reposition_basic σ c h f pos :
  pos < length h → index_fwd h f →
  ∃ h' f',
    reposition pos (σ, PQDict h f c) = (Ret tt, (σ, PQDict h' f' c))
    ∧ h' ≡ₚ h ∧ index_fwd h' f' ∧ index_frame h f f'.
Proof.
  intros Hpos Hok.
  destruct (reposition_cases σ h f c pos Hpos) as [-> | [-> | ->]].
  - by apply swim_basic.
  - by apply sink_basic.
  - by exists h, f.
Qed.

(** ** Removing an entry: the last entry fills the hole *)

Lemma index_fwd_NoDup h f : index_fwd h f → NoDup (dkey <$> h).
Proof.
  intros Hfwd. apply NoDup_alt. intros i j k.
  rewrite !list_lookup_fmap.
  destruct (h !! i) as [a|] eqn:Ha; [|done].
  destruct (h !! j) as [b|] eqn:Hb; [|done].
  simpl. intros [= <-] [= Hk].
  by eapply (index_fwd_inj h f i j a b).
Qed.

Lemma index_fwd_init init l f : index_fwd (init ++ [l]) f → index_fwd init f.
Proof.
  intros Hfwd p e Hp. apply Hfwd. by apply lookup_app_l_Some.
Qed.

Lemma fill_hole_perm init (l e : entry (K:=K)) pos :
  init !! pos = Some e → init ++ [l] ≡ₚ e :: <[pos:=l]> init.
Proof.
  intros Hp.
  rewrite insert_take_drop by by eapply lookup_lt_Some.
  rewrite <- (take_drop_middle init pos e Hp) at 1.
  rewrite <- app_assoc. simpl.
  rewrite <- !Permutation_middle.
  by rewrite app_nil_r.
Qed.

Lemma fill_hole_fwd init l e f pos :
  index_fwd (init ++ [l]) f → init !! pos = Some e →
  index_fwd (<[pos:=l]> init) (<[dkey l:=pos]> f).
Proof.
  intros Hfwd Hp i a Hi.
  pose proof (lookup_lt_Some _ _ _ Hp) as Hlt.
  assert ((init ++ [l]) !! length init = Some l) as Hl.
  { rewrite lookup_app_r by lia. by rewrite Nat.sub_diag. }
  destruct (decide (i = pos)) as [->|Hne].
  - rewrite list_lookup_insert_eq in Hi by done. injection Hi as <-.
    apply lookup_insert_eq.
  - rewrite list_lookup_insert_ne in Hi by done.
    rewrite lookup_insert_ne; [apply Hfwd; by apply lookup_app_l_Some|].
    intros Hk. pose proof (lookup_lt_Some _ _ _ Hi).
    assert (length init = i); [|lia].
    eapply (index_fwd_inj _ f _ _ l a Hfwd); [done| |done].
    by apply lookup_app_l_Some.
Qed.

Lemma index_fwd_delete h f k :
  index_fwd h f → k ∉ dkey <$> h → index_fwd h (delete k f).
Proof.
  intros Hfwd Hk p e Hp. rewrite lookup_delete_ne; [by apply Hfwd|].
  intros ->. apply Hk. apply list_elem_of_fmap. exists e. split; [done|].
  by eapply list_elem_of_lookup_2.
Qed.

Lemma index_ok_removed h f e h1 f1 h' f' :
  index_ok h f → h ≡ₚ e :: h1 →
  (∀ k, k ∉ dkey <$> h1 → k ≠ dkey e → f1 !! k = f !! k) →
  h' ≡ₚ h1 → index_fwd h' f' → index_frame h1 f1 f' →
  index_ok h' (delete (dkey e) f').
Proof.
  intros [Hfwd Hbwd] Hperm Hf1 Hperm' Hfwd' Hfr.
  pose proof (index_fwd_NoDup h f Hfwd) as Hnd.
  rewrite Hperm, fmap_cons in Hnd. apply NoDup_cons in Hnd as [Hnotin _].
  split.
  - apply index_fwd_delete; [done|]. by rewrite Hperm'.
  - intros k p Hk. apply lookup_delete_Some in Hk as [Hne Hk].
    destruct (decide (k ∈ dkey <$> h')) as [Hin|Hin].
    + apply list_elem_of_fmap in Hin as (a & -> & Ha).
      apply list_elem_of_lookup in Ha as [p' Hp'].
      pose proof (Hfwd' _ _ Hp') as Hk'. exists a. split; [|done]. congruence.
    + rewrite Hperm' in Hin. rewrite (Hfr k Hin), (Hf1 k Hin) in Hk by done.
      destruct (Hbwd k p Hk) as (a & Ha & <-).
      apply list_elem_of_lookup_2 in Ha. rewrite Hperm in Ha.
      apply elem_of_cons in Ha as [->|Ha]; [done|].
      exfalso. apply Hin. apply list_elem_of_fmap. by exists a.
Qed.

Lemma heap_pop_last_snoc σ init l f c :
  heap_pop_last (σ, PQDict (init ++ [l]) f c) = (Ret l, (σ, PQDict init f c)).
Proof.
  unfold heap_pop_last. simpl. rewrite last_snoc.
  by rewrite removelast_last.
Qed.

Lemma heap_pop_last_nil σ f c :
  heap_pop_last (σ, PQDict [] f c) = (Raise IndexError, (σ, PQDict [] f c)).
Proof. reflexivity. Qed.

Lemma snoc_inv (h : list (entry (K:=K))) :
  h = [] ∨ ∃ init l, h = init ++ [l].
Proof.
  destruct (last h) as [l|] eqn:Hl.
  - right. apply last_Some in Hl as [init ->]. by exists init, l.
  - left. by apply last_None.
Qed.

(** ** The public methods on a state whose index is right *)

Lemma try_Ret {S A B} (m : Eff S A) caught (handler : Eff S B) k (s s' : S) a :
  m s = (Ret a, s') → try_except_else m caught handler k s = k a s'.
Proof. intros Hm. unfold try_except_else. by rewrite Hm. Qed.

Lemma try_caught {S A B} (m : Eff S A) caught (handler : Eff S B) k (s s' : S) :
  m s = (Raise caught, s') → try_except_else m caught handler k s = handler s'.
Proof.
  intros Hm. unfold try_except_else. rewrite Hm. by rewrite decide_True.
Qed.

Lemma index_ok_snoc h f e :
  index_ok h f → f !! dkey e = None →
  index_ok (h ++ [e]) (<[dkey e:=length h]> f).
Proof.
  intros [Hfwd Hbwd] Hk. split.
  - intros p a Hp. apply lookup_app_Some in Hp as [Hp|[Hlen Hp]].
    + rewrite lookup_insert_ne; [by apply Hfwd|].
      intros Heq. apply Hfwd in Hp. congruence.
    + apply list_lookup_singleton_Some in Hp as [Hp <-].
      replace p with (length h) by lia. apply lookup_insert_eq.
  - intros k p Hp. destruct (decide (k = dkey e)) as [->|Hne].
    + rewrite lookup_insert_eq in Hp. injection Hp as <-.
      exists e. split; [|done].
      rewrite lookup_app_r by lia. by rewrite Nat.sub_diag.
    + rewrite lookup_insert_ne in Hp by done.
      destruct (Hbwd k p Hp) as (a & Ha & <-).
      exists a. split; [|done]. by apply lookup_app_l_Some.
Qed.

Lemma setitem_new σ h f c k v :
  index_ok h f → f !! k = None →
  ∃ h' f',
    __setitem__ k v (σ, PQDict h f c)
    = (Ret tt, (σ ++ [v], PQDict h' f' c))
    ∧ h' ≡ₚ h ++ [Entry (length σ) k c] ∧ index_ok h' f'.
Proof.
  intros Hok Hk. unfold __setitem__.
  rewrite (try_caught _ _ _ _ _ (σ, PQDict h f c)).
  2:{ unfold finder_get. simpl. by rewrite Hk. }
  unfold bind at 1, heap_len. simpl.
  unfold bind at 1, new_entry. simpl.
  unfold bind at 1, heap_append, set_heap. simpl.
  unfold bind at 1, finder_set, set_finder. simpl.
  set (e := Entry (length σ) k c).
  pose proof (index_ok_snoc h f e Hok Hk) as Hok1.
  destruct (swim_basic (σ ++ [v]) c (h ++ [e]) (<[k:=length h]> f)
              (length h) 0) as (h' & f' & Hrun & Hperm & Hfwd & Hfr).
  { rewrite length_app. simpl. lia. }
  { apply Hok1. }
  exists h', f'. split_and!; [done..|].
  by eapply index_ok_frame.
Qed.

Lemma setitem_update σ h f c k v pos :
  index_ok h f → f !! k = Some pos →
  ∃ e h' f',
    h !! pos = Some e ∧ dkey e = k
    ∧ __setitem__ k v (σ, PQDict h f c)
      = (Ret tt, (<[oid e:=v]> σ, PQDict h' f' c))
    ∧ h' ≡ₚ h ∧ index_ok h' f'.
Proof.
  intros Hok Hk. destruct (proj2 Hok k pos Hk) as (e & He & Hke).
  exists e. unfold __setitem__.
  rewrite (try_Ret _ _ _ _ (σ, PQDict h f c) (σ, PQDict h f c) pos).
  2:{ unfold finder_get. simpl. by rewrite Hk. }
  rewrite (bind_Ret _ _ _ _ _ (heap_get_Some σ h f c _ _ He)).
  unfold bind at 1, set_pkey. simpl.
  destruct (reposition_basic (<[oid e:=v]> σ) c h f pos)
    as (h' & f' & Hrun & Hperm & Hfwd & Hfr).
  { by eapply lookup_lt_Some. }
  { apply Hok. }
  exists h', f'. split_and!; [done..|].
  by eapply index_ok_frame.
Qed.

(** The block shared by [__delitem__] and [pop], after [finder.pop(dkey)]
    and [heap.pop(-1)]. *)
Lemma fill_hole_run σ init l f c pos e :
  index_ok (init ++ [l]) f → NoDup (oid <$> init ++ [l]) →
  (init ++ [l]) !! pos = Some e →
  ∃ h' f',
    (if negb (is_ e l) then
       let! _ := heap_set pos l in
       let! _ := finder_set (dkey l) pos in
       reposition pos
     else ret tt) (σ, PQDict init (delete (dkey e) f) c)
    = (Ret tt, (σ, PQDict h' f' c))
    ∧ init ++ [l] ≡ₚ e :: h' ∧ index_ok h' f'.
Proof.
  intros Hok Hnd Hpos.
  assert ((init ++ [l]) !! length init = Some l) as Hl.
  { rewrite lookup_app_r by lia. by rewrite Nat.sub_diag. }
  assert (is_ e l = bool_decide (pos = length init)) as ->.
  { unfold is_. apply bool_decide_ext. split.
    - intros Ho. apply (NoDup_lookup _ _ _ (oid e) Hnd);
        rewrite list_lookup_fmap; [by rewrite Hpos|by rewrite Hl, Ho].
    - intros ->. congruence. }
  destruct (decide (pos = length init)) as [->|Hne].
  - rewrite bool_decide_true by done. simpl.
    assert (e = l) as -> by congruence.
    exists init, (delete (dkey l) f). split_and!; [done| |].
    + by rewrite <- Permutation_cons_append.
    + eapply (index_ok_removed _ f l init f init f); try done.
      * by rewrite <- Permutation_cons_append.
      * eapply index_fwd_init, Hok.
  - rewrite bool_decide_false by done. simpl.
    assert (pos < length init) as Hlt.
    { apply lookup_lt_Some in Hpos. rewrite length_app in Hpos.
      simpl in Hpos. lia. }
    rewrite lookup_app_l in Hpos by done.
    rewrite (bind_Ret _ _ _ _ _ (heap_set_lt σ init _ c pos l Hlt)).
    unfold bind at 1, finder_set, set_finder. simpl.
    pose proof (fill_hole_perm init l e pos Hpos) as Hperm.
    pose proof (fill_hole_fwd init l e f pos (proj1 Hok) Hpos) as Hfwd1.
    pose proof (index_fwd_NoDup _ _ (proj1 Hok)) as Hndk.
    rewrite Hperm, fmap_cons in Hndk. apply NoDup_cons in Hndk as [Hnotin _].
    assert (dkey l ∈ dkey <$> <[pos:=l]> init) as Hlin.
    { apply list_elem_of_fmap. exists l. split; [done|].
      apply (list_elem_of_lookup_2 _ pos). by apply list_lookup_insert_eq. }
    assert (dkey e ≠ dkey l) as Hel by (intros Heq; by rewrite Heq in Hnotin).
    assert (index_fwd (<[pos:=l]> init)
              (<[dkey l:=pos]> (delete (dkey e) f))) as Hfwd2.
    { rewrite <- delete_insert_ne by done. by apply index_fwd_delete. }
    destruct (reposition_basic σ c (<[pos:=l]> init)
                (<[dkey l:=pos]> (delete (dkey e) f)) pos)
      as (h' & f' & Hrun & Hperm' & Hfwd & Hfr).
    { by rewrite length_insert. }
    { done. }
    exists h', f'. split_and!; [done| |].
    + by rewrite Hperm'.
    + assert (f' !! dkey e = None) as Hnone.
      { rewrite Hfr by done. rewrite lookup_insert_ne by done.
        apply lookup_delete_eq. }
      rewrite <- (delete_id f' (dkey e) Hnone).
      eapply (index_ok_removed _ f e (<[pos:=l]> init)
                (<[dkey l:=pos]> (delete (dkey e) f)) h' f' Hok Hperm);
        try done.
      intros k Hk Hke. rewrite lookup_insert_ne.
      * by apply lookup_delete_ne.
      * intros <-. done.
Qed.

Lemma finder_pop_Some σ h f c k pos :
  f !! k = Some pos →
  finder_pop k (σ, PQDict h f c) = (Ret pos, (σ, PQDict h (delete k f) c)).
Proof. intros Hk. unfold finder_pop. simpl. by rewrite Hk. Qed.

Lemma finder_pop_None σ h f c k :
  f !! k = None →
  finder_pop k (σ, PQDict h f c) = (Raise KeyError, (σ, PQDict h f c)).
Proof. intros Hk. unfold finder_pop. simpl. by rewrite Hk. Qed.

Lemma delitem_absent σ h f c k :
  f !! k = None →
  __delitem__ k (σ, PQDict h f c) = (Raise KeyError, (σ, PQDict h f c)).
Proof.
  intros Hk. unfold __delitem__.
  by rewrite (try_caught _ _ _ _ _ _ (finder_pop_None σ h f c k Hk)).
Qed.

Lemma delitem_present σ h f c k pos :
  index_ok h f → NoDup (oid <$> h) → f !! k = Some pos →
  ∃ e h' f',
    h !! pos = Some e ∧ dkey e = k
    ∧ __delitem__ k (σ, PQDict h f c) = (Ret tt, (σ, PQDict h' f' c))
    ∧ h ≡ₚ e :: h' ∧ index_ok h' f'.
Proof.
  intros Hok Hnd Hk. destruct (proj2 Hok k pos Hk) as (e & He & Hke).
  exists e. unfold __delitem__.
  rewrite (try_Ret _ _ _ _ _ _ _ (finder_pop_Some σ h f c k pos Hk)).
  rewrite (bind_Ret _ _ _ _ _ (heap_get_Some σ h _ c _ _ He)).
  destruct (snoc_inv h) as [->|(init & l & ->)]; [done|].
  rewrite (bind_Ret _ _ _ _ _ (heap_pop_last_snoc σ init l _ c)).
  subst k.
  destruct (fill_hole_run σ init l f c pos e Hok Hnd He)
    as (h' & f' & Hrun & Hperm & Hok').
  exists h', f'. done.
Qed.

Lemma pop_absent_default σ h f c k d :
  f !! k = None →
  pop k (Some d) (σ, PQDict h f c) = (Ret d, (σ, PQDict h f c)).
Proof.
  intros Hk. unfold pop.
  by rewrite (try_caught _ _ _ _ _ _ (finder_pop_None σ h f c k Hk)).
Qed.

Lemma pop_absent_marker σ h f c k :
  f !! k = None →
  pop k None (σ, PQDict h f c) = (Raise KeyError, (σ, PQDict h f c)).
Proof.
  intros Hk. unfold pop.
  by rewrite (try_caught _ _ _ _ _ _ (finder_pop_None σ h f c k Hk)).
Qed.

Lemma pop_present σ h f c k default pos :
  index_ok h f → NoDup (oid <$> h) → f !! k = Some pos →
  ∃ e h' f',
    h !! pos = Some e ∧ dkey e = k
    ∧ pop k default (σ, PQDict h f c)
      = (Ret (pkey_of σ e), (σ, PQDict h' f' c))
    ∧ h ≡ₚ e :: h' ∧ index_ok h' f'.
Proof.
  intros Hok Hnd Hk. destruct (proj2 Hok k pos Hk) as (e & He & Hke).
  exists e. unfold pop.
  rewrite (try_Ret _ _ _ _ _ _ _ (finder_pop_Some σ h f c k pos Hk)).
  rewrite (bind_Ret _ _ _ _ _ (heap_get_Some σ h _ c _ _ He)).
  destruct (snoc_inv h) as [->|(init & l & ->)]; [done|].
  rewrite (bind_Ret _ _ _ _ _ (heap_pop_last_snoc σ init l _ c)).
  subst k.
  destruct (fill_hole_run σ init l f c pos e Hok Hnd He)
    as (h' & f' & Hrun & Hperm & Hok').
  rewrite (bind_Ret _ _ _ _ _ Hrun).
  exists h', f'. done.
Qed.

Lemma popitem_empty σ f c :
  popitem (σ, PQDict [] f c) = (Raise KeyError, (σ, PQDict [] f c)).
Proof. reflexivity. Qed.

(** ** Heap order *)

Lemma in_subtree_ge top p : in_subtree top p → top ≤ p.
Proof.
  induction 1 as [|p Hp _ IH]; [done|].
  pose proof (parent_lt p Hp). lia.
Qed.

Lemma in_subtree_parent top p :
  in_subtree top p → p ≠ top → 0 < p ∧ in_subtree top ((p - 1) / 2).
Proof. by destruct 1. Qed.

Lemma in_subtree_left top p : in_subtree top p → in_subtree top (2 * p + 1).
Proof.
  intros Hp. apply in_subtree_child; [lia|].
  by replace ((2 * p + 1 - 1) / 2) with p by lia.
Qed.

Lemma in_subtree_right top p : in_subtree top p → in_subtree top (2 * p + 2).
Proof.
  intros Hp. apply in_subtree_child; [lia|].
  by replace ((2 * p + 2 - 1) / 2) with p by lia.
Qed.

Lemma in_subtree_0 p : in_subtree 0 p.
Proof.
  induction (lt_wf p) as [p _ IH].
  destruct (decide (p = 0)) as [->|Hp]; [constructor|].
  apply in_subtree_child; [lia|]. apply IH. apply parent_lt. lia.
Qed.

Lemma child_of p pos :
  0 < p → (p - 1) / 2 = pos ↔ p = 2 * pos + 1 ∨ p = 2 * pos + 2.
Proof. lia. Qed.

Lemma entry_lt_true σ (a b : entry (K:=K)) :
  entry_lt σ a b = true ↔
  (rank (cls a) (pkey_of σ a) < rank (cls a) (pkey_of σ b))%Z.
Proof.
  unfold entry_lt, rank. destruct (cls a).
  - apply Z.ltb_lt.
  - rewrite Z.gtb_ltb, Z.ltb_lt. lia.
Qed.

Lemma entry_lt_false σ (a b : entry (K:=K)) :
  entry_lt σ a b = false ↔
  (rank (cls a) (pkey_of σ b) ≤ rank (cls a) (pkey_of σ a))%Z.
Proof.
  rewrite <- not_true_iff_false, entry_lt_true. lia.
Qed.

Lemma uniform_lookup c h i e : uniform c h → h !! i = Some e → cls e = c.
Proof. intros Hu Hi. apply Hu. by eapply list_elem_of_lookup_2. Qed.

Lemma uniform_perm c h h' : h' ≡ₚ h → uniform c h → uniform c h'.
Proof. intros Hp Hu e He. apply Hu. by rewrite <- Hp. Qed.

Lemma lt_asym σ c (a b : entry (K:=K)) :
  cls a = c → cls b = c →
  entry_lt σ a b = true → entry_lt σ b a = false.
Proof.
  intros Ha Hb. rewrite entry_lt_true, entry_lt_false, Ha, Hb. lia.
Qed.

Lemma lt_false_trans σ c (a b d : entry (K:=K)) :
  cls a = c → cls b = c →
  entry_lt σ a b = false → entry_lt σ b d = false → entry_lt σ a d = false.
Proof.
  intros Ha Hb. rewrite !entry_lt_false, Ha, Hb. lia.
Qed.

Lemma lt_false_true σ c (a b d : entry (K:=K)) :
  cls a = c → cls d = c →
  entry_lt σ a b = false → entry_lt σ d b = true → entry_lt σ a d = false.
Proof.
  intros Ha Hd. rewrite !entry_lt_false, entry_lt_true, Ha, Hd. lia.
Qed.

Lemma swim_inv_step σ c top hv pos e0 pe :
  swim_inv σ c top hv pos → top < pos →
  hv !! pos = Some e0 → hv !! ((pos - 1) / 2) = Some pe →
  entry_lt σ e0 pe = true →
  swim_inv σ c top (<[(pos - 1) / 2:=e0]> (<[pos:=pe]> hv)) ((pos - 1) / 2).
Proof.
  intros (Hsub & Huni & Hedge & Hkids) Htop He0 Hpe Hlt.
  set (pp := (pos - 1) / 2) in *.
  assert (pp < pos) as Hpp by (apply parent_lt; lia).
  destruct (in_subtree_parent top pos Hsub ltac:(lia)) as [_ Hsubpp].
  pose proof (uniform_lookup c hv _ _ Huni He0) as Hce0.
  pose proof (uniform_lookup c hv _ _ Huni Hpe) as Hcpe.
  split_and!.
  - done.
  - eapply uniform_perm; [|done]. by apply exchange_perm.
  - intros p a b Hp Hptop Hppp.
    rewrite !(exchange_lookup hv pos pp e0 pe _ He0 Hpe).
    rewrite (decide_False (P := p = pp)) by done.
    destruct (in_subtree_parent top p Hp Hptop) as [Hp0 _].
    pose proof (parent_lt p Hp0) as Hplt.
    destruct (decide (p = pos)) as [->|Hnepos].
    { fold pp. rewrite decide_True by done. intros [= <-] [= <-].
      by eapply lt_asym. }
    intros Ha.
    pose proof (uniform_lookup c hv _ _ Huni Ha) as Hca.
    destruct (decide ((p - 1) / 2 = pp)) as [Heq|Hne1].
    { intros [= <-]. eapply (lt_false_true σ c a pe e0); [done..| |done].
      eapply (Hedge p); [done..|]. by rewrite Heq. }
    destruct (decide ((p - 1) / 2 = pos)) as [Heq|Hne2].
    { intros [= <-]. eapply (Hkids ltac:(lia) p); [|done..].
      by apply child_of. }
    intros Hb. by eapply (Hedge p).
  - intros Hpptop ch a b Hch.
    pose proof (in_subtree_ge top pp Hsubpp) as Hge.
    assert (0 < pp) as Hpp0 by lia.
    pose proof (parent_lt pp Hpp0) as Hgp.
    rewrite !(exchange_lookup hv pos pp e0 pe _ He0 Hpe).
    rewrite (decide_False (P := ch = pp)) by lia.
    rewrite (decide_False (P := (pp - 1) / 2 = pp)) by lia.
    rewrite (decide_False (P := (pp - 1) / 2 = pos)) by lia.
    assert (pos = 2 * pp + 1 ∨ pos = 2 * pp + 2) as Hposch.
    { apply child_of; [lia|done]. }
    assert (hv !! ((pp - 1) / 2) = Some b → entry_lt σ pe b = false) as Hpeb.
    { intros Hb. eapply (Hedge pp); [done|done|lia|done..]. }
    destruct (decide (ch = pos)) as [->|Hnepos].
    { intros [= <-] Hb. by apply Hpeb. }
    intros Ha Hb. specialize (Hpeb Hb).
    pose proof (uniform_lookup c hv _ _ Huni Ha) as Hca.
    eapply (lt_false_trans σ c a pe b); [done..| |done].
    eapply (Hedge ch); [|lia|done|done|].
    + destruct Hch as [->| ->];
        [by apply in_subtree_left|by apply in_subtree_right].
    + replace ((ch - 1) / 2) with pp by lia. done.
Qed.

Lemma sink_inv_step σ c top hv pos e0 ch ce :
  sink_inv σ c top hv pos → hv !! pos = Some e0 →
  picked σ hv (2 * pos + 1) ch ce →
  sink_inv σ c top (<[ch:=e0]> (<[pos:=ce]> hv)) ch.
Proof.
  intros (Hsub & Huni & Hedge & Hkids) He0 Hpick.
  destruct (picked_range _ _ _ _ _ Hpick) as [Hce Hch].
  pose proof (in_subtree_ge top pos Hsub) as Hge.
  pose proof (uniform_lookup c hv _ _ Huni He0) as Hce0.
  pose proof (uniform_lookup c hv _ _ Huni Hce) as Hcce.
  assert (in_subtree top ch) as Hsubch.
  { assert (ch = 2 * pos + 1 ∨ ch = 2 * pos + 2) as [->| ->] by lia;
      [by apply in_subtree_left|by apply in_subtree_right]. }
  split_and!.
  - done.
  - eapply uniform_perm; [|done]. by apply exchange_perm.
  - intros p a b Hp Hptop Hpch Hppch.
    rewrite !(exchange_lookup hv pos ch e0 ce _ He0 Hce).
    rewrite (decide_False (P := p = ch)) by done.
    rewrite (decide_False (P := (p - 1) / 2 = ch)) by done.
    destruct (in_subtree_parent top p Hp Hptop) as [Hp0 _].
    pose proof (parent_lt p Hp0) as Hplt.
    destruct (decide (p = pos)) as [->|Hnepos].
    { rewrite (decide_False (P := (pos - 1) / 2 = pos)) by lia.
      intros [= <-] Hb. eapply (Hkids Hptop ch); [lia|done..]. }
    intros Ha.
    destruct (decide ((p - 1) / 2 = pos)) as [Heq|Hne2]; [|by eapply Hedge].
    intros [= <-].
    assert (p = 2 * pos + 1 ∨ p = 2 * pos + 2) as Hpc by by apply child_of.
    destruct Hpick as [(-> & _ & Hright)|(-> & _ & l & Hl & Hlce)].
    + assert (p = 2 * pos + 1 + 1) as -> by lia.
      pose proof (uniform_lookup c hv _ _ Huni Ha) as Hca.
      eapply lt_asym; [done..|]. by apply Hright.
    + assert (p = 2 * pos + 1) as -> by lia. congruence.
  - intros _ gc a b Hgc.
    rewrite !(exchange_lookup hv pos ch e0 ce _ He0 Hce).
    rewrite (decide_False (P := gc = ch)) by lia.
    rewrite (decide_False (P := gc = pos)) by lia.
    rewrite (decide_False (P := (ch - 1) / 2 = ch)) by lia.
    rewrite (decide_True (P := (ch - 1) / 2 = pos)) by lia.
    intros Ha [= <-].
    eapply (Hedge gc); [|lia|lia|lia|done|].
    + destruct Hgc as [->| ->];
        [by apply in_subtree_left|by apply in_subtree_right].
    + replace ((gc - 1) / 2) with ch by lia. done.
Qed.

Lemma sink_inv_leaf σ c top hv pos :
  sink_inv σ c top hv pos → length hv ≤ 2 * pos + 1 →
  swim_inv σ c top hv pos.
Proof.
  intros (Hsub & Huni & Hedge & Hkids) Hleaf. split_and!; [done..| |done].
  intros p a b Hp Hptop Hppos Ha Hb.
  eapply (Hedge p); [done..| |done|done].
  destruct (in_subtree_parent top p Hp Hptop) as [Hp0 _].
  apply lookup_lt_Some in Ha. lia.
Qed.

Lemma swim_inv_done σ c top h p e0 :
  swim_inv σ c top h p → h !! p = Some e0 →
  (top < p → ∃ pe, h !! ((p - 1) / 2) = Some pe ∧ entry_lt σ e0 pe = false) →
  heap_ordered σ top h.
Proof.
  intros (Hsub & Huni & Hedge & Hkids) He0 Hstop q a b Hq Hqtop Ha Hb.
  destruct (decide (q = p)) as [->|Hne]; [|by eapply Hedge].
  pose proof (in_subtree_ge top p Hsub).
  destruct (Hstop ltac:(lia)) as (pe & Hpe & Hlt). congruence.
Qed.

Lemma kept_exchange top h f hv fv p x e0 y :
  kept top h f hv fv → in_subtree top p → in_subtree top x →
  hv !! p = Some e0 → hv !! x = Some y →
  kept top h f (<[x:=e0]> (<[p:=y]> hv)) (<[dkey e0:=x]> (<[dkey y:=p]> fv)).
Proof.
  intros (Hperm & Hfwd & Hfr & Hout) Hp Hx He0 Hy. split_and!.
  - by rewrite (exchange_perm hv p x e0 y He0 Hy).
  - by apply exchange_index_fwd.
  - by eapply exchange_index_frame.
  - intros i Hi. rewrite (exchange_lookup hv p x e0 y i He0 Hy).
    rewrite decide_False by (by intros ->).
    rewrite decide_False by (by intros ->).
    by apply Hout.
Qed.

Lemma kept_refl top h f : index_fwd h f → kept top h f h f.
Proof. intros Hfwd. by split_and!. Qed.

Lemma swim_full σ c top h f pos e0 :
  h !! pos = Some e0 → index_fwd h f → swim_inv σ c top h pos →
  ∃ h' f',
    _swim pos top (σ, PQDict h f c) = (Ret tt, (σ, PQDict h' f' c))
    ∧ kept top h f h' f' ∧ heap_ordered σ top h'.
Proof.
  intros He0 Hfwd Hinv.
  destruct (swim_rule
    (λ hv fv pos, kept top h f hv fv ∧ swim_inv σ c top hv pos)
    σ c top h f pos e0)
    as (p & h' & f' & Hrun & (Hkept & Hinv') & Hp & _ & _ & Hstop).
  - intros hv fv pos' pe [Hkept Hinv'] Htop Hpos' Hpe Hlt. split.
    + apply kept_exchange; [done|apply Hinv'| |done..].
      eapply in_subtree_parent; [apply Hinv'|lia].
    + by apply swim_inv_step.
  - done.
  - rewrite insert_id by by apply Hfwd. split; [by apply kept_refl|done].
  - exists h', f'. split_and!; [done..|]. by eapply swim_inv_done.
Qed.

Lemma sink_full σ c top h f :
  top < length h → index_fwd h f → uniform c h → below_ordered σ top h →
  ∃ h' f',
    _sink top (σ, PQDict h f c) = (Ret tt, (σ, PQDict h' f' c))
    ∧ kept top h f h' f' ∧ heap_ordered σ top h'.
Proof.
  intros Htop Hfwd Huni Hbelow.
  destruct (lookup_lt_is_Some_2 h top Htop) as [e0 He0].
  destruct (sink_rule
    (λ hv fv pos, kept top h f hv fv ∧ sink_inv σ c top hv pos)
    (λ hv fv pos, kept top h f hv fv ∧ swim_inv σ c top hv pos)
    σ c h f top e0)
    as (p & h' & f' & Hrun & (Hkept & Hinv') & Hp & _ & Hstop).
  - intros hv fv pos ch ce [Hkept Hinv] Hpos Hpick.
    destruct (picked_range _ _ _ _ _ Hpick) as [Hce Hch]. split.
    + apply kept_exchange; [done|apply Hinv| |done..].
      destruct Hinv as [Hsub _].
      assert (ch = 2 * pos + 1 ∨ ch = 2 * pos + 2) as [->| ->] by lia;
        [by apply in_subtree_left|by apply in_subtree_right].
    + by eapply sink_inv_step.
  - intros hv fv p [Hkept Hinv] _ Hleaf. split; [done|].
    by apply sink_inv_leaf.
  - intros hv fv pos' pe [Hkept Hinv'] Htop' Hpos' Hpe Hlt. split.
    + apply kept_exchange; [done|apply Hinv'| |done..].
      eapply in_subtree_parent; [apply Hinv'|lia].
    + by apply swim_inv_step.
  - done.
  - rewrite insert_id by by apply Hfwd. split; [by apply kept_refl|].
    split_and!; [constructor|done| |done].
    intros p a b Hp Hptop _ Hpp. by apply Hbelow.
  - exists h', f'. split_and!; [done..|]. by eapply swim_inv_done.
Qed.

(** ** The store grows, the entries stay *)

Lemma pkey_of_app σ v e : oid e < length σ → pkey_of (σ ++ [v]) e = pkey_of σ e.
Proof. intros He. unfold pkey_of. by rewrite lookup_app_l. Qed.

Lemma entry_lt_app σ v (a b : entry (K:=K)) :
  oid a < length σ → oid b < length σ →
  entry_lt (σ ++ [v]) a b = entry_lt σ a b.
Proof.
  intros Ha Hb. unfold entry_lt. by rewrite !pkey_of_app.
Qed.

Lemma pkey_of_new σ v (k : K) c :
  pkey_of (σ ++ [v]) (Entry (length σ) k c) = v.
Proof.
  unfold pkey_of. simpl. rewrite lookup_app_r by lia.
  by rewrite Nat.sub_diag.
Qed.

(** ** The root ranks highest (I4) *)

Lemma root_top σ c h e :
  heap_ordered σ 0 h → uniform c h → h !! 0 = Some e →
  ∀ p a, h !! p = Some a →
    (rank c (pkey_of σ e) ≤ rank c (pkey_of σ a))%Z.
Proof.
  intros Hord Huni He p. induction (lt_wf p) as [p _ IH]. intros a Ha.
  destruct (decide (p = 0)) as [->|Hp].
  { assert (a = e) as -> by congruence. lia. }
  pose proof (parent_lt p ltac:(lia)) as Hpp.
  destruct (lookup_lt_is_Some_2 h ((p - 1) / 2)) as [b Hb].
  { apply lookup_lt_Some in Ha. lia. }
  specialize (IH _ Hpp b Hb).
  pose proof (Hord p a b (in_subtree_0 p) Hp Ha Hb) as Hab.
  apply entry_lt_false in Hab.
  rewrite (uniform_lookup c h _ _ Huni Ha) in Hab. lia.
Qed.

(** ** [popitem] *)

Lemma popitem_nonempty σ h f c e :
  index_ok h f → h !! 0 = Some e →
  ∃ h' f',
    popitem (σ, PQDict h f c)
    = (Ret (dkey e, pkey_of σ e), (σ, PQDict h' f' c))
    ∧ h ≡ₚ e :: h' ∧ index_ok h' f'
    ∧ (uniform c h → heap_ordered σ 0 h → heap_ordered σ 0 h').
Proof.
  intros Hok He. unfold popitem.
  destruct (snoc_inv h) as [->|(init & l & ->)]; [done|].
  rewrite (try_Ret _ _ _ _ _ _ _ (heap_pop_last_snoc σ init l _ c)).
  unfold bind at 1, heap_len. simpl.
  destruct (decide (0 < length init)) as [Hlen|Hlen].
  - rewrite lookup_app_l in He by done.
    pose proof (fill_hole_perm init l e 0 He) as Hperm.
    pose proof (fill_hole_fwd init l e f 0 (proj1 Hok) He) as Hfwd1.
    destruct (sink_basic σ c (<[0:=l]> init) (<[dkey l:=0]> f) 0)
      as (h' & f' & Hsink & Hperm' & Hfwd & Hfr).
    { by rewrite length_insert. }
    { done. }
    assert ((let! entry0 := heap_get 0 in
             let! _ := heap_set 0 l in
             let! _ := finder_set (dkey l) 0 in
             let! _ := _sink 0 in
             ret entry0) (σ, PQDict init f c)
            = (Ret e, (σ, PQDict h' f' c))) as Hinner.
    { rewrite (bind_Ret _ _ _ _ _ (heap_get_Some σ init _ c _ _ He)).
      rewrite (bind_Ret _ _ _ _ _ (heap_set_lt σ init _ c 0 l Hlen)).
      unfold bind at 1, finder_set, set_finder. simpl.
      by rewrite (bind_Ret _ _ _ _ _ Hsink). }
    rewrite (bind_Ret _ _ _ _ _ Hinner).
    pose proof (index_fwd_NoDup _ _ (proj1 Hok)) as Hndk.
    rewrite Hperm, fmap_cons in Hndk. apply NoDup_cons in Hndk as [Hnotin _].
    assert (dkey l ∈ dkey <$> <[0:=l]> init) as Hlin.
    { apply list_elem_of_fmap. exists l. split; [done|].
      apply (list_elem_of_lookup_2 _ 0). by apply list_lookup_insert_eq. }
    assert (dkey e ≠ dkey l) as Hel by (intros Heq; by rewrite Heq in Hnotin).
    assert (f' !! dkey e = Some 0) as Hfe.
    { rewrite Hfr by done. rewrite lookup_insert_ne by done.
      apply Hok. by apply lookup_app_l_Some. }
    rewrite (bind_Ret _ _ _ _ _ (finder_pop_Some σ h' f' c _ _ Hfe)).
    exists h', (delete (dkey e) f'). split_and!; [done| | |].
    + by rewrite Hperm'.
    + eapply (index_ok_removed _ f e (<[0:=l]> init)
                (<[dkey l:=0]> f) h' f' Hok Hperm); try done.
      intros k Hk Hke. rewrite lookup_insert_ne; [done|]. by intros <-.
    + intros Huni Hord.
      destruct (sink_full σ c 0 (<[0:=l]> init) (<[dkey l:=0]> f))
        as (h2 & f2 & Hsink2 & _ & Hord2).
      { by rewrite length_insert. }
      { done. }
      { intros a Ha. apply Huni. rewrite Hperm. by right. }
      { intros p a b _ Hp Hpp Ha Hb.
        pose proof (parent_lt p ltac:(lia)).
        rewrite list_lookup_insert_ne in Ha, Hb by done.
        apply (Hord p a b); [apply in_subtree_0|done|..];
          by apply lookup_app_l_Some. }
      rewrite Hsink in Hsink2. by injection Hsink2 as <- <-.
  - destruct init; [|simpl in Hlen; lia]. simpl in *.
    injection He as ->.
    unfold bind at 1, ret.
    assert (f !! dkey e = Some 0) as Hfe by by apply Hok.
    rewrite (bind_Ret _ _ _ _ _ (finder_pop_Some σ [] f c _ _ Hfe)).
    exists [], (delete (dkey e) f). split_and!; [done..| |].
    + eapply (index_ok_removed [e] f e [] f [] f); try done.
    + intros _ _ p a b _ _ Ha. done.
Qed.

(** ** [__setitem__] of a new dkey keeps the heap order *)

Lemma setitem_new_ordered σ h f c k v :
  index_ok h f → f !! k = None →
  (∀ e, e ∈ h → oid e < length σ) → uniform c h → heap_ordered σ 0 h →
  ∃ h' f',
    __setitem__ k v (σ, PQDict h f c)
    = (Ret tt, (σ ++ [v], PQDict h' f' c))
    ∧ h' ≡ₚ h ++ [Entry (length σ) k c] ∧ index_ok h' f'
    ∧ heap_ordered (σ ++ [v]) 0 h'.
Proof.
  intros Hok Hk Hval Huni Hord.
  destruct (setitem_new σ h f c k v Hok Hk)
    as (h' & f' & Hrun & Hperm & Hok').
  exists h', f'. split_and!; [done..|].
  revert Hrun. unfold __setitem__.
  rewrite (try_caught _ _ _ _ _ (σ, PQDict h f c)).
  2:{ unfold finder_get. simpl. by rewrite Hk. }
  unfold bind at 1, heap_len. simpl.
  unfold bind at 1, new_entry. simpl.
  unfold bind at 1, heap_append, set_heap. simpl.
  unfold bind at 1, finder_set, set_finder. simpl.
  set (e := Entry (length σ) k c).
  pose proof (index_ok_snoc h f e Hok Hk) as Hok1.
  destruct (swim_full (σ ++ [v]) c 0 (h ++ [e]) (<[k:=length h]> f)
              (length h) e) as (h2 & f2 & Hrun2 & _ & Hord2).
  { rewrite lookup_app_r by lia. by rewrite Nat.sub_diag. }
  { apply Hok1. }
  { split_and!.
    - apply in_subtree_0.
    - intros a [Ha|Ha]%elem_of_app; [by apply Huni|].
      apply list_elem_of_singleton in Ha. by subst a.
    - intros p a b _ Hp Hpl Ha Hb.
      pose proof (parent_lt p ltac:(lia)).
      pose proof (lookup_lt_Some _ _ _ Ha) as Hlt.
      rewrite length_app in Hlt. simpl in Hlt.
      rewrite lookup_app_l in Ha, Hb by lia.
      rewrite entry_lt_app.
      + by apply (Hord p a b (in_subtree_0 p)).
      + apply Hval. by eapply list_elem_of_lookup_2.
      + apply Hval. by eapply list_elem_of_lookup_2.
    - intros _ ch a b Hch Ha. apply lookup_lt_Some in Ha.
      rewrite length_app in Ha. simpl in Ha. lia. }
  rewrite Hrun2. by intros [= <- <-].
Qed.

(** ** Inserting, then popping everything *)

Lemma contents_app_new σ h (k : K) v c :
  (∀ e, e ∈ h → oid e < length σ) →
  contents (σ ++ [v]) (h ++ [Entry (length σ) k c]) = contents σ h ++ [(k, v)].
Proof.
  intros Hval. unfold contents. rewrite fmap_app. simpl.
  rewrite pkey_of_new. f_equal.
  apply list_fmap_ext. intros i e He.
  rewrite pkey_of_app; [done|]. apply Hval. by eapply list_elem_of_lookup_2.
Qed.

Lemma index_ok_absent h f k :
  index_ok h f → f !! k = None ↔ k ∉ dkey <$> h.
Proof.
  intros [Hfwd Hbwd]. split.
  - intros Hk Hin. apply list_elem_of_fmap in Hin as (e & -> & He).
    apply list_elem_of_lookup in He as [p Hp]. apply Hfwd in Hp. congruence.
  - intros Hk. destruct (f !! k) as [p|] eqn:Hp; [|done].
    destruct (Hbwd k p Hp) as (e & He & <-). exfalso. apply Hk.
    apply list_elem_of_fmap. exists e. split; [done|].
    by eapply list_elem_of_lookup_2.
Qed.

Lemma setitems_fresh σ c items :
  ∀ h f,
    heap_state σ c h f → NoDup items.*1 →
    (∀ k, k ∈ items.*1 → f !! k = None) →
    ∃ σ' h' f',
      setitems items (σ, PQDict h f c) = (Ret tt, (σ', PQDict h' f' c))
      ∧ heap_state σ' c h' f'
      ∧ contents σ' h' ≡ₚ contents σ h ++ items.
Proof.
  revert σ. induction items as [|[k v] items IH];
    intros σ h f Hst Hnd Hfresh.
  { exists σ, h, f. split_and!; [done..|]. by rewrite app_nil_r. }
  destruct Hst as (Hok & Hval & Huni & Hord).
  simpl in Hnd. apply NoDup_cons in Hnd as [Hk Hnd].
  destruct (setitem_new_ordered σ h f c k v Hok) as
    (h1 & f1 & Hrun & Hperm & Hok1 & Hord1); [|done..|].
  { apply Hfresh. simpl. by left. }
  assert (∀ e, e ∈ h1 → oid e < length (σ ++ [v])) as Hval1.
  { intros e He. rewrite Hperm in He. rewrite length_app. simpl.
    apply elem_of_app in He as [He|He].
    - apply Hval in He. lia.
    - apply list_elem_of_singleton in He. subst e. simpl. lia. }
  assert (uniform c h1) as Huni1.
  { intros e He. rewrite Hperm in He.
    apply elem_of_app in He as [He|He]; [by apply Huni|].
    apply list_elem_of_singleton in He. by subst e. }
  destruct (IH (σ ++ [v]) h1 f1) as (σ' & h' & f' & Hrun' & Hst' & Hcont).
  { by unfold heap_state. }
  { done. }
  { intros k' Hk'. apply (index_ok_absent h1 f1 k' Hok1).
    rewrite Hperm, fmap_app. simpl. intros Hin.
    apply elem_of_app in Hin as [Hin|Hin].
    - apply (index_ok_absent h f k' Hok) in Hin; [done|].
      apply Hfresh. simpl. by right.
    - apply list_elem_of_singleton in Hin. by subst k'. }
  exists σ', h', f'. split_and!; [|done|].
  - simpl. by rewrite (bind_Ret _ _ _ _ _ Hrun).
  - rewrite Hcont. unfold contents at 1. rewrite Hperm.
    fold (contents (σ ++ [v]) (h ++ [Entry (length σ) k c])).
    rewrite contents_app_new by done. by rewrite <- app_assoc.
Qed.

Lemma popitems_all σ c n :
  ∀ h f,
    heap_state σ c h f → length h = n →
    ∃ out f',
      popitems n (σ, PQDict h f c) = (Ret out, (σ, PQDict [] f' c))
      ∧ out ≡ₚ contents σ h
      ∧ StronglySorted (by_rank c) out.*2.
Proof.
  induction n as [|n IH]; intros h f Hst Hlen.
  { destruct h; [|done]. exists [], f. split_and!; [done..|]. constructor. }
  destruct Hst as (Hok & Hval & Huni & Hord).
  destruct h as [|e h0] eqn:Hh; [done|]. rewrite <- Hh in *.
  assert (h !! 0 = Some e) as He by by rewrite Hh.
  destruct (popitem_nonempty σ h f c e Hok He)
    as (h' & f' & Hrun & Hperm & Hok' & Hord').
  specialize (Hord' Huni Hord).
  destruct (IH h' f') as (out & f'' & Hrun' & Hout & Hsorted).
  { unfold heap_state. split_and!; [done| | |done].
    - intros a Ha. apply Hval. rewrite Hperm. by right.
    - intros a Ha. apply Huni. rewrite Hperm. by right. }
  { apply Permutation_length in Hperm. simpl in Hperm. lia. }
  exists ((dkey e, pkey_of σ e) :: out), f''. split_and!.
  - simpl. rewrite (bind_Ret _ _ _ _ _ Hrun).
    by rewrite (bind_Ret _ _ _ _ _ Hrun').
  - unfold contents. rewrite Hperm. simpl. by rewrite Hout.
  - simpl. constructor; [done|].
    apply Forall_forall. intros v Hv.
    rewrite Hout in Hv. unfold contents in Hv.
    rewrite <- list_fmap_compose in Hv.
    apply list_elem_of_fmap in Hv as (a & -> & Ha). simpl.
    apply list_elem_of_lookup in Ha as [p Hp].
    assert (a ∈ h) as Hain.
    { rewrite Hperm. right. by eapply list_elem_of_lookup_2. }
    apply list_elem_of_lookup in Hain as [p' Hp'].
    by eapply (root_top σ c h e Hord Huni He).
Qed.

Lemma StronglySorted_weaken {A} (R R' : A → A → Prop) (l : list A) :
  (∀ x y, R x y → R' x y) → StronglySorted R l → StronglySorted R' l.
Proof.
  intros HR. induction 1 as [|x l Hs IH Hall]; constructor; [done|].
  eapply Forall_impl; [done|]. intros y. apply HR.
Qed.

Lemma heap_state_empty σ c : heap_state (K:=K) σ c [] ∅.
Proof.
  unfold heap_state. split_and!.
  - split; [by intros p e|]. by intros k p.
  - by intros e He%elem_of_nil.
  - by intros e He%elem_of_nil.
  - by intros p a b.
Qed.

(** C4: inserting pairs with pairwise distinct dkeys into a fresh queue and
    popping as many times as there were pairs returns exactly those pairs,
    with priorities in non-decreasing order for a min-queue and
    non-increasing order for a max-queue, and leaves the heap empty. *)
Theorem sorted_extraction σ c (items : list (K * Z)) :
  NoDup items.*1 →
  ∃ out w',
    (let! _ := setitems items in popitems (length items)) (σ, PQDict [] ∅ c)
    = (Ret out, w')
    ∧ heap w'.2 = []
    ∧ out ≡ₚ items
    ∧ (c = MinPQDEntry → StronglySorted Z.le out.*2)
    ∧ (c = MaxPQDEntry → StronglySorted Z.ge out.*2).
Proof.
  intros Hnd.
  destruct (setitems_fresh σ c items [] ∅ (heap_state_empty σ c) Hnd)
    as (σ' & h' & f' & Hrun & Hst & Hcont); [done|].
  simpl in Hcont.
  destruct (popitems_all σ' c (length items) h' f' Hst)
    as (out & f'' & Hrun' & Hout & Hsorted).
  { apply Permutation_length in Hcont. unfold contents in Hcont.
    by rewrite length_fmap in Hcont. }
  exists out, (σ', PQDict [] f'' c). split_and!.
  - by rewrite (bind_Ret _ _ _ _ _ Hrun).
  - done.
  - by rewrite Hout.
  - intros ->. eapply StronglySorted_weaken; [|done].
    unfold by_rank, rank. lia.
  - intros ->. eapply StronglySorted_weaken; [|done].
    unfold by_rank, rank. lia.
Qed.

(** ** Well-formed states and the priorities they hold *)

Lemma priority_of_elem σ h f c e :
  index_ok h f → e ∈ h →
  priority_of (σ, PQDict h f c) (dkey e) = Some (pkey_of σ e).
Proof.
  intros [Hfwd _] He. apply list_elem_of_lookup in He as [p Hp].
  unfold priority_of. simpl. rewrite (Hfwd p e Hp). simpl. by rewrite Hp.
Qed.

Lemma priority_of_Some σ h f c k v :
  index_ok h f →
  priority_of (σ, PQDict h f c) k = Some v →
  ∃ e, e ∈ h ∧ dkey e = k ∧ pkey_of σ e = v.
Proof.
  intros [_ Hbwd]. unfold priority_of. simpl.
  destruct (f !! k) as [p|] eqn:Hk; [|done]. simpl.
  destruct (Hbwd k p Hk) as (e & He & Hke). rewrite He. simpl.
  intros [= <-]. exists e. split_and!; [|done..].
  by eapply list_elem_of_lookup_2.
Qed.

Lemma index_ok_size h f : index_ok h f → size f = length h.
Proof.
  intros Hok.
  rewrite <- size_dom.
  assert (dom f = list_to_set (dkey <$> h)) as ->.
  { apply set_eq. intros k. rewrite elem_of_dom, elem_of_list_to_set.
    rewrite <- not_eq_None_Some, (index_ok_absent h f k Hok).
    destruct (decide (k ∈ dkey <$> h)); naive_solver. }
  rewrite size_list_to_set by by eapply index_fwd_NoDup, Hok.
  apply length_fmap.
Qed.

Lemma wf_perm σ h f c h' f' :
  wf (σ, PQDict h f c) → h' ⊆ h → NoDup (oid <$> h') → index_ok h' f' →
  wf (σ, PQDict h' f' c).
Proof.
  intros (_ & _ & Hval) Hsub Hnd Hok. unfold wf. simpl in *.
  split_and!; [done..|]. intros e He. by apply Hval, Hsub.
Qed.

Lemma wf_removed σ h f c e h' f' :
  wf (σ, PQDict h f c) → h ≡ₚ e :: h' → index_ok h' f' →
  wf (σ, PQDict h' f' c)
  ∧ ∀ k v, priority_of (σ, PQDict h' f' c) k = Some v →
           k ≠ dkey e ∧ priority_of (σ, PQDict h f c) k = Some v.
Proof.
  intros Hwf Hperm Hok'. pose proof Hwf as (Hok & Hnd & Hval).
  simpl in *. split.
  - eapply wf_perm; [done| | |done].
    + intros a Ha. rewrite Hperm. by right.
    + rewrite Hperm, fmap_cons in Hnd. by apply NoDup_cons in Hnd as [_ ?].
  - intros k v Hk.
    destruct (priority_of_Some σ h' f' c k v Hok' Hk) as (a & Ha & <- & <-).
    split.
    + pose proof (index_fwd_NoDup _ _ (proj1 Hok)) as Hndk.
      rewrite Hperm, fmap_cons in Hndk.
      apply NoDup_cons in Hndk as [Hnotin _].
      intros Heq. apply Hnotin. rewrite <- Heq.
      apply list_elem_of_fmap. by exists a.
    + apply priority_of_elem; [done|]. rewrite Hperm. by right.
Qed.

Lemma wf_setitem σ h f c k v :
  wf (σ, PQDict h f c) →
  ∃ w',
    __setitem__ k v (σ, PQDict h f c) = (Ret tt, w') ∧ wf w'
    ∧ frames (σ, PQDict h f c) w'
    ∧ priority_of w' k = Some v
    ∧ ∀ k' x, k' ≠ k → priority_of w' k' = Some x →
              priority_of (σ, PQDict h f c) k' = Some x.
Proof.
  intros (Hok & Hnd & Hval). simpl in *.
  destruct (f !! k) as [pos|] eqn:Hk.
  - destruct (setitem_update σ h f c k v pos Hok Hk)
      as (e & h' & f' & He & Hke & Hrun & Hperm & Hok').
    exists (<[oid e:=v]> σ, PQDict h' f' c).
    pose proof (list_elem_of_lookup_2 _ _ _ He) as Hein.
    assert (pkey_of (<[oid e:=v]> σ) e = v) as Hnew.
    { unfold pkey_of. rewrite list_lookup_insert_eq; [done|]. by apply Hval. }
    split_and!; [done| | | |].
    + unfold wf. simpl. split_and!; [done|by rewrite Hperm|].
      intros a Ha. rewrite length_insert. apply Hval. by rewrite <- Hperm.
    + unfold frames. simpl. split_and!.
      * by rewrite length_insert.
      * intros o Ho Hnotin. rewrite list_lookup_insert_ne; [done|].
        intros <-. apply Hnotin. apply list_elem_of_fmap. by exists e.
      * intros a Ha. left. by rewrite <- Hperm.
    + rewrite <- Hke.
      rewrite (priority_of_elem _ h' f' c e Hok'); [by rewrite Hnew|].
      by rewrite Hperm.
    + intros k' x Hne Hk'.
      destruct (priority_of_Some _ h' f' c k' x Hok' Hk') as (a & Ha & <- & <-).
      rewrite Hperm in Ha.
      assert (pkey_of (<[oid e:=v]> σ) a = pkey_of σ a) as ->.
      { unfold pkey_of. rewrite list_lookup_insert_ne; [done|].
        intros Ho. apply Hne. rewrite <- Hke.
        apply list_elem_of_lookup in Ha as [p Hp].
        assert (pos = p) as ->; [|congruence].
        apply (NoDup_lookup _ _ _ (oid e) Hnd);
          rewrite list_lookup_fmap; [by rewrite He|by rewrite Hp, Ho]. }
      by apply priority_of_elem.
  - destruct (setitem_new σ h f c k v Hok Hk)
      as (h' & f' & Hrun & Hperm & Hok').
    exists (σ ++ [v], PQDict h' f' c).
    set (e := Entry (length σ) k c) in *.
    split_and!; [done| | | |].
    2:{ unfold frames. simpl. split_and!.
        - rewrite length_app. lia.
        - intros o Ho _. by rewrite lookup_app_l.
        - intros a Ha. rewrite Hperm in Ha.
          apply elem_of_app in Ha as [Ha|Ha]; [by left|].
          apply list_elem_of_singleton in Ha. subst a. right. simpl. lia. }
    + unfold wf. simpl. split_and!; [done| |].
      * rewrite Hperm, fmap_app. simpl.
        apply NoDup_app. split_and!; [done| |apply NoDup_singleton].
        intros o Ho Ho'. apply list_elem_of_singleton in Ho'. subst o.
        apply list_elem_of_fmap in Ho as (a & Hoa & Ha).
        apply Hval in Ha. lia.
      * intros a Ha. rewrite Hperm in Ha. rewrite length_app. simpl.
        apply elem_of_app in Ha as [Ha|Ha].
        -- apply Hval in Ha. lia.
        -- apply list_elem_of_singleton in Ha. subst a. simpl. lia.
    + change k with (dkey e).
      rewrite (priority_of_elem _ h' f' c e Hok').
      * unfold e. by rewrite pkey_of_new.
      * rewrite Hperm. apply elem_of_app. right.
        by apply list_elem_of_singleton.
    + intros k' x Hne Hk'.
      destruct (priority_of_Some _ h' f' c k' x Hok' Hk') as (a & Ha & <- & <-).
      rewrite Hperm in Ha. apply elem_of_app in Ha as [Ha|Ha].
      * rewrite pkey_of_app by by apply Hval. by apply priority_of_elem.
      * apply list_elem_of_singleton in Ha. by subst a.
Qed.

Lemma wf_delitem σ h f c k pos :
  wf (σ, PQDict h f c) → f !! k = Some pos →
  ∃ e h' f',
    h !! pos = Some e ∧ dkey e = k
    ∧ __delitem__ k (σ, PQDict h f c) = (Ret tt, (σ, PQDict h' f' c))
    ∧ h ≡ₚ e :: h' ∧ wf (σ, PQDict h' f' c)
    ∧ ∀ k' v, priority_of (σ, PQDict h' f' c) k' = Some v →
              k' ≠ k ∧ priority_of (σ, PQDict h f c) k' = Some v.
Proof.
  intros Hwf Hk. pose proof Hwf as (Hok & Hnd & Hval). simpl in *.
  destruct (delitem_present σ h f c k pos Hok Hnd Hk)
    as (e & h' & f' & He & Hke & Hrun & Hperm & Hok').
  destruct (wf_removed σ h f c e h' f' Hwf Hperm Hok') as [Hwf' Hpri].
  subst k. by exists e, h', f'.
Qed.

Lemma wf_pop σ h f c k default pos :
  wf (σ, PQDict h f c) → f !! k = Some pos →
  ∃ e h' f',
    h !! pos = Some e ∧ dkey e = k
    ∧ pop k default (σ, PQDict h f c)
      = (Ret (pkey_of σ e), (σ, PQDict h' f' c))
    ∧ h ≡ₚ e :: h' ∧ wf (σ, PQDict h' f' c)
    ∧ ∀ k' v, priority_of (σ, PQDict h' f' c) k' = Some v →
              k' ≠ k ∧ priority_of (σ, PQDict h f c) k' = Some v.
Proof.
  intros Hwf Hk. pose proof Hwf as (Hok & Hnd & Hval). simpl in *.
  destruct (pop_present σ h f c k default pos Hok Hnd Hk)
    as (e & h' & f' & He & Hke & Hrun & Hperm & Hok').
  destruct (wf_removed σ h f c e h' f' Hwf Hperm Hok') as [Hwf' Hpri].
  subst k. by exists e, h', f'.
Qed.

Lemma wf_popitem σ h f c e :
  wf (σ, PQDict h f c) → h !! 0 = Some e →
  ∃ h' f',
    popitem (σ, PQDict h f c)
    = (Ret (dkey e, pkey_of σ e), (σ, PQDict h' f' c))
    ∧ h ≡ₚ e :: h' ∧ wf (σ, PQDict h' f' c)
    ∧ ∀ k' v, priority_of (σ, PQDict h' f' c) k' = Some v →
              k' ≠ dkey e ∧ priority_of (σ, PQDict h f c) k' = Some v.
Proof.
  intros Hwf He. pose proof Hwf as (Hok & Hnd & Hval). simpl in *.
  destruct (popitem_nonempty σ h f c e Hok He)
    as (h' & f' & Hrun & Hperm & Hok' & _).
  destruct (wf_removed σ h f c e h' f' Hwf Hperm Hok') as [Hwf' Hpri].
  by exists h', f'.
Qed.

Lemma index_ok_nil f : index_ok (K:=K) [] f → f = ∅.
Proof.
  intros [_ Hbwd]. apply map_empty. intros k.
  destruct (f !! k) as [p|] eqn:Hk; [|done].
  by destruct (Hbwd k p Hk) as (e & He & _).
Qed.

Lemma additem_present σ h f c k v :
  is_Some (f !! k) →
  additem k v (σ, PQDict h f c) = (Raise KeyError, (σ, PQDict h f c)).
Proof.
  intros Hk. unfold additem, bind, finder_mem. simpl.
  by rewrite bool_decide_true.
Qed.

Lemma additem_absent σ h f c k v :
  f !! k = None →
  additem k v (σ, PQDict h f c) = __setitem__ k v (σ, PQDict h f c).
Proof.
  intros Hk. unfold additem, bind, finder_mem. simpl.
  rewrite bool_decide_false; [done|]. rewrite Hk. by intros [? ?].
Qed.

Lemma updateitem_present σ h f c k v :
  is_Some (f !! k) →
  updateitem k v (σ, PQDict h f c) = __setitem__ k v (σ, PQDict h f c).
Proof.
  intros Hk. unfold updateitem, bind, finder_mem. simpl.
  by rewrite bool_decide_true.
Qed.

Lemma updateitem_absent σ h f c k v :
  f !! k = None →
  updateitem k v (σ, PQDict h f c) = (Raise KeyError, (σ, PQDict h f c)).
Proof.
  intros Hk. unfold updateitem, bind, finder_mem. simpl.
  rewrite bool_decide_false; [done|]. rewrite Hk. by intros [? ?].
Qed.

Lemma frames_refl w : frames w w.
Proof. unfold frames. split_and!; [done..|]. intros e He. by left. Qed.

Lemma frames_removed σ h f c e h' f' :
  h ≡ₚ e :: h' → frames (σ, PQDict h f c) (σ, PQDict h' f' c).
Proof.
  intros Hperm. unfold frames. simpl. split_and!; [done..|].
  intros a Ha. left. rewrite Hperm. by right.
Qed.

Lemma run_call_step cl w :
  wf w →
  wf (run_call cl w).2
  ∧ frames w (run_call cl w).2
  ∧ ∀ k x, priority_of (run_call cl w).2 k = Some x →
      match (run_call cl w).1, supplies k cl with
      | Ret _, Some v => x = v
      | _, _ => priority_of w k = Some x
      end.
Proof.
  destruct w as [σ [h f c]]. intros Hwf.
  assert (∀ k v,
    wf (__setitem__ k v (σ, PQDict h f c)).2
    ∧ frames (σ, PQDict h f c) (__setitem__ k v (σ, PQDict h f c)).2
    ∧ ∀ k' x, priority_of (__setitem__ k v (σ, PQDict h f c)).2 k' = Some x →
        match (__setitem__ k v (σ, PQDict h f c)).1,
              (if decide (k = k') then Some v else None) with
        | Ret _, Some v => x = v
        | _, _ => priority_of (σ, PQDict h f c) k' = Some x
        end) as Hset.
  { intros k v.
    destruct (wf_setitem σ h f c k v Hwf)
      as (w' & -> & Hwf' & Hfr & Hk & Hother). simpl.
    split_and!; [done..|]. intros k' x Hx. destruct (decide (k = k')) as [<-|Hne].
    - congruence.
    - apply Hother; [|done]. congruence. }
  destruct cl as [k v|k v|k v|k| |k default]; simpl.
  - apply Hset.
  - destruct (f !! k) as [pos|] eqn:Hk.
    + rewrite additem_present by by rewrite Hk. simpl.
      split_and!; [done|apply frames_refl|]. by intros k' x ?.
    + rewrite additem_absent by done. apply Hset.
  - destruct (f !! k) as [pos|] eqn:Hk.
    + rewrite updateitem_present by by rewrite Hk. apply Hset.
    + rewrite updateitem_absent by done. simpl.
      split_and!; [done|apply frames_refl|]. by intros k' x ?.
  - destruct (f !! k) as [pos|] eqn:Hk.
    + destruct (wf_delitem σ h f c k pos Hwf Hk)
        as (e & h' & f' & _ & _ & -> & Hperm & Hwf' & Hpri). simpl.
      split_and!; [done|by eapply frames_removed|].
      intros k' x Hx. by apply Hpri.
    + rewrite (delitem_absent σ h f c k Hk). simpl.
      split_and!; [done|apply frames_refl|]. by intros k' x ?.
  - destruct h as [|e h0] eqn:Hh.
    + unfold bind. rewrite popitem_empty. simpl.
      split_and!; [done|apply frames_refl|]. by intros k' x ?.
    + rewrite <- Hh in *.
      destruct (wf_popitem σ h f c e Hwf)
        as (h' & f' & Hrun & Hperm & Hwf' & Hpri).
      { by rewrite Hh. }
      rewrite (bind_Ret _ _ _ _ _ Hrun). simpl.
      split_and!; [done|by eapply frames_removed|].
      intros k' x Hx. by apply Hpri.
  - destruct (f !! k) as [pos|] eqn:Hk.
    + destruct (wf_pop σ h f c k default pos Hwf Hk)
        as (e & h' & f' & _ & _ & Hrun & Hperm & Hwf' & Hpri).
      rewrite (bind_Ret _ _ _ _ _ Hrun). simpl.
      split_and!; [done|by eapply frames_removed|].
      intros k' x Hx. by apply Hpri.
    + destruct default as [d|].
      * rewrite (bind_Ret _ _ _ _ _ (pop_absent_default σ h f c k d Hk)).
        simpl. split_and!; [done|apply frames_refl|]. by intros k' x ?.
      * unfold bind. rewrite (pop_absent_marker σ h f c k Hk). simpl.
        split_and!; [done|apply frames_refl|]. by intros k' x ?.
Qed.

Lemma run_calls_wf cs : ∀ w, wf w → wf (run_calls cs w).
Proof.
  induction cs as [|cl cs IH]; intros w Hwf; [done|].
  simpl. apply IH. by apply run_call_step.
Qed.

Lemma run_calls_supplied k cs :
  ∀ w last,
    wf w →
    (∀ x, priority_of w k = Some x → last = Some x) →
    ∀ x, priority_of (run_calls cs w) k = Some x →
         supplied k cs w last = Some x.
Proof.
  induction cs as [|cl cs IH]; intros w last Hwf Hlast x Hx.
  { simpl in *. by apply Hlast. }
  simpl in *. destruct (run_call_step cl w Hwf) as (Hwf' & _ & Hstep).
  apply IH; [done| |done].
  intros y Hy. specialize (Hstep k y Hy).
  destruct (run_call cl w).1; [|by apply Hlast..].
  destruct (supplies k cl); [by subst|by apply Hlast].
Qed.

Lemma wf_empty σ c : wf (K:=K) (σ, PQDict [] ∅ c).
Proof.
  unfold wf. simpl. split_and!.
  - apply heap_state_empty. exact σ. exact c.
  - constructor.
  - by intros e He%elem_of_nil.
Qed.

Lemma getitem_priority_of w k :
  wf w → is_Some (nodefinder w.2 !! k) →
  ∃ v, priority_of w k = Some v ∧ __getitem__ k w = (Ret v, w).
Proof.
  destruct w as [σ [h f c]]. intros (Hok & _) [p Hp]. simpl in *.
  destruct (proj2 Hok k p Hp) as (e & He & Hke).
  exists (pkey_of σ e). split.
  - unfold priority_of. simpl. rewrite Hp. simpl. by rewrite He.
  - unfold __getitem__.
    rewrite (bind_Ret _ _ (σ, PQDict h f c) (σ, PQDict h f c) p).
    2:{ unfold finder_get. simpl. by rewrite Hp. }
    by rewrite (bind_Ret _ _ _ _ _ (heap_get_Some σ h f c _ _ He)).
Qed.

(** C5: after any sequence of calls on a queue that started empty, every
    dkey that the queue contains has, under getPriority, the priority supplied
    by the most recent successful setPriority/addItem/updateItem for it. *)
Theorem index_correct σ c (cs : list call) (k : K) :
  let w0 := (σ, PQDict [] ∅ c) in
  let w := run_calls cs w0 in
  (__contains__ k w).1 = Ret true →
  ∃ v, __getitem__ k w = (Ret v, w) ∧ supplied k cs w0 None = Some v.
Proof.
  intros w0 w Hin.
  pose proof (run_calls_wf cs w0 (wf_empty σ c)) as Hwf. fold w in Hwf.
  unfold __contains__, finder_mem in Hin. simpl in Hin.
  injection Hin as Hin. apply bool_decide_eq_true in Hin.
  destruct (getitem_priority_of w k Hwf Hin) as (v & Hv & Hget).
  exists v. split; [done|].
  apply (run_calls_supplied k cs w0 None (wf_empty σ c)); [|done].
  intros x Hx. unfold priority_of in Hx. by simpl in Hx.
Qed.

(** ** The claims on single calls *)

Lemma len_zero_heap w : wf w → (__len__ w).1 = Ret 0 ↔ heap w.2 = [].
Proof.
  destruct w as [σ [h f c]]. intros (Hok & _). simpl in *.
  unfold __len__. simpl. rewrite (index_ok_size h f Hok).
  split.
  - intros [= Hl]. by apply length_zero_iff_nil.
  - by intros ->.
Qed.

(** C6: on a queue [w] as the methods leave it, [popitem] and [peek] raise
    the empty-queue error (KeyError in the source) when the queue is empty,
    leaving it as it is; on a queue that is not empty [peek] returns the pair
    at position 0 and leaves the state as it is, and [popitem] returns a
    pair. *)
Theorem pop_peek_fail_iff_empty (w : world (K:=K)) :
  wf w →
  ((__len__ w).1 = Ret 0 →
     popitem w = (Raise KeyError, w) ∧ peek w = (Raise KeyError, w))
  ∧ ((__len__ w).1 ≠ Ret 0 →
     ∃ e, heap w.2 !! 0 = Some e
          ∧ peek w = (Ret (dkey e, pkey_of w.1 e), w)
          ∧ ∃ w', popitem w = (Ret (dkey e, pkey_of w.1 e), w') ∧ wf w').
Proof.
  intros Hwf. pose proof (len_zero_heap w Hwf) as Hlen.
  destruct w as [σ [h f c]]. simpl in *. split.
  - intros Hz. apply Hlen in Hz. subst h. by rewrite popitem_empty.
  - intros Hnz. destruct h as [|e h0] eqn:Hh.
    { exfalso. by apply Hnz, Hlen. }
    rewrite <- Hh in *. assert (h !! 0 = Some e) as He by by rewrite Hh.
    exists e. split_and!; [done| |].
    + unfold peek.
      rewrite (try_Ret _ _ _ _ _ _ _ (heap_get_Some σ h f c _ _ He)).
      reflexivity.
    + destruct (wf_popitem σ h f c e Hwf He)
        as (h' & f' & Hrun & _ & Hwf' & _).
      by exists (σ, PQDict h' f' c).
Qed.

(** C7: on a queue as the methods leave it, [__delitem__] raises KeyError
    and changes nothing when the dkey is absent; when the dkey is present it
    returns, the queue no longer contains the dkey, and its size is smaller
    by exactly one. *)
Theorem delitem_fail_iff_absent (w : world (K:=K)) (k : K) :
  wf w →
  ((__contains__ k w).1 = Ret false → __delitem__ k w = (Raise KeyError, w))
  ∧ ((__contains__ k w).1 = Ret true →
     ∃ w' n,
       __delitem__ k w = (Ret tt, w') ∧ wf w'
       ∧ (__contains__ k w').1 = Ret false
       ∧ (__len__ w).1 = Ret (S n) ∧ (__len__ w').1 = Ret n).
Proof.
  intros Hwf. destruct w as [σ [h f c]].
  unfold __contains__, finder_mem, __len__. simpl. split.
  - intros [= Hk]. apply bool_decide_eq_false in Hk.
    apply delitem_absent. by apply eq_None_not_Some.
  - intros [= Hk]. apply bool_decide_eq_true in Hk. destruct Hk as [pos Hk].
    destruct (wf_delitem σ h f c k pos Hwf Hk)
      as (e & h' & f' & He & Hke & Hrun & Hperm & Hwf' & Hpri).
    exists (σ, PQDict h' f' c), (length h'). simpl.
    pose proof Hwf as (Hok & _). pose proof Hwf' as (Hok' & _). simpl in *.
    split_and!; [done..| | |].
    + f_equal. apply bool_decide_eq_false. intros Hin.
      destruct (getitem_priority_of _ k Hwf' Hin) as (v & Hv & _).
      by destruct (Hpri k v Hv).
    + rewrite (index_ok_size h f Hok). f_equal.
      by rewrite Hperm.
    + by rewrite (index_ok_size h' f' Hok').
Qed.

(** C8: for a heap whose entries are of one class and whose index is right,
    and a position [pos] whose strict descendants are in heap order,
    [_sink(pos)] returns; it permutes the entries, leaves every position
    outside the subtree of [pos] as it was (the entry never rises above
    [pos]), leaves the subtree of [pos] in heap order, and the index is right
    for the new heap, unchanged at dkeys that the heap does not hold. *)
Theorem sink_restores_subtree σ c h f pos :
  pos < length h → index_ok h f → uniform c h → below_ordered σ pos h →
  ∃ h' f',
    _sink pos (σ, PQDict h f c) = (Ret tt, (σ, PQDict h' f' c))
    ∧ h' ≡ₚ h
    ∧ (∀ i, ¬ in_subtree pos i → h' !! i = h !! i)
    ∧ heap_ordered σ pos h'
    ∧ index_ok h' f'
    ∧ index_frame h f f'.
Proof.
  intros Hpos Hok Huni Hbelow.
  destruct (sink_full σ c pos h f Hpos (proj1 Hok) Huni Hbelow)
    as (h' & f' & Hrun & (Hperm & Hfwd & Hfr & Hout) & Hord).
  exists h', f'. split_and!; [done..| |done].
  by eapply index_ok_frame.
Qed.

(** C10: [pop(dkey, default)] returns the default and changes nothing when
    the dkey is absent and a default is given; it raises KeyError and changes
    nothing when the dkey is absent and no default is given; on a queue as
    the methods leave it, when the dkey is present it returns the priority
    that [__getitem__] gave for it and the queue no longer contains the
    dkey. *)
Theorem pop_key_total (w : world (K:=K)) (k : K) :
  ((__contains__ k w).1 = Ret false →
     (∀ d, pop k (Some d) w = (Ret d, w))
     ∧ pop k None w = (Raise KeyError, w))
  ∧ (wf w → (__contains__ k w).1 = Ret true →
     ∀ default, ∃ v w',
       __getitem__ k w = (Ret v, w)
       ∧ pop k default w = (Ret v, w') ∧ wf w'
       ∧ (__contains__ k w').1 = Ret false
       ∧ ∀ k' x, priority_of w' k' = Some x → priority_of w k' = Some x).
Proof.
  destruct w as [σ [h f c]].
  unfold __contains__, finder_mem. simpl. split.
  - intros [= Hk]. apply bool_decide_eq_false in Hk.
    apply eq_None_not_Some in Hk. split.
    + intros d. by apply pop_absent_default.
    + by apply pop_absent_marker.
  - intros Hwf [= Hk]. apply bool_decide_eq_true in Hk. intros default.
    destruct (getitem_priority_of _ k Hwf Hk) as (v & Hv & Hget).
    destruct Hk as [pos Hk].
    destruct (wf_pop σ h f c k default pos Hwf Hk)
      as (e & h' & f' & He & Hke & Hrun & Hperm & Hwf' & Hpri).
    exists v, (σ, PQDict h' f' c). simpl. split_and!; [done| |done| |].
    + rewrite Hrun. do 2 f_equal.
      unfold priority_of in Hv. simpl in Hv. rewrite Hk in Hv. simpl in Hv.
      rewrite He in Hv. simpl in Hv. congruence.
    + f_equal. apply bool_decide_eq_false. intros Hin.
      destruct (getitem_priority_of _ k Hwf' Hin) as (v' & Hv' & _).
      by destruct (Hpri k v' Hv').
    + intros k' x Hx. by apply Hpri.
Qed.

(** ** Similar queues behave alike *)

Section similar.
Variables σ1 σ2 : store.

Notation "m1 ≈{ R } m2" := (msim (K:=K) σ1 σ2 R m1 m2) (at level 70).
Abbreviation ES := (esim (K:=K) σ1 σ2).

Lemma msim_ret {A} (R : A → A → Prop) a b : R a b → ret a ≈{R} ret b.
Proof. intros Hab w1 w2 Hw. split; [by constructor|done]. Qed.

Lemma msim_raise {A} (R : A → A → Prop) x : raise x ≈{R} raise x.
Proof. intros w1 w2 Hw. split; [by constructor|done]. Qed.

Lemma msim_out_of_fuel {A} (R : A → A → Prop) : out_of_fuel ≈{R} out_of_fuel.
Proof. intros w1 w2 Hw. split; [by constructor|done]. Qed.

Lemma msim_bind {A B} (R : A → A → Prop) (R' : B → B → Prop)
    (m1 m2 : M (K:=K) A) (k1 k2 : A → M (K:=K) B) :
  m1 ≈{R} m2 → (∀ a b, R a b → k1 a ≈{R'} k2 b) →
  bind m1 k1 ≈{R'} bind m2 k2.
Proof.
  intros Hm Hk w1 w2 Hw. destruct (Hm w1 w2 Hw) as [Ho Hw'].
  unfold bind. destruct (m1 w1) as [r1 w1'], (m2 w2) as [r2 w2'].
  simpl in *. destruct Ho as [a b Hab|x|].
  - by apply Hk.
  - split; [by constructor|done].
  - split; [by constructor|done].
Qed.

Lemma msim_try {A B} (R : A → A → Prop) (R' : B → B → Prop) caught
    (m1 m2 : M (K:=K) A) (h1 h2 : M (K:=K) B) (k1 k2 : A → M (K:=K) B) :
  m1 ≈{R} m2 → h1 ≈{R'} h2 → (∀ a b, R a b → k1 a ≈{R'} k2 b) →
  try_except_else m1 caught h1 k1 ≈{R'} try_except_else m2 caught h2 k2.
Proof.
  intros Hm Hh Hk w1 w2 Hw. destruct (Hm w1 w2 Hw) as [Ho Hw'].
  unfold try_except_else. destruct (m1 w1) as [r1 w1'], (m2 w2) as [r2 w2'].
  simpl in *. destruct Ho as [a b Hab|x|].
  - by apply Hk.
  - destruct (decide (x = caught)); [by apply Hh|].
    split; [by constructor|done].
  - split; [by constructor|done].
Qed.

Lemma msim_heap_len : heap_len ≈{eq} heap_len.
Proof.
  intros [s1 q1] [s2 q2] (? & ? & Hh & ?). unfold heap_len. simpl in *.
  split; [|done]. constructor. by eapply Forall2_length.
Qed.

Lemma msim_heap_get i : heap_get i ≈{esim σ1 σ2} heap_get i.
Proof.
  intros [s1 q1] [s2 q2] (? & ? & Hh & ?). unfold heap_get. simpl in *.
  destruct (heap q1 !! i) as [a|] eqn:Ha.
  - destruct (Forall2_lookup_l _ _ _ _ _ Hh Ha) as (b & -> & Hab).
    split; [by constructor|done].
  - apply lookup_ge_None in Ha. rewrite (Forall2_length _ _ _ Hh) in Ha.
    apply lookup_ge_None in Ha. rewrite Ha.
    split; [by constructor|done].
Qed.

Lemma msim_heap_set i a b :
  esim σ1 σ2 a b → heap_set i a ≈{eq} heap_set i b.
Proof.
  intros Hab [s1 q1] [s2 q2] (? & ? & Hh & ?). unfold heap_set. simpl in *.
  rewrite <- (Forall2_length _ _ _ Hh).
  destruct (decide (i < length (heap q1))).
  - split; [by constructor|]. split_and!; [done..| |done].
    simpl. by apply Forall2_insert.
  - split; [by constructor|done].
Qed.

Lemma Forall2_snoc_inv {A B} (R : A → B → Prop) l1 x1 l2 x2 :
  Forall2 R (l1 ++ [x1]) (l2 ++ [x2]) → Forall2 R l1 l2 ∧ R x1 x2.
Proof.
  intros Hf. pose proof (Forall2_length _ _ _ Hf) as Hlen.
  rewrite !length_app in Hlen. simpl in Hlen.
  apply Forall2_app_inv in Hf; [|lia].
  destruct Hf as [Hf Hx]. split; [done|]. by inversion Hx.
Qed.

Lemma msim_heap_pop_last : heap_pop_last ≈{esim σ1 σ2} heap_pop_last.
Proof.
  intros [s1 [h1 f1 c1]] [s2 [h2 f2 c2]] (? & ? & Hh & ?). simpl in *.
  destruct (snoc_inv h1) as [->|(i1 & l1 & ->)];
    destruct (snoc_inv h2) as [->|(i2 & l2 & ->)].
  - split; [by constructor|done].
  - apply Forall2_length in Hh. rewrite length_app in Hh. simpl in Hh. lia.
  - apply Forall2_length in Hh. rewrite length_app in Hh. simpl in Hh. lia.
  - apply Forall2_snoc_inv in Hh as [Hh Hl].
    rewrite !heap_pop_last_snoc. split; [by constructor|done].
Qed.

Lemma msim_finder_get k : finder_get k ≈{eq} finder_get k.
Proof.
  intros [s1 q1] [s2 q2] (? & ? & Hh & Hf). unfold finder_get. simpl in *.
  rewrite Hf. destruct (nodefinder q2 !! k); (split; [by constructor|done]).
Qed.

Lemma msim_finder_set k p : finder_set k p ≈{eq} finder_set k p.
Proof.
  intros [s1 q1] [s2 q2] (? & ? & Hh & Hf). unfold finder_set. simpl in *.
  split; [by constructor|]. split_and!; [done..|]. simpl. by rewrite Hf.
Qed.

Lemma msim_finder_pop k : finder_pop k ≈{eq} finder_pop k.
Proof.
  intros [s1 q1] [s2 q2] (? & ? & Hh & Hf). unfold finder_pop. simpl in *.
  rewrite Hf. destruct (nodefinder q2 !! k).
  - split; [by constructor|]. split_and!; [done..|]. done.
  - split; [by constructor|done].
Qed.

Lemma msim_finder_mem k : finder_mem k ≈{eq} finder_mem k.
Proof.
  intros [s1 q1] [s2 q2] (? & ? & Hh & Hf). unfold finder_mem. simpl in *.
  rewrite Hf. split; [by constructor|done].
Qed.

Lemma msim_lt a b a' b' :
  esim σ1 σ2 a a' → esim σ1 σ2 b b' → lt_ a b ≈{eq} lt_ a' b'.
Proof.
  intros (_ & Hc & Hp) (_ & _ & Hp') [s1 q1] [s2 q2] (? & ? & Hh & Hf).
  unfold lt_, entry_lt. simpl in *. subst s1 s2.
  rewrite Hc, Hp, Hp'. split; [by constructor|done].
Qed.

Lemma msim_get_pkey a b : esim σ1 σ2 a b → get_pkey a ≈{eq} get_pkey b.
Proof.
  intros (_ & _ & Hp) [s1 q1] [s2 q2] (? & ? & Hh & Hf).
  unfold get_pkey. simpl in *. subst s1 s2.
  rewrite Hp. split; [by constructor|done].
Qed.

Create HintDb msim.

#[local] Hint Resolve msim_ret msim_raise msim_out_of_fuel msim_heap_len
  msim_heap_get msim_heap_set msim_heap_pop_last msim_finder_get
  msim_finder_set msim_finder_pop msim_finder_mem msim_lt msim_get_pkey
  : msim.

Tactic Notation "msim_bind" constr(R) :=
  eapply (msim_bind R); [eauto with msim|].

Lemma msim_swim_loop fuel : ∀ e1 e2 pos top,
  esim σ1 σ2 e1 e2 →
  swim_loop fuel e1 pos top ≈{eq} swim_loop fuel e2 pos top.
Proof.
  induction fuel as [|fuel IH]; intros e1 e2 pos top He.
  - rewrite !swim_loop_0. destruct (decide (top < pos)); eauto with msim.
  - rewrite !swim_loop_S. destruct (decide (top < pos)); [|eauto with msim].
    msim_bind ES. intros p1 p2 Hp.
    msim_bind (@eq bool). intros b ? <-.
    destruct b; [|eauto with msim].
    msim_bind (@eq unit). intros _ _ _.
    destruct Hp as (-> & _).
    msim_bind (@eq unit). intros _ _ _.
    by apply IH.
Qed.

Lemma msim_swim pos top : _swim pos top ≈{eq} _swim pos top.
Proof.
  unfold _swim.
  msim_bind ES. intros e1 e2 He.
  eapply (msim_bind eq); [by apply msim_swim_loop|]. intros p ? <-.
  msim_bind (@eq unit). intros _ _ _.
  destruct He as (-> & _). eauto with msim.
Qed.

Lemma msim_pick_child cp : pick_child cp ≈{eq} pick_child cp.
Proof.
  unfold pick_child.
  msim_bind (@eq nat). intros n ? <-.
  destruct (decide (cp + 1 < n)); [|eauto with msim].
  msim_bind ES. intros l1 l2 Hl.
  msim_bind ES. intros r1 r2 Hr.
  msim_bind (@eq bool). intros b ? <-.
  destruct b; simpl; eauto with msim.
Qed.

Lemma msim_sink_loop fuel : ∀ pos cp,
  sink_loop fuel pos cp ≈{eq} sink_loop fuel pos cp.
Proof.
  induction fuel as [|fuel IH]; intros pos cp.
  - rewrite !sink_loop_0. msim_bind (@eq nat). intros n ? <-.
    destruct (decide (cp < n)); eauto with msim.
  - rewrite !sink_loop_S. msim_bind (@eq nat). intros n ? <-.
    destruct (decide (cp < n)); [|eauto with msim].
    eapply (msim_bind eq); [by apply msim_pick_child|]. intros ch ? <-.
    msim_bind ES. intros c1 c2 Hc.
    msim_bind (@eq unit). intros _ _ _.
    destruct Hc as (-> & _).
    msim_bind (@eq unit). intros _ _ _.
    apply IH.
Qed.

Lemma msim_sink top : _sink top ≈{eq} _sink top.
Proof.
  rewrite sink_unfold.
  msim_bind ES. intros e1 e2 He.
  msim_bind (@eq nat). intros n ? <-.
  eapply (msim_bind eq); [by apply msim_sink_loop|]. intros p ? <-.
  msim_bind (@eq unit). intros _ _ _.
  destruct He as (-> & _).
  msim_bind (@eq unit). intros _ _ _.
  apply msim_swim.
Qed.

Lemma msim_popitem : popitem ≈{eq} popitem.
Proof.
  unfold popitem.
  eapply (msim_try ES); [eauto with msim..|].
  intros l1 l2 Hl.
  msim_bind (@eq nat). intros n ? <-.
  eapply (msim_bind ES).
  - destruct (decide (0 < n)); [|eauto with msim].
    msim_bind ES. intros e1 e2 He.
    msim_bind (@eq unit). intros _ _ _.
    destruct Hl as (-> & _).
    msim_bind (@eq unit). intros _ _ _.
    eapply (msim_bind eq); [by apply msim_sink|]. intros _ _ _.
    eauto with msim.
  - intros e1 e2 He. pose proof He as (-> & _).
    msim_bind (@eq nat). intros _ _ _.
    msim_bind (@eq Z). intros v ? <-.
    eauto with msim.
Qed.

Lemma msim_popitems n : popitems n ≈{eq} popitems n.
Proof.
  induction n as [|n IH]; simpl; [eauto with msim|].
  eapply (msim_bind eq); [by apply msim_popitem|]. intros x ? <-.
  eapply (msim_bind eq); [by apply IH|]. intros xs ? <-.
  eauto with msim.
Qed.

Lemma msim_getitem k : __getitem__ k ≈{eq} __getitem__ k.
Proof.
  unfold __getitem__.
  msim_bind (@eq nat). intros p ? <-.
  msim_bind ES. intros e1 e2 He.
  eauto with msim.
Qed.

Lemma msim_peek : peek ≈{eq} peek.
Proof.
  unfold peek.
  eapply (msim_try ES); [eauto with msim..|].
  intros e1 e2 He. pose proof He as (-> & _).
  msim_bind (@eq Z). intros v ? <-.
  eauto with msim.
Qed.

Lemma osim_eq {A} (r1 r2 : outcome A) : osim eq r1 r2 → r1 = r2.
Proof. by intros [a b ->|x|]. Qed.

Lemma wsim_same_view w1 w2 : wsim σ1 σ2 w1 w2 → same_view w1 w2.
Proof.
  intros Hw. unfold same_view. split_and!.
  - destruct Hw as (_ & _ & _ & Hf). unfold __len__. simpl. by rewrite Hf.
  - intros k. apply osim_eq. by apply (msim_finder_mem k).
  - intros k. apply osim_eq. by apply (msim_getitem k).
  - apply osim_eq. by apply msim_peek.
  - intros n. apply osim_eq. by apply (msim_popitems n).
Qed.

End similar.

(** ** [__copy__] *)

Lemma copy_entries_spec h : ∀ σ σ' h',
  (∀ e, e ∈ h → oid e < length σ) →
  copy_entries σ h = (σ', h') →
  length σ' = length σ + length h
  ∧ (∀ o, o < length σ → σ' !! o = σ !! o)
  ∧ oid <$> h' = seq (length σ) (length h)
  ∧ Forall2 (esim σ' σ) h' h.
Proof.
  induction h as [|e h IH]; intros σ σ' h' Hval Hcopy; simpl in Hcopy.
  { injection Hcopy as <- <-. simpl. split_and!; [lia|done|done|constructor]. }
  destruct (copy_entries (σ ++ [pkey_of σ e]) h) as [σ1 h1] eqn:Hrec.
  injection Hcopy as <- <-.
  assert (∀ a, a ∈ h → oid a < length (σ ++ [pkey_of σ e])) as Hval1.
  { intros a Ha. rewrite length_app. simpl.
    assert (oid a < length σ); [|lia]. apply Hval. by right. }
  destruct (IH _ _ _ Hval1 Hrec) as (Hlen & Hsame & Hoids & Hsim).
  rewrite length_app in Hlen, Hsame, Hoids. simpl in *.
  assert (∀ o, o < length σ → σ1 !! o = σ !! o) as Hsame'.
  { intros o Ho. rewrite Hsame by lia. by rewrite lookup_app_l. }
  split_and!.
  - lia.
  - done.
  - f_equal. etrans; [exact Hoids|]. f_equal. lia.
  - constructor.
    + unfold esim, pkey_of. simpl. split_and!; [done..|].
      rewrite Hsame by lia. rewrite lookup_app_r by lia.
      by rewrite Nat.sub_diag.
    + apply Forall2_same_length_lookup. split; [by eapply Forall2_length|].
      intros i a b Ha Hb.
      destruct (Forall2_lookup_lr _ _ _ _ _ _ Hsim Ha Hb) as (Hk & Hc & Hp).
      split_and!; [done..|]. rewrite Hp. apply pkey_of_app.
      apply Hval. right. by eapply list_elem_of_lookup_2.
Qed.

Lemma index_ok_similar h h' f :
  Forall2 (λ a b : entry (K:=K), dkey a = dkey b) h' h →
  index_ok h f → index_ok h' f.
Proof.
  intros Hsim [Hfwd Hbwd]. split.
  - intros p a Ha.
    destruct (Forall2_lookup_l _ _ _ _ _ Hsim Ha) as (b & Hb & Hab).
    simpl in Hab. rewrite Hab. by apply Hfwd.
  - intros k p Hk. destruct (Hbwd k p Hk) as (b & Hb & <-).
    destruct (Forall2_lookup_r _ _ _ _ _ Hsim Hb) as (a & Ha & Hab).
    by exists a.
Qed.

Lemma wf_store_grows σ σ' q :
  wf (σ, q) → length σ ≤ length σ' → wf (σ', q).
Proof.
  intros (Hok & Hnd & Hval) Hlen. unfold wf. simpl in *.
  split_and!; [done..|]. intros e He. apply Hval in He. lia.
Qed.

Lemma copy_apart σ q σ' c :
  wf (σ, q) → __copy__ (σ, q) = (σ', c) →
  apart σ' q c ∧ wsim σ' σ (σ', c) (σ, q) ∧ wsim σ' σ' (σ', c) (σ', q).
Proof.
  intros Hwf Hcopy. pose proof Hwf as (Hok & Hnd & Hval).
  unfold __copy__ in Hcopy. simpl in *.
  destruct (copy_entries σ (heap q)) as [σ1 h1] eqn:Hce.
  injection Hcopy as <- <-.
  destruct (copy_entries_spec _ _ _ _ Hval Hce)
    as (Hlen & Hsame & Hoids & Hsim).
  assert (∀ b, b ∈ h1 → length σ ≤ oid b < length σ1) as Hnew.
  { intros b Hb.
    assert (oid b ∈ seq (length σ) (length (heap q))) as Hin.
    { rewrite <- Hoids. apply list_elem_of_fmap. by exists b. }
    apply elem_of_seq in Hin. lia. }
  split_and!.
  - unfold apart. split_and!.
    + apply (wf_store_grows σ); [done|lia].
    + unfold wf. simpl. split_and!.
      * eapply index_ok_similar; [|done].
        eapply Forall2_impl; [done|]. by intros a b (? & _).
      * rewrite Hoids. apply NoDup_seq.
      * intros b Hb. by apply Hnew.
    + simpl. intros a b Ha Hb Heq. apply Hval in Ha. apply Hnew in Hb. lia.
  - unfold wsim. simpl. by split_and!.
  - unfold wsim. simpl. split_and!; [done..| |done].
    apply Forall2_same_length_lookup. split; [by eapply Forall2_length|].
    intros i a b Ha Hb.
    destruct (Forall2_lookup_lr _ _ _ _ _ _ Hsim Ha Hb) as (Hk & Hc & Hp).
    split_and!; [done..|]. rewrite Hp. unfold pkey_of.
    rewrite Hsame; [done|]. apply Hval. by eapply list_elem_of_lookup_2.
Qed.

Lemma apart_sym σ q c : apart σ q c → apart σ c q.
Proof.
  intros (Hq & Hc & Hd). split_and!; [done..|].
  intros a b Ha Hb Heq. by apply (Hd b a).
Qed.

Lemma apart_step σ q c cl :
  apart σ q c →
  let w' := (run_call cl (σ, q)).2 in
  apart w'.1 w'.2 c ∧ same_view (w'.1, c) (σ, c).
Proof.
  intros (Hq & Hc & Hd) w'.
  destruct (run_call_step cl (σ, q) Hq) as (Hwf' & (Hlen & Hkeep & Hheld) & _).
  fold w' in Hwf', Hlen, Hkeep, Hheld. simpl in *.
  pose proof Hc as (_ & _ & Hvalc). simpl in Hvalc.
  split.
  - unfold apart. split_and!.
    + by destruct w'.
    + by apply (wf_store_grows σ).
    + intros a b Ha Hb Heq. destruct (Hheld a Ha) as [Ha'|Ha'].
      * by apply (Hd a b).
      * apply Hvalc in Hb. lia.
  - apply (wsim_same_view w'.1 σ). unfold wsim. simpl.
    split_and!; [done..| |done].
    apply Forall2_same_length_lookup. split; [done|].
    intros i a b Ha Hb. assert (a = b) as -> by congruence.
    unfold esim. split_and!; [done..|]. unfold pkey_of.
    rewrite Hkeep; [done| |].
    + apply Hvalc. by eapply list_elem_of_lookup_2.
    + intros Hin. apply list_elem_of_fmap in Hin as (a & Ho & Hain).
      apply (Hd a b); [done| |done]. by eapply list_elem_of_lookup_2.
Qed.

Lemma run_sides_apart cs : ∀ σ q c,
  apart σ q c →
  let st := run_sides cs (σ, q, c) in apart st.1.1 st.1.2 st.2.
Proof.
  induction cs as [|[s cl] cs IH]; intros σ q c Hap; [done|].
  simpl. destruct s; simpl.
  - destruct (apart_step σ q c cl Hap) as [Hap' _].
    by apply (IH _ _ _ Hap').
  - destruct (apart_step σ c q cl (apart_sym _ _ _ Hap)) as [Hap' _].
    by apply (IH _ _ _ (apart_sym _ _ _ Hap')).
Qed.

(** C9: the copy of a queue as the methods leave it shows the same size,
    the same priorities and the same results of any number of [popitem]
    calls as the original, and from then on, whatever calls are made on the
    one and on the other, a call on one of the two changes nothing of what
    can be observed of the other. *)
Theorem clone_independent (w : world (K:=K)) :
  wf w →
  let σ1 := (__copy__ w).1 in
  let c := (__copy__ w).2 in
  same_view (σ1, c) w
  ∧ same_view (σ1, c) (σ1, w.2)
  ∧ ∀ (cs : list (side * call)) (cl : call),
      let st := run_sides cs (σ1, w.2, c) in
      let σ2 := st.1.1 in
      let q2 := st.1.2 in
      let c2 := st.2 in
      same_view ((run_call cl (σ2, q2)).2.1, c2) (σ2, c2)
      ∧ same_view ((run_call cl (σ2, c2)).2.1, q2) (σ2, q2).
Proof.
  intros Hwf σ1 c. destruct w as [σ q].
  destruct (copy_apart σ q σ1 c Hwf) as (Hap & Hsim & Hsim').
  { unfold σ1, c. by destruct (__copy__ (σ, q)). }
  split_and!.
  - by eapply wsim_same_view.
  - by eapply wsim_same_view.
  - intros cs cl st σ2 q2 c2.
    pose proof (run_sides_apart cs σ1 q c Hap) as Hap2.
    fold st σ2 q2 c2 in Hap2. simpl in Hap2. split.
    + by destruct (apart_step σ2 q2 c2 cl Hap2).
    + by destruct (apart_step σ2 c2 q2 cl (apart_sym _ _ _ Hap2)).
Qed.

(** ** [__copy__] *)


(** ** The fuel never runs out *)

Lemma terminates_ret {A} (a : A) : terminates (K:=K) (ret a).
Proof. by intros w. Qed.

Lemma terminates_raise {A} x : terminates (K:=K) (A:=A) (raise x).
Proof. by intros w. Qed.

Lemma terminates_bind {A B} (m : M (K:=K) A) (k : A → M (K:=K) B) :
  terminates m → (∀ a, terminates (k a)) → terminates (bind m k).
Proof.
  intros Hm Hk w. specialize (Hm w). unfold bind.
  destruct (m w) as [[a|x|] w']; [apply Hk|done|done].
Qed.

Lemma terminates_try {A B} (m : M (K:=K) A) caught (h : M (K:=K) B) k :
  terminates m → terminates h → (∀ a, terminates (k a)) →
  terminates (try_except_else m caught h k).
Proof.
  intros Hm Hh Hk w. specialize (Hm w). unfold try_except_else.
  destruct (m w) as [[a|x|] w']; [apply Hk| |done].
  destruct (decide (x = caught)); [apply Hh|done].
Qed.

Lemma terminates_heap_len : terminates (K:=K) heap_len.
Proof. by intros w. Qed.

Lemma terminates_heap_get i : terminates (K:=K) (heap_get i).
Proof. intros w. unfold heap_get. by destruct (heap w.2 !! i). Qed.

Lemma terminates_heap_set i e : terminates (heap_set i e).
Proof.
  intros w. unfold heap_set. by destruct (decide (i < length (heap w.2))).
Qed.

Lemma terminates_heap_append e : terminates (heap_append e).
Proof. by intros w. Qed.

Lemma terminates_heap_pop_last : terminates (K:=K) heap_pop_last.
Proof. intros w. unfold heap_pop_last. by destruct (last (heap w.2)). Qed.

Lemma terminates_finder_get (k : K) : terminates (finder_get k).
Proof. intros w. unfold finder_get. by destruct (nodefinder w.2 !! k). Qed.

Lemma terminates_finder_set (k : K) p : terminates (finder_set k p).
Proof. by intros w. Qed.

Lemma terminates_finder_pop (k : K) : terminates (finder_pop k).
Proof. intros w. unfold finder_pop. by destruct (nodefinder w.2 !! k). Qed.

Lemma terminates_finder_mem (k : K) : terminates (finder_mem k).
Proof. by intros w. Qed.

Lemma terminates_lt (a b : entry (K:=K)) : terminates (lt_ a b).
Proof. by intros w. Qed.

Lemma terminates_get_pkey e : terminates (get_pkey e).
Proof. by intros w. Qed.

Lemma terminates_set_pkey e v : terminates (set_pkey e v).
Proof. by intros w. Qed.

Lemma terminates_new_entry (k : K) v : terminates (new_entry k v).
Proof. by intros w. Qed.

Create HintDb fuel.

#[local] Hint Resolve terminates_ret terminates_raise terminates_heap_len
  terminates_heap_get terminates_heap_set terminates_heap_append
  terminates_heap_pop_last terminates_finder_get terminates_finder_set
  terminates_finder_pop terminates_finder_mem terminates_lt
  terminates_get_pkey terminates_set_pkey terminates_new_entry : fuel.

Ltac fuel_step :=
  first
    [ apply terminates_bind; [eauto with fuel|intros ?]
    | apply terminates_try; [eauto with fuel|eauto with fuel|intros ?] ].

Lemma fuel_enough_swim_loop fuel : ∀ e0 pos top,
  pos ≤ fuel → terminates (swim_loop fuel e0 pos top).
Proof.
  induction fuel as [|fuel IH]; intros e0 pos top Hpos.
  - rewrite swim_loop_0. destruct (decide (top < pos)); [lia|].
    apply terminates_ret.
  - rewrite swim_loop_S. destruct (decide (top < pos)); [|apply terminates_ret].
    fuel_step. fuel_step. destruct a0; [|apply terminates_ret].
    fuel_step. fuel_step. apply IH.
    pose proof (parent_lt pos ltac:(lia)). lia.
Qed.

(** [_swim] returns or raises, whatever the state. *)
Lemma fuel_enough_swim pos top : terminates (K:=K) (_swim pos top).
Proof.
  unfold _swim. fuel_step.
  apply terminates_bind; [by apply fuel_enough_swim_loop|intros p].
  fuel_step. eauto with fuel.
Qed.

Lemma terminates_pick_child cp : terminates (K:=K) (pick_child cp).
Proof.
  unfold pick_child. fuel_step.
  destruct (decide (cp + 1 < a)); [|apply terminates_ret].
  fuel_step. fuel_step. fuel_step.
  destruct a2; apply terminates_ret.
Qed.

Lemma pick_child_state cp w ch w' :
  pick_child cp w = (Ret ch, w') → w' = w ∧ cp ≤ ch.
Proof.
  unfold pick_child, bind, heap_len, heap_get, lt_, ret.
  repeat case_match; simplify_eq; intros; simplify_eq; split; (done || lia).
Qed.

Lemma fuel_enough_sink_loop fuel : ∀ pos cp w,
  length (heap w.2) ≤ fuel + cp →
  (sink_loop fuel pos cp w).1 ≠ OutOfFuel.
Proof.
  induction fuel as [|fuel IH]; intros pos cp w Hlen.
  - rewrite sink_loop_0. unfold bind, heap_len. simpl.
    destruct (decide (cp < length (heap w.2))); [lia|done].
  - rewrite sink_loop_S. unfold bind at 1, heap_len. simpl.
    destruct (decide (cp < length (heap w.2))); [|done].
    unfold bind at 1.
    pose proof (terminates_pick_child cp w) as Hpick.
    destruct (pick_child cp w) as [[ch|x|] w1] eqn:Hp; [|done|done].
    apply pick_child_state in Hp as [-> Hch].
    unfold bind at 1, heap_get.
    destruct (heap w.2 !! ch) as [ce|]; [|done].
    unfold bind at 1, heap_set.
    destruct (decide (pos < length (heap w.2))); [|done].
    unfold bind at 1, finder_set. simpl.
    apply IH. simpl. rewrite length_insert. lia.
Qed.

(** [_sink] returns or raises, whatever the state. *)
Lemma fuel_enough_sink top : terminates (K:=K) (_sink top).
Proof.
  intros w. rewrite sink_unfold. unfold bind at 1, heap_get.
  destruct (heap w.2 !! top) as [e0|]; [|done].
  unfold bind at 1, heap_len. simpl. unfold bind at 1.
  pose proof (fuel_enough_sink_loop (length (heap w.2)) top (2 * top + 1) w
                ltac:(lia)) as Hloop.
  destruct (sink_loop _ _ _ w) as [[p|x|] w1]; [|done|done].
  clear Hloop. revert w1. change (terminates (K:=K)
    (let! _ := heap_set p e0 in
     let! _ := finder_set (dkey e0) p in _swim p top)).
  fuel_step. fuel_step. apply fuel_enough_swim.
Qed.

#[local] Hint Resolve fuel_enough_swim fuel_enough_sink terminates_pick_child
  : fuel.

Lemma terminates_reposition pos : terminates (K:=K) (reposition pos).
Proof.
  unfold reposition. apply terminates_bind.
  - destruct (decide (0 < Z.shiftr (Z.of_nat pos - 1) 1)%Z);
      [|apply terminates_ret].
    fuel_step. fuel_step. eauto with fuel.
  - intros up. destruct up; [eauto with fuel|].
    fuel_step. destruct (decide (2 * pos + 1 < a)); [|apply terminates_ret].
    fuel_step. fuel_step. fuel_step. fuel_step.
    destruct a3; eauto with fuel.
Qed.

#[local] Hint Resolve terminates_reposition : fuel.

Lemma terminates_setitem (k : K) v : terminates (__setitem__ k v).
Proof.
  unfold __setitem__. apply terminates_try; [eauto with fuel| |].
  - fuel_step. fuel_step. fuel_step. fuel_step. eauto with fuel.
  - intros pos. fuel_step. fuel_step. eauto with fuel.
Qed.

Lemma terminates_delitem (k : K) : terminates (__delitem__ k).
Proof.
  unfold __delitem__. fuel_step. fuel_step. fuel_step.
  destruct (negb (is_ a0 a1)); [|apply terminates_ret].
  fuel_step. fuel_step. eauto with fuel.
Qed.

Lemma terminates_pop (k : K) default : terminates (pop k default).
Proof.
  unfold pop. apply terminates_try; [eauto with fuel| |].
  - destruct default; eauto with fuel.
  - intros pos. fuel_step. fuel_step. apply terminates_bind.
    + destruct (negb (is_ a a0)); [|apply terminates_ret].
      fuel_step. fuel_step. eauto with fuel.
    + intros _. eauto with fuel.
Qed.

Lemma terminates_popitem : terminates (K:=K) popitem.
Proof.
  unfold popitem. fuel_step. fuel_step. apply terminates_bind.
  - destruct (decide (0 < a0)); [|apply terminates_ret].
    fuel_step. fuel_step. fuel_step. fuel_step. apply terminates_ret.
  - intros e. fuel_step. fuel_step. apply terminates_ret.
Qed.

#[local] Hint Resolve terminates_setitem terminates_delitem terminates_pop
  terminates_popitem : fuel.

(** Every call of the public interface returns or raises. *)
Lemma fuel_enough_call (cl : call (K:=K)) : terminates (run_call cl).
Proof.
  destruct cl as [k v|k v|k v|k| |k default]; simpl.
  - eauto with fuel.
  - unfold additem. fuel_step. destruct a; eauto with fuel.
  - unfold updateitem. fuel_step. destruct (negb a); eauto with fuel.
  - eauto with fuel.
  - fuel_step. apply terminates_ret.
  - fuel_step. apply terminates_ret.
Qed.

Lemma terminates_for_each (l : list nat) (body : nat → M (K:=K) unit) :
  (∀ pos, terminates (body pos)) → terminates (for_each l body).
Proof.
  intros Hbody. induction l as [|pos l IH]; simpl; [apply terminates_ret|].
  apply terminates_bind; [apply Hbody|]. by intros _.
Qed.

(** The constructor returns or raises. *)
Lemma fuel_enough_init (items : list (K * Z)) : terminates (__init__ items).
Proof.
  unfold __init__. apply terminates_bind; [by intros w|intros _].
  apply terminates_bind.
  - generalize 0. induction items as [|[k v] items IH]; intros pos; simpl.
    + apply terminates_ret.
    + fuel_step. fuel_step. fuel_step. apply IH.
  - intros _. unfold _heapify. fuel_step.
    apply terminates_for_each. apply fuel_enough_sink.
Qed.

(** * More of the code *)

(** ** Where the entries of a subtree come from *)

Lemma swim_from_subtree σ c top h f pos h' f' :
  pos < length h → in_subtree top pos →
  _swim pos top (σ, PQDict h f c) = (Ret tt, (σ, PQDict h' f' c)) →
  ∀ i a, in_subtree top i → h' !! i = Some a →
         ∃ j, in_subtree top j ∧ h !! j = Some a.
Proof.
  intros Hpos Hsub Hrun.
  destruct (lookup_lt_is_Some_2 h pos Hpos) as [e0 He0].
  destruct (swim_rule
    (λ hv fv pos, in_subtree top pos
       ∧ ∀ i a, in_subtree top i → hv !! i = Some a →
                ∃ j, in_subtree top j ∧ h !! j = Some a)
    σ c top h f pos e0) as (p & h2 & f2 & Hrun2 & (_ & Hfrom) & _).
  - intros hv fv pos' pe (Hsub' & Hfrom) Htop Hpos' Hpe _.
    destruct (in_subtree_parent top pos' Hsub' ltac:(lia)) as [_ Hsubpp].
    split; [done|]. intros i a Hi.
    rewrite (exchange_lookup hv pos' _ e0 pe i Hpos' Hpe).
    repeat case_decide; subst.
    + intros [= <-]. by apply (Hfrom pos').
    + intros [= <-]. by apply (Hfrom ((pos' - 1) / 2)).
    + by apply Hfrom.
  - done.
  - split; [done|]. intros i a Hi Ha. by exists i.
  - rewrite Hrun in Hrun2. by injection Hrun2 as <- <-.
Qed.

Lemma sink_from_subtree σ c top h f h' f' :
  top < length h →
  _sink top (σ, PQDict h f c) = (Ret tt, (σ, PQDict h' f' c)) →
  ∀ i a, in_subtree top i → h' !! i = Some a →
         ∃ j, in_subtree top j ∧ h !! j = Some a.
Proof.
  intros Htop Hrun.
  destruct (lookup_lt_is_Some_2 h top Htop) as [e0 He0].
  pose (J := λ (hv : list (entry (K:=K))) (fv : gmap K nat) (pos : nat),
    in_subtree top pos
    ∧ ∀ i a, in_subtree top i → hv !! i = Some a →
             ∃ j, in_subtree top j ∧ h !! j = Some a).
  destruct (sink_rule J J σ c h f top e0)
    as (p & h2 & f2 & Hrun2 & (_ & Hfrom) & _).
  - intros hv fv pos ch ce (Hsub & Hfrom) Hpos Hpick.
    destruct (picked_range _ _ _ _ _ Hpick) as [Hce Hch].
    assert (in_subtree top ch) as Hsubch.
    { assert (ch = 2 * pos + 1 ∨ ch = 2 * pos + 2) as [->| ->] by lia;
        [by apply in_subtree_left|by apply in_subtree_right]. }
    split; [done|]. intros i a Hi.
    rewrite (exchange_lookup hv pos ch e0 ce i Hpos Hce).
    repeat case_decide; subst.
    + intros [= <-]. by apply (Hfrom pos).
    + intros [= <-]. by apply (Hfrom ch).
    + by apply Hfrom.
  - done.
  - intros hv fv pos' pe (Hsub' & Hfrom) Htop' Hpos' Hpe _.
    destruct (in_subtree_parent top pos' Hsub' ltac:(lia)) as [_ Hsubpp].
    split; [done|]. intros i a Hi.
    rewrite (exchange_lookup hv pos' _ e0 pe i Hpos' Hpe).
    repeat case_decide; subst.
    + intros [= <-]. by apply (Hfrom pos').
    + intros [= <-]. by apply (Hfrom ((pos' - 1) / 2)).
    + by apply Hfrom.
  - done.
  - split; [constructor|]. intros i a Hi Ha. by exists i.
  - rewrite Hrun in Hrun2. by injection Hrun2 as <- <-.
Qed.

(** In a heap that is ordered below [pos], no strict descendant of [pos]
    ranks higher than an entry [b] that no child of [pos] outranks. *)
Lemma descendants_below σ c h pos b :
  uniform c h →
  (∀ p a a', in_subtree pos p → p ≠ pos → (p - 1) / 2 ≠ pos →
             h !! p = Some a → h !! ((p - 1) / 2) = Some a' →
             entry_lt σ a a' = false) →
  (∀ ch a, ch = 2 * pos + 1 ∨ ch = 2 * pos + 2 →
           h !! ch = Some a → entry_lt σ a b = false) →
  ∀ j a, in_subtree pos j → j ≠ pos → h !! j = Some a →
         entry_lt σ a b = false.
Proof.
  intros Huni Hedge Hkids j a Hj. revert a.
  induction Hj as [|j Hj0 Hsub IH]; intros a Hne Ha; [done|].
  destruct (decide ((j - 1) / 2 = pos)) as [Heq|Hnp].
  { apply (Hkids j); [|done]. by apply child_of. }
  pose proof (parent_lt j Hj0) as Hlt.
  destruct (lookup_lt_is_Some_2 h ((j - 1) / 2)) as [a' Ha'].
  { apply lookup_lt_Some in Ha. lia. }
  eapply (lt_false_trans σ c a a' b).
  - by eapply uniform_lookup.
  - by eapply uniform_lookup.
  - apply (Hedge j); [|done..]. by apply in_subtree_child.
  - by apply IH.
Qed.

(** ** The repair keeps the heap order, but for a parent at the root *)

(** The three ways [reposition] goes, each with what the tests found. *)
Lemma reposition_cases_why σ h f c pos a :
  h !! pos = Some a →
  let w := (σ, PQDict h f c) in
  (reposition pos w = _swim pos 0 w
   ∧ 0 < (pos - 1) / 2
   ∧ ∃ b, h !! ((pos - 1) / 2) = Some b ∧ entry_lt σ a b = true)
  ∨ ((0 < (pos - 1) / 2 →
      ∃ b, h !! ((pos - 1) / 2) = Some b ∧ entry_lt σ a b = false)
     ∧ ((reposition pos w = _sink pos w
         ∧ ∃ ch ce, picked σ h (2 * pos + 1) ch ce ∧ entry_lt σ ce a = true)
        ∨ (reposition pos w = (Ret tt, w)
           ∧ (2 * pos + 1 < length h →
              ∃ ch ce, picked σ h (2 * pos + 1) ch ce
                       ∧ entry_lt σ ce a = false)))).
Proof.
  intros Ha w. unfold reposition.
  pose proof (lookup_lt_Some _ _ _ Ha) as Hpos.
  assert (Z.shiftr (Z.of_nat pos - 1) 1 = ((Z.of_nat pos - 1) / 2)%Z) as Hsh.
  { rewrite Z.shiftr_div_pow2 by lia. reflexivity. }
  rewrite Hsh.
  assert (∃ up, (∀ A (k : bool → M A),
    (let! up :=
       (if decide (0 < (Z.of_nat pos - 1) / 2)%Z then
          let! a := heap_get pos in
          let! b := heap_get (Z.to_nat ((Z.of_nat pos - 1) / 2)) in
          lt_ a b
        else ret false) in k up) w = k up w)
    ∧ (up = true → 0 < (pos - 1) / 2
         ∧ ∃ b, h !! ((pos - 1) / 2) = Some b ∧ entry_lt σ a b = true)
    ∧ (up = false → 0 < (pos - 1) / 2 →
         ∃ b, h !! ((pos - 1) / 2) = Some b ∧ entry_lt σ a b = false))
    as (up & Hup & Htrue & Hfalse).
  { destruct (decide (0 < (Z.of_nat pos - 1) / 2)%Z) as [Hpp|Hpp].
    - assert (Z.to_nat ((Z.of_nat pos - 1) / 2) = (pos - 1) / 2) as Hnat by lia.
      rewrite Hnat.
      destruct (lookup_lt_is_Some_2 h ((pos - 1) / 2)) as [b Hb]; [lia|].
      exists (entry_lt σ a b). split_and!.
      + intros A k. unfold w, bind, heap_get, lt_. simpl.
        rewrite Ha. simpl. by rewrite Hb.
      + intros Hlt. split; [lia|]. by exists b.
      + intros Hlt _. by exists b.
    - exists false. split_and!; [done|done|]. intros _ Hp. lia. }
  rewrite Hup. destruct up.
  { left. destruct (Htrue eq_refl) as [? ?]. done. }
  right. split; [by apply Hfalse|].
  match goal with |- (?l = _ ∧ _) ∨ _ => remember l as r eqn:Hr end.
  unfold bind at 1, heap_len in Hr. simpl in Hr.
  destruct (decide (2 * pos + 1 < length h)) as [Hc|Hc].
  2:{ right. split; [done|]. intros ?. lia. }
  destruct (pick_child_run σ h f c _ Hc) as (ch & ce & Hrun & Hpick).
  destruct (picked_range _ _ _ _ _ Hpick) as [Hce _].
  unfold w in Hr.
  rewrite (bind_Ret _ _ _ _ _ Hrun) in Hr.
  rewrite (bind_Ret _ _ _ _ _ (heap_get_Some σ h f c _ _ Hce)) in Hr.
  rewrite (bind_Ret _ _ _ _ _ (heap_get_Some σ h f c _ _ Ha)) in Hr.
  unfold bind at 1, lt_ in Hr. simpl in Hr.
  destruct (entry_lt σ ce a) eqn:Hlt.
  - left. split; [done|]. by exists ch, ce.
  - right. split; [done|]. intros _. by exists ch, ce.
Qed.

Lemma in_subtree_or_not top p : in_subtree top p ∨ ¬ in_subtree top p.
Proof.
  induction (lt_wf p) as [p _ IH].
  destruct (decide (p = top)) as [->|Hne]; [left; constructor|].
  destruct (decide (p = 0)) as [->|Hp0].
  { right. intros Hin. apply in_subtree_parent in Hin; [|done]. lia. }
  destruct (IH ((p - 1) / 2) (parent_lt p ltac:(lia))) as [Hin|Hnin].
  - left. apply in_subtree_child; [lia|done].
  - right. intros Hin. apply Hnin. by apply in_subtree_parent.
Qed.

Lemma reposition_ordered σ c h f pos a :
  h !! pos = Some a → index_fwd h f → sink_inv σ c 0 h pos →
  (0 < pos → (pos - 1) / 2 = 0 →
   ∀ r, h !! 0 = Some r → entry_lt σ a r = false) →
  ∃ h' f',
    reposition pos (σ, PQDict h f c) = (Ret tt, (σ, PQDict h' f' c))
    ∧ h' ≡ₚ h ∧ index_fwd h' f' ∧ index_frame h f f'
    ∧ heap_ordered σ 0 h'.
Proof.
  intros Ha Hfwd (Hsub & Huni & Hedge & Hkids) Hroot.
  pose proof (lookup_lt_Some _ _ _ Ha) as Hpos.
  pose proof (uniform_lookup c h _ _ Huni Ha) as Hca.
  destruct (reposition_cases_why σ h f c pos a Ha)
    as [(-> & Hpp & b & Hb & Hlt)|[Hnotup Hdown]].
  - (* the entry swims *)
    pose proof (uniform_lookup c h _ _ Huni Hb) as Hcb.
    destruct (swim_full σ c 0 h f pos a Ha Hfwd)
      as (h' & f' & Hrun & (Hperm & Hfwd' & Hfr & _) & Hord).
    { split_and!; [done|done| |done].
      intros p x y Hp Hp0 Hppos Hx Hy.
      destruct (decide ((p - 1) / 2 = pos)) as [Heq|Hne];
        [|by apply (Hedge p x y)].
      rewrite Heq in Hy. assert (y = a) as -> by congruence.
      eapply (lt_false_true σ c x b a); [by eapply uniform_lookup|done| |done].
      apply (Hkids ltac:(lia) p x b); [|done..]. apply child_of; lia. }
    by exists h', f'.
  - assert (pos ≠ 0 → ∀ b, h !! ((pos - 1) / 2) = Some b →
            entry_lt σ a b = false) as Hparent.
    { intros Hp0 b Hb. destruct (decide (0 < (pos - 1) / 2)) as [Hpp|Hpp].
      - destruct (Hnotup Hpp) as (b' & Hb' & Hlt). congruence.
      - assert ((pos - 1) / 2 = 0) as Hz by lia. rewrite Hz in Hb.
        apply Hroot; [lia|done..]. }
    destruct Hdown as [(-> & ch & ce & Hpick & Hlt)|(-> & Hstay)].
    + (* the entry sinks *)
      destruct (sink_full σ c pos h f Hpos Hfwd Huni)
        as (h' & f' & Hrun & (Hperm & Hfwd' & Hfr & Hout) & Hord).
      { intros p x y Hp Hppos Hpp Hx Hy.
        pose proof (in_subtree_ge pos p Hp).
        apply (Hedge p x y); [apply in_subtree_0|lia|done..]. }
      exists h', f'. split_and!; [done..|].
      intros p x y _ Hp0 Hx Hy.
      pose proof (parent_lt p ltac:(lia)) as Hplt.
      destruct (decide (p = pos)) as [->|Hnepos].
      * (* the edge above [pos] *)
        rewrite Hout in Hy.
        2:{ intros Hin. apply in_subtree_ge in Hin. lia. }
        destruct (sink_from_subtree σ c pos h f h' f' Hpos Hrun pos x
                    (in_subtree_top pos) Hx) as (j & Hj & Hjx).
        destruct (decide (j = pos)) as [->|Hjne].
        { assert (x = a) as -> by congruence. by apply Hparent. }
        apply (descendants_below σ c h pos y Huni) with (j := j); try done.
        -- intros q u v Hq Hqpos Hqq Hu Hv.
           pose proof (in_subtree_ge pos q Hq).
           apply (Hedge q u v); [apply in_subtree_0|lia|done..].
        -- intros q u Hq Hu. by apply (Hkids Hp0 q u y).
      * destruct (in_subtree_or_not pos p) as [Hin|Hnin].
        { by apply (Hord p x y). }
        assert (¬ in_subtree pos ((p - 1) / 2)) as Hnin'.
        { intros Hin. apply Hnin. apply in_subtree_child; [lia|done]. }
        rewrite Hout in Hx, Hy by done.
        apply (Hedge p x y); [apply in_subtree_0|done..| |done|done].
        intros Heq. apply Hnin'. rewrite Heq. constructor.
    + (* the entry stays *)
      exists h, f. split_and!; [done..|].
      intros p x y _ Hp0 Hx Hy.
      destruct (decide (p = pos)) as [->|Hnepos].
      { assert (x = a) as -> by congruence. by apply Hparent. }
      destruct (decide ((p - 1) / 2 = pos)) as [Heq|Hne];
        [|by apply (Hedge p x y (in_subtree_0 p))].
      rewrite Heq in Hy. assert (y = a) as -> by congruence.
      assert (p = 2 * pos + 1 ∨ p = 2 * pos + 2) as Hpc by (apply child_of; lia).
      pose proof (lookup_lt_Some _ _ _ Hx) as Hplen.
      destruct (Hstay ltac:(lia)) as (ch & ce & Hpick & Hlt).
      destruct (picked_range _ _ _ _ _ Hpick) as [Hce Hch].
      pose proof (uniform_lookup c h _ _ Huni Hx) as Hcx.
      pose proof (uniform_lookup c h _ _ Huni Hce) as Hcce.
      destruct (decide (p = ch)) as [->|Hpch].
      { congruence. }
      eapply (lt_false_trans σ c x ce a); [done..| |done].
      destruct Hpick as [(-> & _ & Hright)|(-> & _ & l & Hl & Hlce)].
      * assert (p = 2 * pos + 1 + 1) as -> by lia.
        eapply lt_asym; [done..|]. by apply Hright.
      * assert (p = 2 * pos + 1) as -> by lia. congruence.
Qed.

(** ** Removing an entry keeps the heap order *)

Lemma heap_ordered_init σ init l :
  heap_ordered (K:=K) σ 0 (init ++ [l]) → heap_ordered σ 0 init.
Proof.
  intros Hord p a b Hp Hp0 Ha Hb.
  apply (Hord p a b Hp Hp0); by apply lookup_app_l_Some.
Qed.

Lemma fill_hole_sink_inv σ c init l pos e :
  uniform c (init ++ [l]) → heap_ordered σ 0 (init ++ [l]) →
  init !! pos = Some e →
  sink_inv σ c 0 (<[pos:=l]> init) pos
  ∧ (0 < pos → (pos - 1) / 2 = 0 →
     ∀ r, <[pos:=l]> init !! 0 = Some r → entry_lt σ l r = false).
Proof.
  intros Huni Hord He.
  pose proof (lookup_lt_Some _ _ _ He) as Hpos.
  assert (∀ i x, i ≠ pos → <[pos:=l]> init !! i = Some x →
                 (init ++ [l]) !! i = Some x) as Hother.
  { intros i x Hi Hx. rewrite list_lookup_insert_ne in Hx by done.
    by apply lookup_app_l_Some. }
  assert ((init ++ [l]) !! pos = Some e) as He' by by apply lookup_app_l_Some.
  assert (cls l = c) as Hcl.
  { apply Huni. apply elem_of_app. right. by apply list_elem_of_singleton. }
  split; [split_and!|].
  - apply in_subtree_0.
  - intros x Hx. apply list_elem_of_lookup in Hx as [i Hi].
    destruct (decide (i = pos)) as [->|Hne].
    + rewrite list_lookup_insert_eq in Hi by done. congruence.
    + apply Huni. eapply list_elem_of_lookup_2. by apply Hother.
  - intros p x y Hp Hp0 Hppos Hpp Hx Hy.
    apply (Hord p x y Hp Hp0); by apply Hother.
  - intros Hp0 ch x y Hch Hx Hy.
    pose proof (parent_lt pos ltac:(lia)).
    apply Hother in Hx; [|lia]. apply Hother in Hy; [|lia].
    eapply (lt_false_trans σ c x e y).
    + by eapply uniform_lookup.
    + by eapply uniform_lookup.
    + apply (Hord ch x e (in_subtree_0 ch)); [lia|done|].
      replace ((ch - 1) / 2) with pos by lia. done.
    + apply (Hord pos e y (in_subtree_0 pos)); [lia|done..].
  - intros Hp0 Hpp r Hr. apply Hother in Hr; [|lia].
    apply entry_lt_false. rewrite Hcl.
    eapply (root_top σ c (init ++ [l]) r Hord Huni Hr (length init) l).
    rewrite lookup_app_r by lia. by rewrite Nat.sub_diag.
Qed.

Lemma fill_hole_ordered σ init l f c pos e h' f' :
  index_ok (init ++ [l]) f → NoDup (oid <$> init ++ [l]) →
  (init ++ [l]) !! pos = Some e →
  uniform c (init ++ [l]) → heap_ordered σ 0 (init ++ [l]) →
  (if negb (is_ e l) then
     let! _ := heap_set pos l in
     let! _ := finder_set (dkey l) pos in
     reposition pos
   else ret tt) (σ, PQDict init (delete (dkey e) f) c)
  = (Ret tt, (σ, PQDict h' f' c)) →
  heap_ordered σ 0 h'.
Proof.
  intros Hok Hnd Hpos Huni Hord.
  assert ((init ++ [l]) !! length init = Some l) as Hl.
  { rewrite lookup_app_r by lia. by rewrite Nat.sub_diag. }
  assert (is_ e l = bool_decide (pos = length init)) as ->.
  { unfold is_. apply bool_decide_ext. split.
    - intros Ho. apply (NoDup_lookup _ _ _ (oid e) Hnd);
        rewrite list_lookup_fmap; [by rewrite Hpos|by rewrite Hl, Ho].
    - intros ->. congruence. }
  destruct (decide (pos = length init)) as [->|Hne].
  - rewrite bool_decide_true by done. simpl. intros [= <- _].
    by eapply heap_ordered_init.
  - rewrite bool_decide_false by done. simpl.
    assert (pos < length init) as Hlt.
    { apply lookup_lt_Some in Hpos. rewrite length_app in Hpos.
      simpl in Hpos. lia. }
    rewrite lookup_app_l in Hpos by done.
    rewrite (bind_Ret _ _ _ _ _ (heap_set_lt σ init _ c pos l Hlt)).
    unfold bind at 1, finder_set, set_finder. simpl.
    destruct (fill_hole_sink_inv σ c init l pos e Huni Hord Hpos)
      as [Hinv Hroot].
    destruct (reposition_ordered σ c (<[pos:=l]> init)
                (<[dkey l:=pos]> (delete (dkey e) f)) pos l)
      as (h2 & f2 & Hrun & _ & _ & _ & Hord2); [| |done|done|].
    + by apply list_lookup_insert_eq.
    + pose proof (fill_hole_fwd init l e f pos (proj1 Hok) Hpos) as Hfwd1.
      pose proof (fill_hole_perm init l e pos Hpos) as Hperm.
      pose proof (index_fwd_NoDup _ _ (proj1 Hok)) as Hndk.
      rewrite Hperm, fmap_cons in Hndk.
      apply NoDup_cons in Hndk as [Hnotin _].
      assert (dkey e ≠ dkey l) as Hel.
      { intros Heq. apply Hnotin. rewrite Heq.
        apply list_elem_of_fmap. exists l. split; [done|].
        apply (list_elem_of_lookup_2 _ pos). by apply list_lookup_insert_eq. }
      rewrite <- delete_insert_ne by done. by apply index_fwd_delete.
    + rewrite Hrun. by intros [= <- _].
Qed.

Lemma good_removed σ h f c e h' f' :
  good (σ, PQDict h f c) → h ≡ₚ e :: h' →
  wf (σ, PQDict h' f' c) → heap_ordered σ 0 h' →
  good (σ, PQDict h' f' c).
Proof.
  intros (_ & Huni & _) Hperm Hwf Hord. unfold good. simpl in *.
  split_and!; [done| |done].
  intros a Ha. apply Huni. rewrite Hperm. by right.
Qed.

Lemma delitem_ordered σ h f c k pos :
  good (σ, PQDict h f c) → f !! k = Some pos →
  ∃ e h' f',
    h !! pos = Some e ∧ dkey e = k
    ∧ __delitem__ k (σ, PQDict h f c) = (Ret tt, (σ, PQDict h' f' c))
    ∧ h ≡ₚ e :: h' ∧ good (σ, PQDict h' f' c).
Proof.
  intros Hgood Hk. pose proof Hgood as (Hwf & Huni & Hord).
  pose proof Hwf as (Hok & Hnd & Hval). simpl in *.
  destruct (wf_delitem σ h f c k pos Hwf Hk)
    as (e & h' & f' & He & Hke & Hrun & Hperm & Hwf' & _).
  exists e, h', f'. split_and!; [done..|].
  eapply good_removed; [done..|].
  revert Hrun. unfold __delitem__.
  rewrite (try_Ret _ _ _ _ _ _ _ (finder_pop_Some σ h f c k pos Hk)).
  rewrite (bind_Ret _ _ _ _ _ (heap_get_Some σ h _ c _ _ He)).
  destruct (snoc_inv h) as [->|(init & l & ->)]; [done|].
  rewrite (bind_Ret _ _ _ _ _ (heap_pop_last_snoc σ init l _ c)).
  subst k. by apply fill_hole_ordered.
Qed.

Lemma pop_ordered σ h f c k default pos :
  good (σ, PQDict h f c) → f !! k = Some pos →
  ∃ e h' f',
    h !! pos = Some e ∧ dkey e = k
    ∧ pop k default (σ, PQDict h f c)
      = (Ret (pkey_of σ e), (σ, PQDict h' f' c))
    ∧ h ≡ₚ e :: h' ∧ good (σ, PQDict h' f' c).
Proof.
  intros Hgood Hk. pose proof Hgood as (Hwf & Huni & Hord).
  pose proof Hwf as (Hok & Hnd & Hval). simpl in *.
  destruct (wf_pop σ h f c k default pos Hwf Hk)
    as (e & h' & f' & He & Hke & Hrun & Hperm & Hwf' & _).
  exists e, h', f'. split_and!; [done..|].
  eapply good_removed; [done..|].
  revert Hrun. unfold pop.
  rewrite (try_Ret _ _ _ _ _ _ _ (finder_pop_Some σ h f c k pos Hk)).
  rewrite (bind_Ret _ _ _ _ _ (heap_get_Some σ h _ c _ _ He)).
  destruct (snoc_inv h) as [->|(init & l & ->)]; [done|].
  rewrite (bind_Ret _ _ _ _ _ (heap_pop_last_snoc σ init l _ c)).
  subst k.
  destruct (fill_hole_run σ init l f c pos e Hok Hnd He)
    as (h2 & f2 & Hrun2 & _).
  rewrite (bind_Ret _ _ _ _ _ Hrun2).
  unfold get_pkey. simpl. intros [= <- <-].
  by eapply fill_hole_ordered.
Qed.

(** ** Updating a priority keeps the heap order, but just below the root *)

Lemma pkey_of_other σ h (e x : entry (K:=K)) pos i v :
  NoDup (oid <$> h) → h !! pos = Some e → h !! i = Some x → i ≠ pos →
  pkey_of (<[oid e:=v]> σ) x = pkey_of σ x.
Proof.
  intros Hnd He Hx Hne. unfold pkey_of.
  rewrite list_lookup_insert_ne; [done|].
  intros Ho. apply Hne.
  apply (NoDup_lookup _ _ _ (oid e) Hnd);
    rewrite list_lookup_fmap; [by rewrite Hx, Ho|by rewrite He].
Qed.

Lemma entry_lt_other σ h (e x y : entry (K:=K)) pos i j v :
  NoDup (oid <$> h) → h !! pos = Some e →
  h !! i = Some x → h !! j = Some y → i ≠ pos → j ≠ pos →
  entry_lt (<[oid e:=v]> σ) x y = entry_lt σ x y.
Proof.
  intros Hnd He Hx Hy Hi Hj. unfold entry_lt.
  by rewrite (pkey_of_other σ h e x pos i v), (pkey_of_other σ h e y pos j v).
Qed.

Lemma setitem_update_ordered σ h f c k v pos :
  good (σ, PQDict h f c) → f !! k = Some pos →
  (0 < pos → (pos - 1) / 2 = 0 →
   ∀ r, h !! 0 = Some r → (rank c (pkey_of σ r) ≤ rank c v)%Z) →
  ∃ w', __setitem__ k v (σ, PQDict h f c) = (Ret tt, w') ∧ good w'.
Proof.
  intros (Hwf & Huni & Hord) Hk Hroot.
  pose proof Hwf as (Hok & Hnd & Hval). simpl in *.
  destruct (wf_setitem σ h f c k v Hwf) as (w' & Hrun & Hwf' & _).
  exists w'. split; [done|].
  destruct (setitem_update σ h f c k v pos Hok Hk)
    as (e & h' & f' & He & Hke & Hrun' & Hperm & Hok').
  rewrite Hrun in Hrun'. injection Hrun' as ->.
  unfold good. simpl. split_and!; [done|by eapply uniform_perm|].
  revert Hrun. unfold __setitem__.
  rewrite (try_Ret _ _ _ _ (σ, PQDict h f c) (σ, PQDict h f c) pos).
  2:{ unfold finder_get. simpl. by rewrite Hk. }
  rewrite (bind_Ret _ _ _ _ _ (heap_get_Some σ h f c _ _ He)).
  unfold bind at 1, set_pkey. simpl.
  pose proof (lookup_lt_Some _ _ _ He) as Hpos.
  assert (pkey_of (<[oid e:=v]> σ) e = v) as Hnew.
  { unfold pkey_of. rewrite list_lookup_insert_eq; [done|].
    apply Hval. by eapply list_elem_of_lookup_2. }
  destruct (reposition_ordered (<[oid e:=v]> σ) c h f pos e He (proj1 Hok))
    as (h2 & f2 & Hrun2 & _ & _ & _ & Hord2).
  - split_and!; [apply in_subtree_0|done| |].
    + intros p x y Hp Hp0 Hppos Hpp Hx Hy.
      rewrite (entry_lt_other σ h e x y pos p ((p - 1) / 2) v) by done.
      by apply (Hord p x y).
    + intros Hp0 ch x y Hch Hx Hy.
      pose proof (parent_lt pos ltac:(lia)).
      rewrite (entry_lt_other σ h e x y pos ch ((pos - 1) / 2) v)
        by (done || lia).
      eapply (lt_false_trans σ c x e y).
      * by eapply uniform_lookup.
      * by eapply uniform_lookup.
      * apply (Hord ch x e (in_subtree_0 ch)); [lia|done|].
        replace ((ch - 1) / 2) with pos by lia. done.
      * apply (Hord pos e y (in_subtree_0 pos)); [lia|done..].
  - intros Hp0 Hpp r Hr. apply entry_lt_false.
    rewrite (uniform_lookup c h _ _ Huni He), Hnew.
    rewrite (pkey_of_other σ h e r pos 0 v) by (done || lia).
    by apply Hroot.
  - rewrite Hrun2. by intros [= <- _].
Qed.

(** ** [_heapify] and the constructor *)

Lemma index_frame_trans h f h1 f1 f2 :
  h1 ≡ₚ h → index_frame h f f1 → index_frame h1 f1 f2 → index_frame h f f2.
Proof.
  intros Hperm H1 H2 k Hk. rewrite H2 by by rewrite Hperm. by apply H1.
Qed.

Lemma ordered_from_sink σ h f pos h' f' :
  ordered_from σ (S pos) h →
  kept pos h f h' f' → heap_ordered σ pos h' →
  ordered_from σ pos h'.
Proof.
  intros Hfrom (_ & _ & _ & Hout) Hord p a b Hp0 Hpp Ha Hb.
  destruct (in_subtree_or_not pos p) as [Hin|Hnin].
  - apply (Hord p a b Hin); [|done..].
    pose proof (parent_lt p Hp0). lia.
  - assert (¬ in_subtree pos ((p - 1) / 2)) as Hnin'.
    { intros Hin. apply Hnin. by apply in_subtree_child. }
    rewrite Hout in Ha, Hb by done.
    apply (Hfrom p a b); [done| |done..].
    assert ((p - 1) / 2 ≠ pos); [|lia].
    intros Heq. apply Hnin'. rewrite Heq. constructor.
Qed.

Lemma heapify_loop σ (c : entry_class) m : ∀ h f,
  2 * m ≤ length h → index_fwd h f → uniform c h → ordered_from σ m h →
  ∃ h' f',
    for_each (reverse (seq 0 m)) _sink (σ, PQDict h f c)
    = (Ret tt, (σ, PQDict h' f' c))
    ∧ h' ≡ₚ h ∧ index_fwd h' f' ∧ index_frame h f f'
    ∧ ordered_from σ 0 h'.
Proof.
  induction m as [|m IH]; intros h f Hlen Hfwd Huni Hfrom.
  { exists h, f. by split_and!. }
  rewrite seq_S, reverse_snoc. simpl.
  destruct (sink_full σ c m h f ltac:(lia) Hfwd Huni)
    as (h1 & f1 & Hrun1 & Hkept & Hord1).
  { intros p a b Hp Hpm Hpp Ha Hb.
    destruct (in_subtree_parent m p Hp Hpm) as [Hp0 Hsub].
    apply in_subtree_ge in Hsub.
    apply (Hfrom p a b); [done|lia|done..]. }
  pose proof Hkept as (Hperm1 & Hfwd1 & Hfr1 & _).
  destruct (IH h1 f1) as (h' & f' & Hrun & Hperm & Hfwd' & Hfr & Hfrom').
  { rewrite Hperm1. lia. }
  { done. }
  { by eapply uniform_perm. }
  { by eapply ordered_from_sink. }
  exists h', f'. split_and!; [|by rewrite Hperm|done| |done].
  - by rewrite (bind_Ret _ _ _ _ _ Hrun1).
  - by eapply index_frame_trans.
Qed.

Lemma heapify_run σ c h f :
  index_ok h f → uniform c h →
  ∃ h' f',
    _heapify (σ, PQDict h f c) = (Ret tt, (σ, PQDict h' f' c))
    ∧ h' ≡ₚ h ∧ index_ok h' f' ∧ heap_ordered σ 0 h'.
Proof.
  intros Hok Huni. unfold _heapify, bind at 1, heap_len. simpl.
  destruct (heapify_loop σ c (length h / 2) h f)
    as (h' & f' & Hrun & Hperm & Hfwd & Hfr & Hfrom).
  { lia. }
  { apply Hok. }
  { done. }
  { intros p a b Hp0 Hpp Ha _. apply lookup_lt_Some in Ha. lia. }
  exists h', f'. split_and!; [done..|by eapply index_ok_frame|].
  intros p a b _ Hp0 Ha Hb. apply (Hfrom p a b); (done || lia).
Qed.

Lemma init_loop_run items : ∀ σ h f c,
  wf (σ, PQDict h f c) → uniform c h → NoDup items.*1 →
  (∀ k, k ∈ items.*1 → f !! k = None) →
  ∃ σ' h' f',
    init_loop items (length h) (σ, PQDict h f c)
    = (Ret tt, (σ', PQDict h' f' c))
    ∧ wf (σ', PQDict h' f' c) ∧ uniform c h'
    ∧ contents σ' h' = contents σ h ++ items.
Proof.
  induction items as [|[k v] items IH]; intros σ h f c Hwf Huni Hnd Hfresh.
  { exists σ, h, f. split_and!; [done..|]. by rewrite app_nil_r. }
  pose proof Hwf as (Hok & Hndo & Hval). simpl in *.
  apply NoDup_cons in Hnd as [Hk Hnd].
  set (e := Entry (length σ) k c).
  assert (f !! k = None) as Hfk by (apply Hfresh; by left).
  pose proof (index_ok_snoc h f e Hok Hfk) as Hok1.
  destruct (IH (σ ++ [v]) (h ++ [e]) (<[k:=length h]> f) c)
    as (σ' & h' & f' & Hrun & Hwf' & Huni' & Hcont).
  - unfold wf. simpl. split_and!; [done| |].
    + rewrite fmap_app. simpl.
      apply NoDup_app. split_and!; [done| |apply NoDup_singleton].
      intros o Ho Ho'. apply list_elem_of_singleton in Ho'. subst o.
      apply list_elem_of_fmap in Ho as (a & Hoa & Ha).
      apply Hval in Ha. lia.
    + intros a Ha. rewrite length_app. simpl.
      apply elem_of_app in Ha as [Ha|Ha].
      * apply Hval in Ha. lia.
      * apply list_elem_of_singleton in Ha. subst a. simpl. lia.
  - intros a Ha. apply elem_of_app in Ha as [Ha|Ha]; [by apply Huni|].
    apply list_elem_of_singleton in Ha. by subst a.
  - done.
  - intros k' Hk'. rewrite lookup_insert_ne; [apply Hfresh; by right|].
    intros <-. done.
  - exists σ', h', f'. split_and!; [|done..|].
    + unfold bind at 1, new_entry. simpl.
      unfold bind at 1, heap_append, set_heap. simpl.
      unfold bind at 1, finder_set, set_finder. simpl.
      rewrite length_app in Hrun. simpl in Hrun. exact Hrun.
    + rewrite Hcont. unfold e. rewrite contents_app_new by done.
      by rewrite <- app_assoc.
Qed.

Lemma construct_run σ c (items : list (K * Z)) :
  NoDup items.*1 →
  ∃ w',
    construct c items σ = (Ret tt, w') ∧ good w'
    ∧ create_entry w'.2 = c
    ∧ contents w'.1 (heap w'.2) ≡ₚ items.
Proof.
  intros Hnd. unfold construct, __init__. unfold bind at 1. simpl.
  destruct (init_loop_run items σ [] ∅ c (wf_empty σ c))
    as (σ' & h1 & f1 & Hrun1 & Hwf1 & Huni1 & Hcont); [|done|done|].
  { by intros e He%elem_of_nil. }
  simpl in Hrun1, Hcont. rewrite (bind_Ret _ _ _ _ _ Hrun1).
  pose proof Hwf1 as (Hok1 & Hndo & Hval). simpl in *.
  destruct (heapify_run σ' c h1 f1 Hok1 Huni1)
    as (h' & f' & Hrun & Hperm & Hok & Hord).
  exists (σ', PQDict h' f' c). split_and!; [done| |done|].
  - unfold good, wf. simpl. split_and!; [done| | | |done].
    + by rewrite Hperm.
    + intros e He. apply Hval. by rewrite <- Hperm.
    + by eapply uniform_perm.
  - simpl. rewrite <- Hcont. unfold contents. by rewrite Hperm.
Qed.

(** ** Priorities before and after a call *)

Lemma priority_of_None w k :
  wf w → priority_of w k = None ↔ nodefinder w.2 !! k = None.
Proof.
  destruct w as [σ [h f c]]. intros (Hok & _). simpl in *.
  unfold priority_of. simpl. split.
  - destruct (f !! k) as [p|] eqn:Hk; [|done]. simpl.
    destruct (proj2 Hok k p Hk) as (e & He & _). by rewrite He.
  - by intros ->.
Qed.

Lemma getitem_outcome w k :
  wf w →
  __getitem__ k w
  = (match priority_of w k with
     | Some v => Ret v
     | None => Raise KeyError
     end, w).
Proof.
  intros Hwf. destruct (nodefinder w.2 !! k) as [p|] eqn:Hk.
  - destruct (getitem_priority_of w k Hwf ltac:(by rewrite Hk))
      as (v & -> & Hget). done.
  - rewrite (proj2 (priority_of_None w k Hwf) Hk).
    destruct w as [σ [h f c]]. simpl in *.
    unfold __getitem__, bind, finder_get. simpl. by rewrite Hk.
Qed.

Lemma contains_priority_of w k :
  wf w → (__contains__ k w).1 = Ret (bool_decide (is_Some (priority_of w k))).
Proof.
  intros Hwf. unfold __contains__, finder_mem. simpl. f_equal.
  apply bool_decide_ext. rewrite <- !not_eq_None_Some.
  by rewrite (priority_of_None w k Hwf).
Qed.

Lemma priority_of_contents σ h f c k v :
  index_ok h f →
  priority_of (σ, PQDict h f c) k = Some v ↔ (k, v) ∈ contents σ h.
Proof.
  intros Hok. split.
  - intros Hk. destruct (priority_of_Some σ h f c k v Hok Hk)
      as (e & He & <- & <-).
    apply list_elem_of_fmap. by exists e.
  - intros Hin. apply list_elem_of_fmap in Hin as (e & [= -> ->] & He).
    by apply priority_of_elem.
Qed.

Lemma removed_priorities σ h f c e h' f' :
  wf (σ, PQDict h f c) → h ≡ₚ e :: h' → index_ok h' f' →
  ∀ k, priority_of (σ, PQDict h' f' c) k
       = if decide (k = dkey e) then None
         else priority_of (σ, PQDict h f c) k.
Proof.
  intros Hwf Hperm Hok' k. pose proof Hwf as (Hok & _). simpl in *.
  destruct (wf_removed σ h f c e h' f' Hwf Hperm Hok') as [Hwf' Hfwd].
  destruct (priority_of (σ, PQDict h' f' c) k) as [v|] eqn:Hk.
  - destruct (Hfwd k v Hk) as [Hne ->]. by rewrite decide_False.
  - destruct (decide (k = dkey e)) as [->|Hne]; [done|].
    destruct (priority_of (σ, PQDict h f c) k) as [v|] eqn:Hk0; [|done].
    destruct (priority_of_Some σ h f c k v Hok Hk0) as (a & Ha & <- & <-).
    rewrite Hperm in Ha. apply elem_of_cons in Ha as [->|Ha]; [done|].
    by rewrite (priority_of_elem σ h' f' c a Hok' Ha) in Hk.
Qed.

Lemma setitem_full σ h f c k v :
  wf (σ, PQDict h f c) →
  ∃ σ' h' f',
    __setitem__ k v (σ, PQDict h f c) = (Ret tt, (σ', PQDict h' f' c))
    ∧ wf (σ', PQDict h' f' c)
    ∧ (∀ k', priority_of (σ', PQDict h' f' c) k'
             = if decide (k' = k) then Some v
               else priority_of (σ, PQDict h f c) k')
    ∧ length h' = (if f !! k is Some _ then length h else S (length h)).
Proof.
  intros Hwf. pose proof Hwf as (Hok & Hnd & Hval). simpl in *.
  destruct (wf_setitem σ h f c k v Hwf)
    as ([σ' [h' f' c']] & Hrun & Hwf' & _ & Hk & Hfwd).
  pose proof Hwf' as (Hok' & _). simpl in Hok'.
  assert (c' = c ∧ (∀ a, a ∈ h → a ∈ h')
          ∧ length h' = (if f !! k is Some _ then length h else S (length h)))
    as (-> & Hkeep & Hlen).
  { destruct (f !! k) as [pos|] eqn:Hfk.
    - destruct (setitem_update σ h f c k v pos Hok Hfk)
        as (e & h2 & f2 & _ & _ & Hrun2 & Hperm & _).
      rewrite Hrun in Hrun2. injection Hrun2 as -> -> -> ->.
      split_and!; [done| |by rewrite Hperm].
      intros a Ha. by rewrite Hperm.
    - destruct (setitem_new σ h f c k v Hok Hfk)
        as (h2 & f2 & Hrun2 & Hperm & _).
      rewrite Hrun in Hrun2. injection Hrun2 as -> -> -> ->.
      split_and!; [done| |].
      + intros a Ha. rewrite Hperm. apply elem_of_app. by left.
      + rewrite Hperm, length_app. simpl. lia. }
  exists σ', h', f'. split_and!; [done..| |done].
  intros k'. destruct (decide (k' = k)) as [->|Hne]; [done|].
  destruct (priority_of (σ', PQDict h' f' c) k') as [x|] eqn:Hk'.
  - symmetry. by apply Hfwd.
  - destruct (priority_of (σ, PQDict h f c) k') as [x|] eqn:Hk0; [|done].
    destruct (priority_of_Some σ h f c k' x Hok Hk0) as (a & Ha & <- & <-).
    by rewrite (priority_of_elem σ' h' f' c a Hok' (Hkeep a Ha)) in Hk'.
Qed.

Lemma setitem_new_good σ h f c k v :
  good (σ, PQDict h f c) → f !! k = None →
  ∃ w', __setitem__ k v (σ, PQDict h f c) = (Ret tt, w') ∧ good w'.
Proof.
  intros (Hwf & Huni & Hord) Hk. pose proof Hwf as (Hok & Hnd & Hval).
  simpl in *.
  destruct (setitem_new_ordered σ h f c k v Hok Hk Hval Huni Hord)
    as (h' & f' & Hrun & Hperm & Hok' & Hord').
  destruct (wf_setitem σ h f c k v Hwf) as (w' & Hrun' & Hwf' & _).
  rewrite Hrun in Hrun'. injection Hrun' as <-.
  exists (σ ++ [v], PQDict h' f' c). split; [done|].
  unfold good. simpl. split_and!; [done| |done].
  intros a Ha. rewrite Hperm in Ha.
  apply elem_of_app in Ha as [Ha|Ha]; [by apply Huni|].
  apply list_elem_of_singleton in Ha. by subst a.
Qed.

Lemma popitem_good σ h f c e :
  good (σ, PQDict h f c) → h !! 0 = Some e →
  ∃ h' f',
    popitem (σ, PQDict h f c)
    = (Ret (dkey e, pkey_of σ e), (σ, PQDict h' f' c))
    ∧ h ≡ₚ e :: h' ∧ good (σ, PQDict h' f' c).
Proof.
  intros Hgood He. pose proof Hgood as (Hwf & Huni & Hord).
  pose proof Hwf as (Hok & _). simpl in *.
  destruct (wf_popitem σ h f c e Hwf He)
    as (h' & f' & Hrun & Hperm & Hwf' & _).
  destruct (popitem_nonempty σ h f c e Hok He)
    as (h2 & f2 & Hrun2 & _ & _ & Hord2).
  rewrite Hrun in Hrun2. injection Hrun2 as <- <-.
  exists h', f'. split_and!; [done..|].
  eapply good_removed; [done..|]. by apply Hord2.
Qed.

Lemma run_call_good cl w :
  no_update cl = true → good w → good (run_call cl w).2.
Proof.
  destruct w as [σ [h f c]]. intros Hcl Hgood.
  pose proof Hgood as (Hwf & _).
  destruct cl as [k v|k v|k v|k| |k default]; try done; simpl.
  - destruct (f !! k) as [pos|] eqn:Hk.
    + by rewrite additem_present by by rewrite Hk.
    + rewrite additem_absent by done.
      by destruct (setitem_new_good σ h f c k v Hgood Hk) as (w' & -> & ?).
  - destruct (f !! k) as [pos|] eqn:Hk.
    + by destruct (delitem_ordered σ h f c k pos Hgood Hk)
        as (e & h' & f' & _ & _ & -> & _ & ?).
    + by rewrite (delitem_absent σ h f c k Hk).
  - destruct h as [|e h0] eqn:Hh.
    + unfold bind. by rewrite popitem_empty.
    + rewrite <- Hh in *.
      destruct (popitem_good σ h f c e Hgood) as (h' & f' & Hrun & _ & ?).
      { by rewrite Hh. }
      by rewrite (bind_Ret _ _ _ _ _ Hrun).
  - destruct (f !! k) as [pos|] eqn:Hk.
    + destruct (pop_ordered σ h f c k default pos Hgood Hk)
        as (e & h' & f' & _ & _ & Hrun & _ & ?).
      by rewrite (bind_Ret _ _ _ _ _ Hrun).
    + destruct default as [d|].
      * by rewrite (bind_Ret _ _ _ _ _ (pop_absent_default σ h f c k d Hk)).
      * unfold bind. by rewrite (pop_absent_marker σ h f c k Hk).
Qed.

Lemma good_empty σ c : good (K:=K) (σ, PQDict [] ∅ c).
Proof.
  unfold good. simpl. split_and!; [apply wf_empty| |].
  - by intros e He%elem_of_nil.
  - by intros p a b.
Qed.

(** ** Further properties of the methods *)

Lemma contains_true w k :
  (__contains__ k w).1 = Ret true ↔ is_Some (nodefinder w.2 !! k).
Proof.
  unfold __contains__, finder_mem. simpl. split.
  - intros [= Hk]. by apply bool_decide_eq_true in Hk.
  - intros Hk. by rewrite bool_decide_true.
Qed.

Lemma contains_false w k :
  (__contains__ k w).1 = Ret false ↔ nodefinder w.2 !! k = None.
Proof.
  unfold __contains__, finder_mem. simpl. split.
  - intros [= Hk]. apply bool_decide_eq_false in Hk.
    by apply eq_None_not_Some.
  - intros Hk. rewrite bool_decide_false; [done|]. rewrite Hk.
    by intros [? ?].
Qed.

Lemma len_heap w : wf w → (__len__ w).1 = Ret (length (heap w.2)).
Proof.
  destruct w as [σ [h f c]]. intros (Hok & _). simpl in *.
  unfold __len__. simpl. by rewrite (index_ok_size h f Hok).
Qed.

Lemma peek_nonempty (w : world (K:=K)) :
  wf w →
  ((__len__ w).1 = Ret 0 → heap w.2 = [])
  ∧ ((__len__ w).1 ≠ Ret 0 →
     ∃ e, heap w.2 !! 0 = Some e
          ∧ peek w = (Ret (dkey e, pkey_of w.1 e), w)).
Proof.
  intros Hwf. pose proof (len_zero_heap w Hwf) as Hlen.
  destruct w as [σ [h f c]]. simpl in *. split; [apply Hlen|].
  intros Hnz. destruct h as [|e h0] eqn:Hh.
  { exfalso. by apply Hnz, Hlen. }
  exists e. split; [done|]. reflexivity.
Qed.

(** X1: the constructor, given pairs with pairwise distinct dkeys, returns a
    queue of the class asked for that satisfies I1 to I4, whose size is the
    number of pairs and in which [__getitem__] returns exactly the priorities
    given. *)
Theorem constructor_builds_heap σ c (items : list (K * Z)) :
  NoDup items.*1 →
  ∃ w',
    construct c items σ = (Ret tt, w') ∧ good w'
    ∧ create_entry w'.2 = c
    ∧ (__len__ w').1 = Ret (length items)
    ∧ ∀ k v, __getitem__ k w' = (Ret v, w') ↔ (k, v) ∈ items.
Proof.
  intros Hnd.
  destruct (construct_run σ c items Hnd) as (w' & Hrun & Hgood & Hc & Hcont).
  exists w'. pose proof Hgood as (Hwf & _). split_and!; [done..| |].
  - rewrite (len_heap w' Hwf). f_equal.
    apply Permutation_length in Hcont. unfold contents in Hcont.
    by rewrite length_fmap in Hcont.
  - intros k v. rewrite (getitem_outcome w' k Hwf).
    destruct w' as [σ' [h' f' c']]. pose proof Hwf as (Hok & _).
    simpl in *. rewrite <- Hcont.
    rewrite <- (priority_of_contents σ' h' f' c' k v Hok).
    split.
    + intros [= Hk]. destruct (priority_of _ k); [congruence|done].
    + by intros ->.
Qed.

(** X2: [_heapify], on any heap array with entries of one class and a right
    index, returns; it permutes the entries, the index is right for the new
    array, and the new array is in heap order. *)
Theorem heapify_restores_order σ c h f :
  index_ok h f → uniform c h →
  ∃ h' f',
    _heapify (σ, PQDict h f c) = (Ret tt, (σ, PQDict h' f' c))
    ∧ h' ≡ₚ h ∧ index_ok h' f' ∧ heap_ordered σ 0 h'.
Proof. apply heapify_run. Qed.

(** X3: on a queue as the methods leave it, [__setitem__] returns; then
    [__getitem__] of the dkey returns the priority just set, every other
    dkey is contained and has the priority it had before, and the size has
    grown by one if the dkey was absent and not at all if it was present. *)
Theorem setitem_then_getitem (w : world (K:=K)) (k : K) (v : Z) :
  wf w →
  ∃ w',
    __setitem__ k v w = (Ret tt, w') ∧ wf w'
    ∧ __getitem__ k w' = (Ret v, w')
    ∧ (∀ k', k' ≠ k →
         (__getitem__ k' w').1 = (__getitem__ k' w).1
         ∧ (__contains__ k' w').1 = (__contains__ k' w).1)
    ∧ ∃ n, (__len__ w).1 = Ret n
           ∧ (__len__ w').1
             = Ret (if nodefinder w.2 !! k is Some _ then n else S n).
Proof.
  intros Hwf. destruct w as [σ [h f c]].
  destruct (setitem_full σ h f c k v Hwf)
    as (σ' & h' & f' & Hrun & Hwf' & Hpri & Hlen).
  exists (σ', PQDict h' f' c). split_and!; [done..| | |].
  - rewrite (getitem_outcome _ k Hwf'), Hpri. by rewrite decide_True.
  - intros k' Hne. split.
    + rewrite (getitem_outcome _ k' Hwf'), (getitem_outcome _ k' Hwf), Hpri.
      by rewrite decide_False.
    + rewrite (contains_priority_of _ k' Hwf'), (contains_priority_of _ k' Hwf).
      rewrite Hpri. by rewrite decide_False.
  - exists (length h). rewrite (len_heap _ Hwf), (len_heap _ Hwf'). simpl.
    split; [done|]. rewrite Hlen. by destruct (f !! k).
Qed.

(** X4: on a queue as the methods leave it, [additem] raises KeyError and
    changes nothing when the dkey is present; when it is absent [additem]
    returns, the dkey has the priority given, the other dkeys keep theirs,
    and the size has grown by one. *)
Theorem additem_fails_iff_present (w : world (K:=K)) (k : K) (v : Z) :
  wf w →
  ((__contains__ k w).1 = Ret true → additem k v w = (Raise KeyError, w))
  ∧ ((__contains__ k w).1 = Ret false →
     ∃ w' n,
       additem k v w = (Ret tt, w') ∧ wf w'
       ∧ __getitem__ k w' = (Ret v, w')
       ∧ (∀ k', k' ≠ k → (__getitem__ k' w').1 = (__getitem__ k' w).1)
       ∧ (__len__ w).1 = Ret n ∧ (__len__ w').1 = Ret (S n)).
Proof.
  intros Hwf. destruct w as [σ [h f c]]. split.
  - intros Hk%contains_true. by apply additem_present.
  - intros Hk%contains_false. simpl in Hk.
    rewrite additem_absent by done.
    destruct (setitem_full σ h f c k v Hwf)
      as (σ' & h' & f' & Hrun & Hwf' & Hpri & Hlen).
    exists (σ', PQDict h' f' c), (length h). split_and!; [done..| | | |].
    + rewrite (getitem_outcome _ k Hwf'), Hpri. by rewrite decide_True.
    + intros k' Hne.
      rewrite (getitem_outcome _ k' Hwf'), (getitem_outcome _ k' Hwf), Hpri.
      by rewrite decide_False.
    + by rewrite (len_heap _ Hwf).
    + rewrite (len_heap _ Hwf'). simpl. rewrite Hlen. by rewrite Hk.
Qed.

(** X5: on a queue as the methods leave it, [updateitem] raises KeyError and
    changes nothing when the dkey is absent; when it is present [updateitem]
    returns, the dkey has the new priority, the other dkeys keep theirs, and
    the size is as before. *)
Theorem updateitem_fails_iff_absent (w : world (K:=K)) (k : K) (v : Z) :
  wf w →
  ((__contains__ k w).1 = Ret false → updateitem k v w = (Raise KeyError, w))
  ∧ ((__contains__ k w).1 = Ret true →
     ∃ w',
       updateitem k v w = (Ret tt, w') ∧ wf w'
       ∧ __getitem__ k w' = (Ret v, w')
       ∧ (∀ k', k' ≠ k → (__getitem__ k' w').1 = (__getitem__ k' w).1)
       ∧ (__len__ w').1 = (__len__ w).1).
Proof.
  intros Hwf. destruct w as [σ [h f c]]. split.
  - intros Hk%contains_false. by apply updateitem_absent.
  - intros Hk%contains_true. simpl in Hk.
    rewrite updateitem_present by done.
    destruct (setitem_full σ h f c k v Hwf)
      as (σ' & h' & f' & Hrun & Hwf' & Hpri & Hlen).
    exists (σ', PQDict h' f' c). split_and!; [done..| | |].
    + rewrite (getitem_outcome _ k Hwf'), Hpri. by rewrite decide_True.
    + intros k' Hne.
      rewrite (getitem_outcome _ k' Hwf'), (getitem_outcome _ k' Hwf), Hpri.
      by rewrite decide_False.
    + rewrite (len_heap _ Hwf'), (len_heap _ Hwf). simpl. rewrite Hlen.
      by destruct Hk as [pos ->].
Qed.

(** X6: [__delitem__] of a dkey that is present keeps I1 to I4: the test
    [parent_pos > 0] never matters here, because the entry moved into the
    hole comes from the heap and cannot outrank the root. *)
Theorem delitem_keeps_heap_order (w : world (K:=K)) (k : K) :
  good w → (__contains__ k w).1 = Ret true →
  ∃ w', __delitem__ k w = (Ret tt, w') ∧ good w'.
Proof.
  destruct w as [σ [h f c]]. intros Hgood [pos Hk]%contains_true.
  destruct (delitem_ordered σ h f c k pos Hgood Hk)
    as (e & h' & f' & _ & _ & Hrun & _ & Hgood').
  by exists (σ, PQDict h' f' c).
Qed.

(** X7: [pop] of a dkey that is present keeps I1 to I4 and returns the
    priority the dkey had. *)
Theorem pop_key_keeps_heap_order (w : world (K:=K)) (k : K) default :
  good w → (__contains__ k w).1 = Ret true →
  ∃ v w',
    __getitem__ k w = (Ret v, w)
    ∧ pop k default w = (Ret v, w') ∧ good w'.
Proof.
  destruct w as [σ [h f c]]. intros Hgood Hin. pose proof Hgood as (Hwf & _).
  destruct (proj1 (contains_true _ _) Hin) as [pos Hk]. simpl in Hk.
  destruct (pop_ordered σ h f c k default pos Hgood Hk)
    as (e & h' & f' & He & Hke & Hrun & _ & Hgood').
  exists (pkey_of σ e), (σ, PQDict h' f' c). split_and!; [|done..].
  rewrite (getitem_outcome _ k Hwf). unfold priority_of. simpl.
  rewrite Hk. simpl. by rewrite He.
Qed.

(** X8: [updateitem] keeps I1 to I4 whenever the entry is not directly below
    the root (positions 1 and 2) or its new priority does not outrank the
    priority at the root: the defect of the update branch is confined to
    entries at positions 1 and 2 that come to outrank the root. *)
Theorem update_keeps_heap_order_off_root (w : world (K:=K)) (k : K) (v : Z)
    (pos : nat) :
  good w → nodefinder w.2 !! k = Some pos →
  (pos = 1 ∨ pos = 2 →
   ∀ r, heap w.2 !! 0 = Some r →
        (rank (create_entry w.2) (pkey_of w.1 r)
         ≤ rank (create_entry w.2) v)%Z) →
  ∃ w', updateitem k v w = (Ret tt, w') ∧ good w'.
Proof.
  destruct w as [σ [h f c]]. simpl. intros Hgood Hk Hroot.
  rewrite updateitem_present by by rewrite Hk.
  apply (setitem_update_ordered σ h f c k v pos Hgood Hk).
  intros Hp0 Hpp. apply Hroot. lia.
Qed.

(** X9: on a queue that satisfies I1 to I4 and is not empty, [peek] and
    [popitem] return the same pair, its priority is the one [__getitem__]
    gives for its dkey, no dkey of the queue has a priority that ranks
    higher, and [popitem] leaves a queue that satisfies I1 to I4, without
    that dkey and with every other dkey at its priority. *)
Theorem popitem_returns_top (w : world (K:=K)) :
  good w → (__len__ w).1 ≠ Ret 0 →
  ∃ k v w',
    peek w = (Ret (k, v), w)
    ∧ popitem w = (Ret (k, v), w') ∧ good w'
    ∧ __getitem__ k w = (Ret v, w)
    ∧ (∀ k' v', __getitem__ k' w = (Ret v', w) →
                by_rank (create_entry w.2) v v')
    ∧ (∀ k', priority_of w' k'
             = if decide (k' = k) then None else priority_of w k').
Proof.
  intros Hgood Hlen. pose proof Hgood as (Hwf & Huni & Hord).
  destruct (proj2 (peek_nonempty w Hwf) Hlen) as (e & He & Hpeek).
  destruct w as [σ [h f c]]. pose proof Hwf as (Hok & _). simpl in *.
  destruct (popitem_good σ h f c e Hgood He)
    as (h' & f' & Hrun & Hperm & Hgood').
  exists (dkey e), (pkey_of σ e), (σ, PQDict h' f' c).
  split_and!; [done..| | |].
  - rewrite (getitem_outcome _ _ Hwf).
    rewrite (priority_of_elem σ h f c e Hok); [done|].
    by eapply list_elem_of_lookup_2.
  - intros k' v'. rewrite (getitem_outcome _ k' Hwf).
    destruct (priority_of (σ, PQDict h f c) k') as [x|] eqn:Hk'; [|done].
    intros [= ->].
    destruct (priority_of_Some σ h f c k' v' Hok Hk') as (a & Ha & _ & <-).
    apply list_elem_of_lookup in Ha as [p Hp].
    by apply (root_top σ c h e Hord Huni He p a).
  - apply removed_priorities; [done..|]. apply Hgood'.
Qed.

(** X10: [__setitem__] of a dkey that is absent keeps I1 to I4: the new entry
    is appended and [_swim] takes it up to its place. *)
Theorem insert_keeps_heap_order (w : world (K:=K)) (k : K) (v : Z) :
  good w → (__contains__ k w).1 = Ret false →
  ∃ w', __setitem__ k v w = (Ret tt, w') ∧ good w'.
Proof.
  destruct w as [σ [h f c]]. intros Hgood Hk%contains_false.
  by apply setitem_new_good.
Qed.

(** X11: on a queue as the methods leave it, [__iter__] yields every dkey of
    the queue exactly once: no dkey twice, as many dkeys as the size, and a
    dkey is yielded exactly when the queue contains it. *)
Theorem iter_lists_keys (w : world (K:=K)) :
  wf w →
  NoDup (__iter__ w)
  ∧ (__len__ w).1 = Ret (length (__iter__ w))
  ∧ ∀ k, k ∈ __iter__ w ↔ (__contains__ k w).1 = Ret true.
Proof.
  intros Hwf. pose proof Hwf as (Hok & _). unfold __iter__. split_and!.
  - by eapply index_fwd_NoDup, Hok.
  - rewrite (len_heap w Hwf). by rewrite length_fmap.
  - intros k. rewrite contains_true, <- not_eq_None_Some.
    rewrite (index_ok_absent _ _ k Hok).
    destruct (decide (k ∈ dkey <$> heap w.2)); naive_solver.
Qed.

(** X12: [fromfunction], given pairwise distinct dkeys and a priority
    function, returns a min-queue that satisfies I1 to I4, contains exactly
    the dkeys given, and gives each of them the priority that the function
    computes. *)
Theorem fromfunction_priorities σ (iterable : list K) (pkeygen : K → Z) :
  NoDup iterable →
  ∃ w',
    fromfunction iterable pkeygen σ = (Ret tt, w') ∧ good w'
    ∧ create_entry w'.2 = MinPQDEntry
    ∧ (__len__ w').1 = Ret (length iterable)
    ∧ (∀ k, k ∈ iterable → __getitem__ k w' = (Ret (pkeygen k), w'))
    ∧ (∀ k, k ∉ iterable → (__contains__ k w').1 = Ret false).
Proof.
  intros Hnd. unfold fromfunction.
  set (items := (λ k, (k, pkeygen k)) <$> iterable).
  assert (items.*1 = iterable) as Hkeys.
  { unfold items. rewrite <- list_fmap_compose. apply list_fmap_id. }
  destruct (construct_run σ MinPQDEntry items) as (w' & Hrun & Hgood & Hc & Hcont).
  { by rewrite Hkeys. }
  exists w'. pose proof Hgood as (Hwf & _). pose proof Hwf as (Hok & _).
  split_and!; [done..| | |].
  - rewrite (len_heap _ Hwf). f_equal.
    apply Permutation_length in Hcont. unfold contents, items in Hcont.
    by rewrite !length_fmap in Hcont.
  - intros k Hk. rewrite (getitem_outcome _ k Hwf).
    destruct w' as [σ' [h' f' c']]. simpl in *.
    rewrite (proj2 (priority_of_contents σ' h' f' c' k (pkeygen k) Hok));
      [done|].
    rewrite Hcont. apply list_elem_of_fmap. by exists k.
  - intros k Hk. apply contains_false.
    apply (index_ok_absent _ _ k Hok).
    intros Hin. apply Hk. rewrite <- Hkeys.
    assert (dkey <$> heap w'.2 = (contents w'.1 (heap w'.2)).*1) as Heq.
    { unfold contents. by rewrite <- list_fmap_compose. }
    rewrite Heq, Hcont in Hin. done.
Qed.

(** X13: for a heap whose entries are of one class and whose index is
    right, and that is in heap order within the subtree of [top] except,
    perhaps, between [pos] and its parent (no child of [pos] outranking that
    parent), [_swim(pos, top)] returns; it permutes the entries, leaves every
    position outside the subtree of [top] as it was, leaves the subtree of
    [top] in heap order, and the index is right for the new heap. *)
Theorem swim_restores_order σ c h f pos top :
  pos < length h → index_ok h f → swim_inv σ c top h pos →
  ∃ h' f',
    _swim pos top (σ, PQDict h f c) = (Ret tt, (σ, PQDict h' f' c))
    ∧ h' ≡ₚ h
    ∧ (∀ i, ¬ in_subtree top i → h' !! i = h !! i)
    ∧ heap_ordered σ top h'
    ∧ index_ok h' f'.
Proof.
  intros Hpos Hok Hinv.
  destruct (lookup_lt_is_Some_2 h pos Hpos) as [e0 He0].
  destruct (swim_full σ c top h f pos e0 He0 (proj1 Hok) Hinv)
    as (h' & f' & Hrun & (Hperm & Hfwd & Hfr & Hout) & Hord).
  exists h', f'. split_and!; [done..|]. by eapply index_ok_frame.
Qed.

Lemma run_calls_good (cs : list (call (K:=K))) : ∀ w,
  forallb no_update cs = true → good w → good (run_calls cs w).
Proof.
  induction cs as [|cl cs IH]; intros w Hcs Hgood; [done|].
  simpl in *. apply andb_true_iff in Hcs as [Hcl Hcs].
  apply IH; [done|]. by apply run_call_good.
Qed.

(** X14: after any sequence of calls on a queue that started empty, I1 and
    I2 hold: the index is right for the heap array, no dkey is in the array
    twice, and the size is the length of the array. *)
Theorem calls_keep_index σ c (cs : list (call (K:=K))) :
  let w := run_calls cs (σ, PQDict [] ∅ c) in
  index_ok (heap w.2) (nodefinder w.2)
  ∧ NoDup (dkey <$> heap w.2)
  ∧ (__len__ w).1 = Ret (length (heap w.2)).
Proof.
  intros w. pose proof (run_calls_wf cs _ (wf_empty σ c)) as Hwf.
  fold w in Hwf. pose proof Hwf as (Hok & _). split_and!; [done| |].
  - by eapply index_fwd_NoDup, Hok.
  - by apply len_heap.
Qed.

(** X15: after any sequence of addItem, deleteItem, pop and pop(dkey) calls
    on a queue that started empty, I1 to I4 hold; only an assignment to a
    dkey that is present can break the heap order. *)
Theorem calls_without_update_keep_heap_order σ c (cs : list (call (K:=K))) :
  forallb no_update cs = true →
  good (run_calls cs (σ, PQDict [] ∅ c)).
Proof. intros Hcs. apply run_calls_good; [done|apply good_empty]. Qed.

Lemma heap_ordered_similar σ σ' h h' :
  Forall2 (esim (K:=K) σ' σ) h' h → heap_ordered σ 0 h →
  heap_ordered σ' 0 h'.
Proof.
  intros Hsim Hord p a' b' Hp Hp0 Ha' Hb'.
  destruct (Forall2_lookup_l _ _ _ _ _ Hsim Ha') as (a & Ha & _ & Hca & Hpa).
  destruct (Forall2_lookup_l _ _ _ _ _ Hsim Hb') as (b & Hb & _ & _ & Hpb).
  specialize (Hord p a b Hp Hp0 Ha Hb).
  unfold entry_lt in *. by rewrite Hca, Hpa, Hpb.
Qed.

(** X16: the copy of a queue that satisfies I1 to I4 holds new entry objects
    of the classes of the original's entries, in heap order and rightly
    indexed, and the original still satisfies I1 to I4; the copy's
    [create_entry] is [MinPQDEntry] whatever the original's, so the copy of a
    min-queue satisfies I1 to I4 as a min-queue. *)
Theorem copy_keeps_invariants (w : world (K:=K)) :
  good w →
  let σ1 := (__copy__ w).1 in
  let c := (__copy__ w).2 in
  good (σ1, w.2)
  ∧ wf (σ1, c)
  ∧ uniform (create_entry w.2) (heap c)
  ∧ heap_ordered σ1 0 (heap c)
  ∧ create_entry c = MinPQDEntry
  ∧ (create_entry w.2 = MinPQDEntry → good (σ1, c)).
Proof.
  intros (Hwf & Huni & Hord) σ1 c. destruct w as [σ q].
  destruct (copy_apart σ q σ1 c Hwf) as ((Hwfq & Hwfc & _) & Hsim & Hsim').
  { unfold σ1, c. by destruct (__copy__ (σ, q)). }
  destruct Hsim as (_ & _ & Hsim & _).
  destruct Hsim' as (_ & _ & Hsim' & _). simpl in *.
  assert (uniform (create_entry q) (heap c)) as Hunic.
  { intros a Ha. apply list_elem_of_lookup in Ha as [i Hi].
    destruct (Forall2_lookup_l _ _ _ _ _ Hsim Hi) as (b & Hb & _ & -> & _).
    by eapply uniform_lookup. }
  assert (heap_ordered σ1 0 (heap c)) as Hordc.
  { by apply (heap_ordered_similar σ σ1 (heap q) (heap c)). }
  assert (create_entry c = MinPQDEntry) as Hcc.
  { unfold c, __copy__. simpl. by destruct (copy_entries σ (heap q)). }
  split_and!; [|done..|].
  - unfold good. simpl. split_and!; [done..|].
    apply (heap_ordered_similar σ σ1 (heap q) (heap q)); [|done].
    apply Forall2_same_length_lookup. split; [done|].
    intros i a b Ha Hb. assert (a = b) as -> by congruence.
    destruct (Forall2_lookup_r _ _ _ _ _ Hsim Hb) as (x & Hx & Hk & Hc & Hp).
    destruct (Forall2_lookup_lr _ _ _ _ _ _ Hsim' Hx Hb) as (_ & _ & Hp').
    split_and!; [done..|]. congruence.
  - intros Hmin. unfold good. simpl. rewrite Hcc, <- Hmin. done.
Qed.

End proofs.

(** * The scenarios of the specification and instances of the theorems *)

Example scenario_A_pops :
  (bind (setitems scenario_A) (λ _, popitems 3) (fresh MinPQDEntry)).1
  = Ret [("b"%string, 1%Z); ("c"%string, 2%Z); ("a"%string, 3%Z)].
Proof. reflexivity. Qed.

(** C1 (defect in the source): in a max-queue built by inserting x:5 and
    y:9, [updateitem(x, 20)] returns and [peek] then returns (y, 9), not
    (x, 20): x sits at position 1, its parent is the root, and the test
    [parent_pos > 0] of the update branch skips the comparison with a parent
    at position 0, so [_swim] is not called.  The same happens when the two
    pairs are given to the constructor. *)
Theorem update_below_root_does_not_swim :
  let w := run_calls scenario_B (fresh MaxPQDEntry) in
  (updateitem "x"%string 20%Z
     (run_calls [SetPriority "x"%string 5%Z; SetPriority "y"%string 9%Z]
        (fresh MaxPQDEntry))).1 = Ret tt
  ∧ peek w = (Ret ("y"%string, 9%Z), w)
  ∧ (__getitem__ "x"%string w).1 = Ret 20%Z
  ∧ nodefinder w.2 !! "x"%string = Some 1
  ∧ scenario_B_constructed = Ret ("y"%string, 9%Z).
Proof. vm_compute. by split_and!. Qed.

(** C2 (defect in the source): after setPriority(x, 5), setPriority(y, 9),
    updateItem(x, 20) on an empty max-queue, I1 and I2 hold but I3 does not:
    the entry at position 1 ranks higher than its parent at position 0 (and
    so the root is not a top-ranked entry, I4). *)
Theorem update_breaks_heap_order :
  let w := run_calls scenario_B (fresh MaxPQDEntry) in
  wf w
  ∧ (∃ a b, heap w.2 !! 1 = Some a ∧ heap w.2 !! 0 = Some b
            ∧ entry_lt w.1 a b = true)
  ∧ ¬ heap_ordered w.1 0 (heap w.2).
Proof.
  intros w. split_and!.
  - apply run_calls_wf, wf_empty.
  - by eexists _, _.
  - intros Hord.
    specialize (Hord 1 (Entry 0 "x"%string MaxPQDEntry)
                  (Entry 1 "y"%string MaxPQDEntry) (in_subtree_0 1)).
    by specialize (Hord ltac:(done) eq_refl eq_refl).
Qed.

(** C3 (defect in the source): the constructor given the pairs (k, 1),
    (k, 2) builds a queue of size 1 in which getPriority(k) is 1, not 2, and
    whose heap array holds two entries for k, one of them not indexed. *)
Theorem constructor_keeps_duplicates :
  ∃ w,
    minpq scenario_E [] = (Ret tt, w)
    ∧ (__len__ w).1 = Ret 1
    ∧ (__getitem__ "k"%string w).1 = Ret 1%Z
    ∧ dkey <$> heap w.2 = ["k"%string; "k"%string]
    ∧ contents w.1 (heap w.2) = [("k"%string, 1%Z); ("k"%string, 2%Z)]
    ∧ ¬ wf w.
Proof.
  eexists. split; [vm_compute; reflexivity|].
  split_and!; [done..|].
  intros (Hok & _). apply index_ok_size in Hok. by vm_compute in Hok.
Qed.

(** ** Instances of the theorems *)

Lemma scenario_A_NoDup : NoDup scenario_A.*1.
Proof. refine (bool_decide_unpack _ _). by vm_compute. Qed.

Lemma some_queue_wf : wf some_queue.
Proof. apply run_calls_wf, wf_empty. Qed.

Lemma three_index_ok : index_ok three_heap three_index.
Proof.
  apply (index_ok_snoc
           [Entry 0 "a"%string MinPQDEntry; Entry 1 "b"%string MinPQDEntry]
           (<["b"%string:=1]> (<["a"%string:=0]> ∅))
           (Entry 2 "c"%string MinPQDEntry)); [|done].
  apply (index_ok_snoc [Entry 0 "a"%string MinPQDEntry]
           (<["a"%string:=0]> ∅) (Entry 1 "b"%string MinPQDEntry)); [|done].
  apply (index_ok_snoc [] ∅ (Entry 0 "a"%string MinPQDEntry)); [|done].
  apply (heap_state_empty [] MinPQDEntry).
Qed.

Lemma three_uniform : uniform MinPQDEntry three_heap.
Proof.
  intros e He. unfold three_heap in He.
  repeat (apply elem_of_cons in He as [->|He]; [done|]).
  by apply elem_of_nil in He.
Qed.

Lemma three_below_ordered : below_ordered three_store 0 three_heap.
Proof.
  intros p a b _ Hp Hpp Ha _. apply lookup_lt_Some in Ha. simpl in Ha.
  exfalso. apply Hpp. apply Nat.div_small. lia.
Qed.

Lemma sorted_extraction_witness :
  NoDup scenario_A.*1
  ∧ ∃ out w',
      (let! _ := setitems scenario_A in popitems (length scenario_A))
        ([], PQDict [] ∅ MinPQDEntry)
      = (Ret out, w')
      ∧ heap w'.2 = []
      ∧ out ≡ₚ scenario_A
      ∧ (MinPQDEntry = MinPQDEntry → StronglySorted Z.le out.*2)
      ∧ (MinPQDEntry = MaxPQDEntry → StronglySorted Z.ge out.*2).
Proof.
  split; [exact scenario_A_NoDup|].
  apply (sorted_extraction [] MinPQDEntry scenario_A). exact scenario_A_NoDup.
Defined.

Lemma index_correct_witness :
  (__contains__ "a"%string (run_calls some_calls (fresh MinPQDEntry))).1
  = Ret true
  ∧ ∃ v,
      __getitem__ "a"%string (run_calls some_calls (fresh MinPQDEntry))
      = (Ret v, run_calls some_calls (fresh MinPQDEntry))
      ∧ supplied "a"%string some_calls (fresh MinPQDEntry) None = Some v.
Proof.
  split; [reflexivity|].
  apply (index_correct [] MinPQDEntry some_calls "a"%string). reflexivity.
Defined.

Lemma pop_peek_fail_iff_empty_witness :
  wf some_queue
  ∧ ((__len__ some_queue).1 = Ret 0 →
       popitem some_queue = (Raise KeyError, some_queue)
       ∧ peek some_queue = (Raise KeyError, some_queue))
  ∧ ((__len__ some_queue).1 ≠ Ret 0 →
       ∃ e, heap some_queue.2 !! 0 = Some e
            ∧ peek some_queue
              = (Ret (dkey e, pkey_of some_queue.1 e), some_queue)
            ∧ ∃ w', popitem some_queue
                    = (Ret (dkey e, pkey_of some_queue.1 e), w')
                    ∧ wf w').
Proof.
  split; [exact some_queue_wf|].
  apply (pop_peek_fail_iff_empty some_queue). exact some_queue_wf.
Defined.

Lemma delitem_fail_iff_absent_witness :
  wf some_queue
  ∧ (__contains__ "c"%string some_queue).1 = Ret true
  ∧ ∃ w' n,
      __delitem__ "c"%string some_queue = (Ret tt, w') ∧ wf w'
      ∧ (__contains__ "c"%string w').1 = Ret false
      ∧ (__len__ some_queue).1 = Ret (S n) ∧ (__len__ w').1 = Ret n.
Proof.
  split; [exact some_queue_wf|]. split; [reflexivity|].
  apply (delitem_fail_iff_absent some_queue "c"%string);
    [exact some_queue_wf|reflexivity].
Defined.

Lemma sink_restores_subtree_witness :
  0 < length three_heap
  ∧ index_ok three_heap three_index
  ∧ uniform MinPQDEntry three_heap
  ∧ below_ordered three_store 0 three_heap
  ∧ ∃ h' f',
      _sink 0 (three_store, PQDict three_heap three_index MinPQDEntry)
      = (Ret tt, (three_store, PQDict h' f' MinPQDEntry))
      ∧ h' ≡ₚ three_heap
      ∧ (∀ i, ¬ in_subtree 0 i → h' !! i = three_heap !! i)
      ∧ heap_ordered three_store 0 h'
      ∧ index_ok h' f'
      ∧ index_frame three_heap three_index f'.
Proof.
  split; [simpl; lia|].
  split; [exact three_index_ok|].
  split; [exact three_uniform|].
  split; [exact three_below_ordered|].
  apply (sink_restores_subtree three_store MinPQDEntry three_heap three_index 0);
    [simpl; lia|exact three_index_ok|exact three_uniform
    |exact three_below_ordered].
Defined.

Lemma clone_independent_witness :
  wf some_queue
  ∧ same_view ((__copy__ some_queue).1, (__copy__ some_queue).2) some_queue.
Proof.
  split; [exact some_queue_wf|].
  exact (proj1 (clone_independent some_queue some_queue_wf)).
Defined.

Lemma pop_key_total_witness :
  wf some_queue
  ∧ (__contains__ "a"%string some_queue).1 = Ret true
  ∧ ∀ default, ∃ v w',
      __getitem__ "a"%string some_queue = (Ret v, some_queue)
      ∧ pop "a"%string default some_queue = (Ret v, w') ∧ wf w'
      ∧ (__contains__ "a"%string w').1 = Ret false
      ∧ ∀ k' x, priority_of w' k' = Some x →
                priority_of some_queue k' = Some x.
Proof.
  split; [exact some_queue_wf|]. split; [reflexivity|].
  apply (proj2 (pop_key_total some_queue "a"%string));
    [exact some_queue_wf|reflexivity].
Defined.

(** ** Instances of the further properties *)

Lemma added_queue_good : good added_queue.
Proof. apply run_calls_good; [reflexivity|apply good_empty]. Qed.

Lemma some_keys_NoDup : NoDup some_keys.
Proof. refine (bool_decide_unpack _ _). by vm_compute. Qed.

Lemma swim_store_inv : swim_inv swim_store MinPQDEntry 0 three_heap 2.
Proof.
  split_and!.
  - apply in_subtree_0.
  - exact three_uniform.
  - intros p a b _ Hp0 Hp2 Ha Hb.
    destruct p as [|[|[|p]]]; [done| |done|done].
    simpl in Ha, Hb. by simplify_eq.
  - intros _ ch a b Hch Ha _. apply lookup_lt_Some in Ha. simpl in Ha. lia.
Qed.

Lemma constructor_builds_heap_witness :
  NoDup scenario_A.*1
  ∧ ∃ w',
      construct MaxPQDEntry scenario_A [] = (Ret tt, w') ∧ good w'
      ∧ create_entry w'.2 = MaxPQDEntry
      ∧ (__len__ w').1 = Ret (length scenario_A)
      ∧ ∀ k v, __getitem__ k w' = (Ret v, w') ↔ (k, v) ∈ scenario_A.
Proof.
  split; [exact scenario_A_NoDup|].
  exact (constructor_builds_heap [] MaxPQDEntry scenario_A scenario_A_NoDup).
Defined.

Lemma heapify_restores_order_witness :
  index_ok three_heap three_index
  ∧ uniform MinPQDEntry three_heap
  ∧ ∃ h' f',
      _heapify (three_store, PQDict three_heap three_index MinPQDEntry)
      = (Ret tt, (three_store, PQDict h' f' MinPQDEntry))
      ∧ h' ≡ₚ three_heap ∧ index_ok h' f'
      ∧ heap_ordered three_store 0 h'.
Proof.
  split; [exact three_index_ok|]. split; [exact three_uniform|].
  exact (heapify_restores_order three_store MinPQDEntry three_heap
           three_index three_index_ok three_uniform).
Defined.

Lemma setitem_then_getitem_witness :
  wf some_queue
  ∧ ∃ w',
      __setitem__ "a"%string 0%Z some_queue = (Ret tt, w') ∧ wf w'
      ∧ __getitem__ "a"%string w' = (Ret 0%Z, w')
      ∧ (∀ k', k' ≠ "a"%string →
           (__getitem__ k' w').1 = (__getitem__ k' some_queue).1
           ∧ (__contains__ k' w').1 = (__contains__ k' some_queue).1)
      ∧ ∃ n, (__len__ some_queue).1 = Ret n
             ∧ (__len__ w').1
               = Ret (if nodefinder some_queue.2 !! "a"%string is Some _
                      then n else S n).
Proof.
  split; [exact some_queue_wf|].
  exact (setitem_then_getitem some_queue "a"%string 0%Z some_queue_wf).
Defined.

Lemma additem_fails_iff_present_witness :
  wf some_queue
  ∧ (__contains__ "z"%string some_queue).1 = Ret false
  ∧ ∃ w' n,
      additem "z"%string 6%Z some_queue = (Ret tt, w') ∧ wf w'
      ∧ __getitem__ "z"%string w' = (Ret 6%Z, w')
      ∧ (∀ k', k' ≠ "z"%string →
           (__getitem__ k' w').1 = (__getitem__ k' some_queue).1)
      ∧ (__len__ some_queue).1 = Ret n ∧ (__len__ w').1 = Ret (S n).
Proof.
  split; [exact some_queue_wf|]. split; [reflexivity|].
  exact (proj2 (additem_fails_iff_present some_queue "z"%string 6%Z
                  some_queue_wf) eq_refl).
Defined.

Lemma updateitem_fails_iff_absent_witness :
  wf some_queue
  ∧ (__contains__ "a"%string some_queue).1 = Ret true
  ∧ ∃ w',
      updateitem "a"%string 6%Z some_queue = (Ret tt, w') ∧ wf w'
      ∧ __getitem__ "a"%string w' = (Ret 6%Z, w')
      ∧ (∀ k', k' ≠ "a"%string →
           (__getitem__ k' w').1 = (__getitem__ k' some_queue).1)
      ∧ (__len__ w').1 = (__len__ some_queue).1.
Proof.
  split; [exact some_queue_wf|]. split; [reflexivity|].
  exact (proj2 (updateitem_fails_iff_absent some_queue "a"%string 6%Z
                  some_queue_wf) eq_refl).
Defined.

Lemma delitem_keeps_heap_order_witness :
  good added_queue
  ∧ (__contains__ "c"%string added_queue).1 = Ret true
  ∧ ∃ w', __delitem__ "c"%string added_queue = (Ret tt, w') ∧ good w'.
Proof.
  split; [exact added_queue_good|]. split; [reflexivity|].
  exact (delitem_keeps_heap_order added_queue "c"%string added_queue_good
           eq_refl).
Defined.

Lemma pop_key_keeps_heap_order_witness :
  good added_queue
  ∧ (__contains__ "c"%string added_queue).1 = Ret true
  ∧ ∃ v w',
      __getitem__ "c"%string added_queue = (Ret v, added_queue)
      ∧ pop "c"%string None added_queue = (Ret v, w') ∧ good w'.
Proof.
  split; [exact added_queue_good|]. split; [reflexivity|].
  exact (pop_key_keeps_heap_order added_queue "c"%string None
           added_queue_good eq_refl).
Defined.

Lemma update_keeps_heap_order_off_root_witness :
  good added_queue
  ∧ nodefinder added_queue.2 !! "a"%string = Some 3
  ∧ ∃ w', updateitem "a"%string (-1)%Z added_queue = (Ret tt, w') ∧ good w'.
Proof.
  split; [exact added_queue_good|]. split; [reflexivity|].
  apply (update_keeps_heap_order_off_root added_queue "a"%string (-1)%Z 3
           added_queue_good eq_refl).
  intros [Hpos|Hpos]; discriminate Hpos.
Defined.

Lemma popitem_returns_top_witness :
  good added_queue
  ∧ (__len__ added_queue).1 ≠ Ret 0
  ∧ ∃ k v w',
      peek added_queue = (Ret (k, v), added_queue)
      ∧ popitem added_queue = (Ret (k, v), w') ∧ good w'
      ∧ __getitem__ k added_queue = (Ret v, added_queue)
      ∧ (∀ k' v', __getitem__ k' added_queue = (Ret v', added_queue) →
                  by_rank (create_entry added_queue.2) v v')
      ∧ (∀ k', priority_of w' k'
               = if decide (k' = k) then None
                 else priority_of added_queue k').
Proof.
  assert ((__len__ added_queue).1 ≠ Ret 0) as Hlen by (by vm_compute).
  split; [exact added_queue_good|]. split; [exact Hlen|].
  exact (popitem_returns_top added_queue added_queue_good Hlen).
Defined.

Lemma insert_keeps_heap_order_witness :
  good added_queue
  ∧ (__contains__ "z"%string added_queue).1 = Ret false
  ∧ ∃ w', __setitem__ "z"%string 1%Z added_queue = (Ret tt, w') ∧ good w'.
Proof.
  split; [exact added_queue_good|]. split; [reflexivity|].
  exact (insert_keeps_heap_order added_queue "z"%string 1%Z added_queue_good
           eq_refl).
Defined.

Lemma iter_lists_keys_witness :
  wf some_queue
  ∧ NoDup (__iter__ some_queue)
  ∧ (__len__ some_queue).1 = Ret (length (__iter__ some_queue))
  ∧ ∀ k, k ∈ __iter__ some_queue ↔ (__contains__ k some_queue).1 = Ret true.
Proof.
  split; [exact some_queue_wf|].
  exact (iter_lists_keys some_queue some_queue_wf).
Defined.

Lemma fromfunction_priorities_witness :
  NoDup some_keys
  ∧ ∃ w',
      fromfunction some_keys key_length [] = (Ret tt, w') ∧ good w'
      ∧ create_entry w'.2 = MinPQDEntry
      ∧ (__len__ w').1 = Ret (length some_keys)
      ∧ (∀ k, k ∈ some_keys → __getitem__ k w' = (Ret (key_length k), w'))
      ∧ (∀ k, k ∉ some_keys → (__contains__ k w').1 = Ret false).
Proof.
  split; [exact some_keys_NoDup|].
  exact (fromfunction_priorities [] some_keys key_length some_keys_NoDup).
Defined.

Lemma swim_restores_order_witness :
  2 < length three_heap
  ∧ index_ok three_heap three_index
  ∧ swim_inv swim_store MinPQDEntry 0 three_heap 2
  ∧ ∃ h' f',
      _swim 2 0 (swim_store, PQDict three_heap three_index MinPQDEntry)
      = (Ret tt, (swim_store, PQDict h' f' MinPQDEntry))
      ∧ h' ≡ₚ three_heap
      ∧ (∀ i, ¬ in_subtree 0 i → h' !! i = three_heap !! i)
      ∧ heap_ordered swim_store 0 h'
      ∧ index_ok h' f'.
Proof.
  assert (2 < length three_heap) as Hlen by (simpl; lia).
  split; [exact Hlen|]. split; [exact three_index_ok|].
  split; [exact swim_store_inv|].
  exact (swim_restores_order swim_store MinPQDEntry three_heap three_index 2 0
           Hlen three_index_ok swim_store_inv).
Defined.

Lemma calls_without_update_keep_heap_order_witness :
  forallb no_update added_calls = true
  ∧ good (run_calls added_calls ([], PQDict [] ∅ MinPQDEntry)).
Proof.
  split; [reflexivity|].
  exact (calls_without_update_keep_heap_order [] MinPQDEntry added_calls
           eq_refl).
Defined.

Lemma copy_keeps_invariants_witness :
  good added_queue
  ∧ wf ((__copy__ added_queue).1, (__copy__ added_queue).2)
  ∧ heap_ordered (__copy__ added_queue).1 0 (heap (__copy__ added_queue).2).
Proof.
  split; [exact added_queue_good|].
  pose proof (copy_keeps_invariants added_queue added_queue_good) as Hcopy.
  split; [exact (proj1 (proj2 Hcopy))|].
  exact (proj1 (proj2 (proj2 (proj2 Hcopy)))).
Defined.
